(** * BioSim: a shallow embedding of the island ecosystem engine

    The development follows [src/biosim/animal_class.py],
    [src/biosim/geography_class.py], [src/biosim/simulation.py] and
    [src/utils/functions.py].

    Conventions of the embedding.
    - Python numbers (ints and floats alike: ages, weights, fitness, the
      species constants) are idealised as real numbers; [e ** x] is [exp x].
      The run on IEEE doubles differs from the idealised one by the
      rounding of every operation and by the [OverflowError] of [e ** x]
      for an exponent above 709.78.  The theorems about weights, intake
      and fitness are phrased so that they hold of both: they leave room
      for the rounding ([unit_roundoff], [rounding_slack]) where they
      compare a computed number with a formula, they are conditional on
      the call returning where the call may overflow, and they bound the
      exponents where they speak of the fitness formula; the lemmas that
      serve their proofs are about the idealised run.  The module
      [Double] embeds the fitness formula on doubles themselves.
    - Python objects have an identity.  Every animal carries the identity it
      received when it was constructed ([Animal.ident]); [list.remove] and
      the [in] operator compare by identity, as they do for instances of
      classes that define no [__eq__].
    - The process-wide generator of the [random] module is an explicit
      environment [Env]: three infinite streams of draws (uniform draws for
      [random.random], standard normal deviates for [random.gauss], integers
      for the [_randbelow] behind [random.choice] and [random.shuffle]) and
      a cursor into each.  Any run of the real generator is one such
      environment.
    - Python exceptions are the [Raise] results of the [result] type. *)

From Stdlib Require Import Reals Lra Lia List ZArith String Ascii Bool Arith.
From Stdlib Require Import Permutation Sorted Floats.
Import ListNotations.

Local Open Scope R_scope.

(** ** Exceptions *)

Inductive exn : Set :=
| AttributeError
| TypeError
| KeyError
| ValueError.

Inductive result (A : Type) : Type :=
| Ok (a : A)
| Raise (e : exn).

Arguments Ok {A} a.
Arguments Raise {A} e.

Definition bind {A B : Type} (m : result A) (k : A -> result B) : result B :=
  match m with
  | Ok a => k a
  | Raise e => Raise e
  end.

Notation "x <- m ;; k" := (bind m (fun x => k))
  (at level 61, m at next level, right associativity).
Notation "' p <- m ;; k" := (bind m (fun p => k))
  (at level 61, p pattern, m at next level, right associativity).

(** Reading an attribute that holds [None] where a list is expected. *)
Definition attr {A : Type} (e : exn) (o : option A) : result A :=
  match o with
  | Some a => Ok a
  | None => Raise e
  end.

(** ** Comparisons of numbers as booleans *)

Definition Rleb (x y : R) : bool := if Rle_dec x y then true else false.
Definition Rltb (x y : R) : bool := if Rlt_dec x y then true else false.
Definition Rgeb (x y : R) : bool := Rleb y x.
Definition Rgtb (x y : R) : bool := Rltb y x.
Definition Reqb (x y : R) : bool := if Req_dec_T x y then true else false.

(** ** The random module *)

Record Env : Type := mkEnv {
  uniform_draws : nat -> R;
  normal_draws : nat -> R;
  index_draws : nat -> nat;
  uniform_pos : nat;
  normal_pos : nat;
  index_pos : nat;
  next_id : nat
}.

(** [random.random()] *)
Definition random_random (env : Env) : R * Env :=
  (uniform_draws env (uniform_pos env),
   mkEnv (uniform_draws env) (normal_draws env) (index_draws env)
         (S (uniform_pos env)) (normal_pos env) (index_pos env) (next_id env)).

(** [random.gauss(mu, sigma)]: [mu + z * sigma] for a standard normal [z]. *)
Definition random_gauss (mu sigma : R) (env : Env) : R * Env :=
  (mu + normal_draws env (normal_pos env) * sigma,
   mkEnv (uniform_draws env) (normal_draws env) (index_draws env)
         (uniform_pos env) (S (normal_pos env)) (index_pos env) (next_id env)).

(** [random._randbelow(n)], for [n > 0]. *)
Definition randbelow (n : nat) (env : Env) : nat * Env :=
  (Nat.modulo (index_draws env (index_pos env)) n,
   mkEnv (uniform_draws env) (normal_draws env) (index_draws env)
         (uniform_pos env) (normal_pos env) (S (index_pos env)) (next_id env)).

(** [random.choice(seq)] for a non-empty [seq]. *)
Definition random_choice {A : Type} (d : A) (seq : list A) (env : Env)
  : A * Env :=
  let (i, env') := randbelow (List.length seq) env in (nth i seq d, env').

(** [x[i], x[j] = x[j], x[i]] *)
Fixpoint set_nth {A : Type} (i : nat) (v : A) (x : list A) : list A :=
  match x, i with
  | [], _ => []
  | _ :: t, O => v :: t
  | h :: t, S i' => h :: set_nth i' v t
  end.

Definition swap {A : Type} (i j : nat) (x : list A) : list A :=
  match nth_error x i, nth_error x j with
  | Some xi, Some xj => set_nth j xi (set_nth i xj x)
  | _, _ => x
  end.

(** [random.shuffle(x)]:
    [for i in reversed(range(1, len(x))): j = randbelow(i + 1); swap i j].
    [shuffle_from i] runs the iterations [i, i-1, ..., 1]. *)
Fixpoint shuffle_from {A : Type} (i : nat) (x : list A) (env : Env)
  : list A * Env :=
  match i with
  | O => (x, env)
  | S i' =>
      let (j, env') := randbelow (S i) env in
      shuffle_from i' (swap i j x) env'
  end.

Definition random_shuffle {A : Type} (x : list A) (env : Env)
  : list A * Env :=
  shuffle_from (Nat.pred (List.length x)) x env.

(** Allocation of a new object: a fresh identity. *)
Definition new_object (env : Env) : nat * Env :=
  (next_id env,
   mkEnv (uniform_draws env) (normal_draws env) (index_draws env)
         (uniform_pos env) (normal_pos env) (index_pos env)
         (S (next_id env))).

(** ** animal_class.py *)

(** [class Animal]: the attributes set by [Animal.__init__] and the methods
    shared by both species. *)
Module Animal.

Record t : Type := mk {
  ident : nat;
  age : R;
  weight : R;
  fitness : R;
  a_half : R;
  zeta : R;
  phi_age : R;
  phi_weight : R;
  w_half : R;
  mu : R;
  omega : R;
  eta : R
}.

Definition with_age (v : R) (a : t) : t :=
  mk (ident a) v (weight a) (fitness a) (a_half a) (zeta a) (phi_age a)
     (phi_weight a) (w_half a) (mu a) (omega a) (eta a).
Definition with_weight (v : R) (a : t) : t :=
  mk (ident a) (age a) v (fitness a) (a_half a) (zeta a) (phi_age a)
     (phi_weight a) (w_half a) (mu a) (omega a) (eta a).
Definition with_fitness (v : R) (a : t) : t :=
  mk (ident a) (age a) (weight a) v (a_half a) (zeta a) (phi_age a)
     (phi_weight a) (w_half a) (mu a) (omega a) (eta a).
Definition with_a_half (v : R) (a : t) : t :=
  mk (ident a) (age a) (weight a) (fitness a) v (zeta a) (phi_age a)
     (phi_weight a) (w_half a) (mu a) (omega a) (eta a).
Definition with_zeta (v : R) (a : t) : t :=
  mk (ident a) (age a) (weight a) (fitness a) (a_half a) v (phi_age a)
     (phi_weight a) (w_half a) (mu a) (omega a) (eta a).
Definition with_phi_age (v : R) (a : t) : t :=
  mk (ident a) (age a) (weight a) (fitness a) (a_half a) (zeta a) v
     (phi_weight a) (w_half a) (mu a) (omega a) (eta a).
Definition with_phi_weight (v : R) (a : t) : t :=
  mk (ident a) (age a) (weight a) (fitness a) (a_half a) (zeta a)
     (phi_age a) v (w_half a) (mu a) (omega a) (eta a).
Definition with_w_half (v : R) (a : t) : t :=
  mk (ident a) (age a) (weight a) (fitness a) (a_half a) (zeta a)
     (phi_age a) (phi_weight a) v (mu a) (omega a) (eta a).
Definition with_mu (v : R) (a : t) : t :=
  mk (ident a) (age a) (weight a) (fitness a) (a_half a) (zeta a)
     (phi_age a) (phi_weight a) (w_half a) v (omega a) (eta a).
Definition with_omega (v : R) (a : t) : t :=
  mk (ident a) (age a) (weight a) (fitness a) (a_half a) (zeta a)
     (phi_age a) (phi_weight a) (w_half a) (mu a) v (eta a).
Definition with_eta (v : R) (a : t) : t :=
  mk (ident a) (age a) (weight a) (fitness a) (a_half a) (zeta a)
     (phi_age a) (phi_weight a) (w_half a) (mu a) (omega a) v.

(** The two factors of the fitness formula:
    [1 / (1 + e ** (phi_age * (age - a_half)))] and
    [1 / (1 + e ** (-phi_weight * (weight - w_half)))]. *)
Definition age_factor (phi a half : R) : R :=
  1 / (1 + exp (phi * (a - half))).
Definition weight_factor (phi w half : R) : R :=
  1 / (1 + exp (- phi * (w - half))).

Definition calculate_fitness (a : t) : t :=
  if Rleb (weight a) 0 then with_fitness 0 a
  else with_fitness
         (age_factor (phi_age a) (age a) (a_half a)
          * weight_factor (phi_weight a) (weight a) (w_half a)) a.

Definition update_age (a : t) : t :=
  let a1 := with_age (age a + 1) a in
  let a2 := with_weight (weight a1 - weight a1 * eta a1) a1 in
  calculate_fitness a2.

Definition migration_prob (a : t) : R := mu a * fitness a.

Definition weight_reduction (baby_weight : R) (a : t) : t :=
  calculate_fitness (with_weight (weight a - baby_weight) a).

(** [random.random()] is only called when the weight is not zero
    ([or] short-circuits). *)
Definition dies (a : t) (env : Env) : bool * Env :=
  let death_prob := omega a * (1 - fitness a) in
  if Reqb (weight a) 0 then (true, env)
  else
    let (r, env') := random_random env in
    (Rgtb death_prob r, env').

(** [self.__setattr__(key, value)] on the attributes of the base class.
    Any other name creates an attribute that no method reads. *)
Definition setattr (key : string) (value : R) (a : t) : t :=
  if String.eqb key "age" then with_age value a
  else if String.eqb key "weight" then with_weight value a
  else if String.eqb key "fitness" then with_fitness value a
  else if String.eqb key "a_half" then with_a_half value a
  else if String.eqb key "zeta" then with_zeta value a
  else if String.eqb key "phi_age" then with_phi_age value a
  else if String.eqb key "phi_weight" then with_phi_weight value a
  else if String.eqb key "w_half" then with_w_half value a
  else if String.eqb key "mu" then with_mu value a
  else if String.eqb key "omega" then with_omega value a
  else if String.eqb key "eta" then with_eta value a
  else a.

End Animal.

(** The fitness formula on IEEE doubles.  The arithmetic is the kernel's
    binary64 arithmetic; a decimal literal denotes the nearest double, as
    it does in Python.  [e ** x] is the [pow] of the C library, whose
    results the standard does not fix bit for bit: it is a parameter
    [e_pow], constrained only where its result is beyond doubt.  For an
    exponent of at most -746 the power is below half of the smallest
    positive double and the result is 0; for a finite exponent of at
    least 709.79 the power is above the largest double and Python raises
    [OverflowError]. *)
Set Warnings "-inexact-float".

Module Double.

Inductive outcome : Set :=
| Returns (v : float)
| OverflowError.


(** [1 / (1 + e ** (phi_age * (age - a_half)))] and
    [1 / (1 + e ** (-phi_weight * (weight - w_half)))]. *)
Definition age_factor (e_pow : float -> outcome) (phi a half : float)
  : outcome :=
  match e_pow (phi * (a - half))%float with
  | Returns p => Returns (1 / (1 + p))%float
  | OverflowError => OverflowError
  end.

Definition weight_factor (e_pow : float -> outcome) (phi w half : float)
  : outcome :=
  match e_pow (- phi * (w - half))%float with
  | Returns p => Returns (1 / (1 + p))%float
  | OverflowError => OverflowError
  end.


End Double.

(** The species constants of a subclass, as its [__init__] assigns them. *)
Record species_constants : Type := mkConstants {
  k_a_half : R;
  k_zeta : R;
  k_phi_age : R;
  k_phi_weight : R;
  k_w_half : R;
  k_mu : R;
  k_omega : R;
  k_eta : R;
  k_sigma_birth : R;
  k_w_birth : R;
  k_beta : R;
  k_gamma : R;
  k_xi : R;
  k_F : R;
  k_DeltaPhiMax : option R
}.

(** [class Herbivore(Animal)] *)
Module Herbivore.

Record t : Type := mk {
  base : Animal.t;
  sigma_birth : R;
  w_birth : R;
  beta : R;
  gamma : R;
  xi : R;
  F : R
}.

Definition with_base (b : Animal.t) (h : t) : t :=
  mk b (sigma_birth h) (w_birth h) (beta h) (gamma h) (xi h) (F h).

Definition ident (h : t) : nat := Animal.ident (base h).
Definition age (h : t) : R := Animal.age (base h).
Definition weight (h : t) : R := Animal.weight (base h).
Definition fitness (h : t) : R := Animal.fitness (base h).

(** [Herbivore(age, weight)]; [weight = None] draws the birth weight. *)
Definition init (age0 : R) (weight0 : option R) (env : Env) : t * Env :=
  let (i, env1) := new_object env in
  let (w, env2) :=
    match weight0 with
    | Some w => (w, env1)
    | None => random_gauss 8 1.5 env1
    end in
  (mk (Animal.calculate_fitness
         {| Animal.ident := i; Animal.age := age0; Animal.weight := w;
            Animal.fitness := 0;
            Animal.a_half := 40; Animal.zeta := 3.5;
            Animal.phi_age := 0.6; Animal.phi_weight := 0.1;
            Animal.w_half := 10; Animal.mu := 0.25;
            Animal.omega := 0.4; Animal.eta := 0.05 |})
      1.5 8 0.9 0.2 1.2 10,
   env2).

Definition feed (available_fodder : R) (h : t) : R * t :=
  if Rgeb available_fodder (F h) then
    (F h,
     with_base (Animal.calculate_fitness
                  (Animal.with_weight (weight h + beta h * F h) (base h))) h)
  else
    (available_fodder,
     with_base (Animal.calculate_fitness
                  (Animal.with_weight
                     (weight h + beta h * available_fodder) (base h))) h).

(** Returns the offspring (or [None]), the parent after the call and the
    environment.  The [else] of the source belongs to the outer [if]; a
    drawn offspring heavier than the parent falls off the end of the
    function, which also returns [None]. *)
Definition gives_birth (N : nat) (h : t) (env : Env)
  : option t * t * Env :=
  let birth_prob := Rmin 1 (gamma h * fitness h * (INR N - 1)) in
  let (r, env1) := random_random env in
  if Rgtb birth_prob r
     && Rgeb (weight h)
             (Animal.zeta (base h) * (w_birth h + sigma_birth h)) then
    let (baby_herbivore, env2) := init 0 None env1 in
    if Rleb (weight baby_herbivore) (weight h) then
      (Some baby_herbivore,
       with_base (Animal.weight_reduction (weight baby_herbivore) (base h))
                 h,
       env2)
    else (None, h, env2)
  else (None, h, env1).

Definition setattr (key : string) (value : R) (h : t) : t :=
  if String.eqb key "sigma_birth" then
    mk (base h) value (w_birth h) (beta h) (gamma h) (xi h) (F h)
  else if String.eqb key "w_birth" then
    mk (base h) (sigma_birth h) value (beta h) (gamma h) (xi h) (F h)
  else if String.eqb key "beta" then
    mk (base h) (sigma_birth h) (w_birth h) value (gamma h) (xi h) (F h)
  else if String.eqb key "gamma" then
    mk (base h) (sigma_birth h) (w_birth h) (beta h) value (xi h) (F h)
  else if String.eqb key "xi" then
    mk (base h) (sigma_birth h) (w_birth h) (beta h) (gamma h) value (F h)
  else if String.eqb key "F" then
    mk (base h) (sigma_birth h) (w_birth h) (beta h) (gamma h) (xi h) value
  else with_base (Animal.setattr key value (base h)) h.

(** [Animal.set_animal_params] on a herbivore. *)
Definition set_animal_params (params : list (string * R)) (h : t) : t :=
  fold_left (fun h' kv => setattr (fst kv) (snd kv) h') params h.

Definition constants (h : t) : species_constants :=
  mkConstants (Animal.a_half (base h)) (Animal.zeta (base h))
              (Animal.phi_age (base h)) (Animal.phi_weight (base h))
              (Animal.w_half (base h)) (Animal.mu (base h))
              (Animal.omega (base h)) (Animal.eta (base h))
              (sigma_birth h) (w_birth h) (beta h) (gamma h) (xi h) (F h)
              None.

Definition default_constants : species_constants :=
  mkConstants 40 3.5 0.6 0.1 10 0.25 0.4 0.05 1.5 8 0.9 0.2 1.2 10 None.

End Herbivore.

(** [class Carnivore(Animal)] *)
Module Carnivore.

Record t : Type := mk {
  base : Animal.t;
  sigma_birth : R;
  w_birth : R;
  beta : R;
  gamma : R;
  xi : R;
  F : R;
  DeltaPhiMax : R
}.

Definition with_base (b : Animal.t) (c : t) : t :=
  mk b (sigma_birth c) (w_birth c) (beta c) (gamma c) (xi c) (F c)
     (DeltaPhiMax c).

Definition ident (c : t) : nat := Animal.ident (base c).
Definition age (c : t) : R := Animal.age (base c).
Definition weight (c : t) : R := Animal.weight (base c).
Definition fitness (c : t) : R := Animal.fitness (base c).

(** [Carnivore(age, weight)] *)
Definition init (age0 : R) (weight0 : option R) (env : Env) : t * Env :=
  let (i, env1) := new_object env in
  let (w, env2) :=
    match weight0 with
    | Some w => (w, env1)
    | None => random_gauss 6 1 env1
    end in
  (mk (Animal.calculate_fitness
         {| Animal.ident := i; Animal.age := age0; Animal.weight := w;
            Animal.fitness := 0;
            Animal.a_half := 40; Animal.zeta := 3.5;
            Animal.phi_age := 0.3; Animal.phi_weight := 0.4;
            Animal.w_half := 4; Animal.mu := 0.4;
            Animal.omega := 0.8; Animal.eta := 0.125 |})
      1 6 0.75 0.8 1.1 50 10,
   env2).

(** A kill: the prey joins the dead, the predator gains weight and its
    fitness is re-evaluated.  The source repeats these four statements in
    both killing branches of [hunt]. *)
Definition eat (eaten : R) (c : t) : t :=
  with_base (Animal.calculate_fitness
               (Animal.with_weight (weight c + beta c * eaten) (base c))) c.

(** The loop of [hunt], with its local variables [dead_herbivores] and
    [eaten_amount] as accumulators. *)
Fixpoint hunt_loop (herbivores : list Herbivore.t)
         (dead_herbivores : list Herbivore.t) (eaten_amount : R)
         (c : t) (env : Env)
  : list Herbivore.t * R * t * Env :=
  match herbivores with
  | [] => (dead_herbivores, eaten_amount, c, env)
  | herbivore :: rest =>
      if Rgeb eaten_amount (F c) then
        (dead_herbivores, eaten_amount, c, env)
      else if Rleb (fitness c) (Herbivore.fitness herbivore) then
        hunt_loop rest dead_herbivores eaten_amount c env
      else if Rltb (fitness c - Herbivore.fitness herbivore)
                   (DeltaPhiMax c) then
        let (r, env1) := random_random env in
        if Rltb r ((fitness c - Herbivore.fitness herbivore)
                   / DeltaPhiMax c) then
          let eaten := Rmin (F c - eaten_amount)
                            (Herbivore.weight herbivore) in
          hunt_loop rest (dead_herbivores ++ [herbivore])
                    (eaten_amount + eaten) (eat eaten c) env1
        else hunt_loop rest dead_herbivores eaten_amount c env1
      else
        let eaten := Rmin (F c - eaten_amount)
                          (Herbivore.weight herbivore) in
        hunt_loop rest (dead_herbivores ++ [herbivore])
                  (eaten_amount + eaten) (eat eaten c) env
  end.

Definition hunt (herbivores : list Herbivore.t) (c : t) (env : Env)
  : list Herbivore.t * t * Env :=
  let '(dead_herbivores, _, c', env') := hunt_loop herbivores [] 0 c env in
  (dead_herbivores, c', env').

Definition gives_birth (N : nat) (c : t) (env : Env)
  : option t * t * Env :=
  let birth_prob := Rmin 1 (gamma c * fitness c * (INR N - 1)) in
  let (r, env1) := random_random env in
  if Rgtb birth_prob r
     && Rgeb (weight c)
             (Animal.zeta (base c) * (w_birth c + sigma_birth c)) then
    let (baby_carnivore, env2) := init 0 None env1 in
    if Rleb (weight baby_carnivore) (weight c) then
      (Some baby_carnivore,
       with_base (Animal.weight_reduction (weight baby_carnivore) (base c))
                 c,
       env2)
    else (None, c, env2)
  else (None, c, env1).

Definition setattr (key : string) (value : R) (c : t) : t :=
  if String.eqb key "sigma_birth" then
    mk (base c) value (w_birth c) (beta c) (gamma c) (xi c) (F c)
       (DeltaPhiMax c)
  else if String.eqb key "w_birth" then
    mk (base c) (sigma_birth c) value (beta c) (gamma c) (xi c) (F c)
       (DeltaPhiMax c)
  else if String.eqb key "beta" then
    mk (base c) (sigma_birth c) (w_birth c) value (gamma c) (xi c) (F c)
       (DeltaPhiMax c)
  else if String.eqb key "gamma" then
    mk (base c) (sigma_birth c) (w_birth c) (beta c) value (xi c) (F c)
       (DeltaPhiMax c)
  else if String.eqb key "xi" then
    mk (base c) (sigma_birth c) (w_birth c) (beta c) (gamma c) value (F c)
       (DeltaPhiMax c)
  else if String.eqb key "F" then
    mk (base c) (sigma_birth c) (w_birth c) (beta c) (gamma c) (xi c) value
       (DeltaPhiMax c)
  else if String.eqb key "DeltaPhiMax" then
    mk (base c) (sigma_birth c) (w_birth c) (beta c) (gamma c) (xi c) (F c)
       value
  else with_base (Animal.setattr key value (base c)) c.

(** [Animal.set_animal_params] on a carnivore. *)
Definition set_animal_params (params : list (string * R)) (c : t) : t :=
  fold_left (fun c' kv => setattr (fst kv) (snd kv) c') params c.

Definition constants (c : t) : species_constants :=
  mkConstants (Animal.a_half (base c)) (Animal.zeta (base c))
              (Animal.phi_age (base c)) (Animal.phi_weight (base c))
              (Animal.w_half (base c)) (Animal.mu (base c))
              (Animal.omega (base c)) (Animal.eta (base c))
              (sigma_birth c) (w_birth c) (beta c) (gamma c) (xi c) (F c)
              (Some (DeltaPhiMax c)).

Definition default_constants : species_constants :=
  mkConstants 40 3.5 0.3 0.4 4 0.4 0.8 0.125 1 6 0.75 0.8 1.1 50 (Some 10).

End Carnivore.

(** ** geography_class.py *)

(** The four subclasses of [Geography]. *)
Inductive terrain : Set :=
| Lowland
| Highland
| Desert
| Water.

(** One cell.  [Water.__init__] sets the fodder and the four lists to
    [None]; only [Lowland] and [Highland] have an [f_max]. *)
Record Geography : Type := mkGeography {
  geography : terrain;
  movable : bool;
  f_max : option R;
  fodder : option R;
  herbivores : option (list Herbivore.t);
  carnivores : option (list Carnivore.t);
  migrated_herbivores : option (list Herbivore.t);
  migrated_carnivores : option (list Carnivore.t)
}.

Definition with_fodder (v : option R) (g : Geography) : Geography :=
  mkGeography (geography g) (movable g) (f_max g) v (herbivores g)
              (carnivores g) (migrated_herbivores g) (migrated_carnivores g).
Definition with_herbivores (v : option (list Herbivore.t)) (g : Geography)
  : Geography :=
  mkGeography (geography g) (movable g) (f_max g) (fodder g) v
              (carnivores g) (migrated_herbivores g) (migrated_carnivores g).
Definition with_carnivores (v : option (list Carnivore.t)) (g : Geography)
  : Geography :=
  mkGeography (geography g) (movable g) (f_max g) (fodder g) (herbivores g)
              v (migrated_herbivores g) (migrated_carnivores g).
Definition with_migrated_herbivores (v : option (list Herbivore.t))
           (g : Geography) : Geography :=
  mkGeography (geography g) (movable g) (f_max g) (fodder g) (herbivores g)
              (carnivores g) v (migrated_carnivores g).
Definition with_migrated_carnivores (v : option (list Carnivore.t))
           (g : Geography) : Geography :=
  mkGeography (geography g) (movable g) (f_max g) (fodder g) (herbivores g)
              (carnivores g) (migrated_herbivores g) v.

(** [Lowland()], [Highland()], [Desert()], [Water()] *)
Definition new_geography (k : terrain) : Geography :=
  match k with
  | Lowland =>
      mkGeography Lowland true (Some 800) (Some 0)
                  (Some []) (Some []) (Some []) (Some [])
  | Highland =>
      mkGeography Highland true (Some 500) (Some 0)
                  (Some []) (Some []) (Some []) (Some [])
  | Desert =>
      mkGeography Desert true None (Some 0)
                  (Some []) (Some []) (Some []) (Some [])
  | Water =>
      mkGeography Water false None None None None None None
  end.

Definition get_weight_lists (g : Geography) : result (list R * list R) :=
  hs <- attr TypeError (herbivores g) ;;
  cs <- attr TypeError (carnivores g) ;;
  Ok (map Herbivore.weight hs, map Carnivore.weight cs).

Definition get_fitness_lists (g : Geography) : result (list R * list R) :=
  hs <- attr TypeError (herbivores g) ;;
  cs <- attr TypeError (carnivores g) ;;
  Ok (map Herbivore.fitness hs, map Carnivore.fitness cs).

Definition get_age_lists (g : Geography) : result (list R * list R) :=
  hs <- attr TypeError (herbivores g) ;;
  cs <- attr TypeError (carnivores g) ;;
  Ok (map Herbivore.age hs, map Carnivore.age cs).

(** One description of an animal: [{'species': .., 'age': .., 'weight': ..}] *)
Record description : Type := mkDescription {
  d_species : string;
  d_age : R;
  d_weight : option R
}.

(** [insert_population].  The result is the cell and the environment as
    the call leaves them, and whether it returned or raised.  The bound
    method [self.herbivores.append] is looked up before the animal is
    constructed, so a [None] list raises before anything is drawn.  A
    description of any other species matches neither branch. *)
Fixpoint insert_population (animals : list description) (g : Geography)
         (env : Env) : Geography * Env * result unit :=
  match animals with
  | [] => (g, env, Ok tt)
  | _animal :: rest =>
      if String.eqb (d_species _animal) "Herbivore" then
        match herbivores g with
        | None => (g, env, Raise AttributeError)
        | Some hs =>
            let (h, env1) :=
              Herbivore.init (d_age _animal) (d_weight _animal) env in
            insert_population rest (with_herbivores (Some (hs ++ [h])) g) env1
        end
      else if String.eqb (d_species _animal) "Carnivore" then
        match carnivores g with
        | None => (g, env, Raise AttributeError)
        | Some cs =>
            let (c, env1) :=
              Carnivore.init (d_age _animal) (d_weight _animal) env in
            insert_population rest (with_carnivores (Some (cs ++ [c])) g) env1
        end
      else insert_population rest g env
  end.

(** [list.sort(key=fitness, reverse=True)]: descending and stable. *)
Fixpoint insert_by_fitness (x : Herbivore.t) (l : list Herbivore.t)
  : list Herbivore.t :=
  match l with
  | [] => [x]
  | y :: ys =>
      if Rltb (Herbivore.fitness x) (Herbivore.fitness y)
      then y :: insert_by_fitness x ys
      else x :: y :: ys
  end.

Definition sort_by_fitness (l : list Herbivore.t) : list Herbivore.t :=
  fold_right insert_by_fitness [] l.

Definition sort_herbivores_by_fitness (g : Geography) : result Geography :=
  hs <- attr AttributeError (herbivores g) ;;
  Ok (with_herbivores (Some (sort_by_fitness hs)) g).

Definition random_carnivore_order (g : Geography) (env : Env)
  : result (Geography * Env) :=
  cs <- attr TypeError (carnivores g) ;;
  let (cs', env') := random_shuffle cs env in
  Ok (with_carnivores (Some cs') g, env').

Definition fodder_eaten (fodder_need : R) (g : Geography) : result Geography :=
  f <- attr TypeError (fodder g) ;;
  if Rltb (f - fodder_need) 0 then Ok (with_fodder (Some 0) g)
  else Ok (with_fodder (Some (f - fodder_need)) g).

(** [list.remove(x)]: drops the first element identical to [x]. *)
Fixpoint list_remove {A : Type} (same : A -> bool) (l : list A)
  : result (list A) :=
  match l with
  | [] => Raise ValueError
  | y :: ys =>
      if same y then Ok ys
      else ys' <- list_remove same ys ;; Ok (y :: ys')
  end.

Definition same_herbivore (x y : Herbivore.t) : bool :=
  Nat.eqb (Herbivore.ident x) (Herbivore.ident y).
Definition same_carnivore (x y : Carnivore.t) : bool :=
  Nat.eqb (Carnivore.ident x) (Carnivore.ident y).

Fixpoint herbivores_eaten (dead_herbivores : list Herbivore.t)
         (g : Geography) : result Geography :=
  match dead_herbivores with
  | [] => Ok g
  | dead_herbivore :: rest =>
      hs <- attr AttributeError (herbivores g) ;;
      hs' <- list_remove (same_herbivore dead_herbivore) hs ;;
      herbivores_eaten rest (with_herbivores (Some hs') g)
  end.

(** The loops of [procreation].  The candidates are the residents of age
    other than zero, [N] is their number; [gives_birth] updates a candidate
    in place and the offspring are appended to the list in birth order.
    The first component is the resident list with the parents updated, the
    second the offspring. *)
Fixpoint herbivores_breed (N : nat) (residents : list Herbivore.t)
         (env : Env) : list Herbivore.t * list Herbivore.t * Env :=
  match residents with
  | [] => ([], [], env)
  | _herbivore :: rest =>
      if Reqb (Herbivore.age _herbivore) 0 then
        let '(rest', babies, env') := herbivores_breed N rest env in
        (_herbivore :: rest', babies, env')
      else
        let '(baby_herbivore, parent, env1) :=
          Herbivore.gives_birth N _herbivore env in
        let '(rest', babies, env') := herbivores_breed N rest env1 in
        (parent :: rest',
         match baby_herbivore with
         | Some b => b :: babies
         | None => babies
         end,
         env')
  end.

Fixpoint carnivores_breed (N : nat) (residents : list Carnivore.t)
         (env : Env) : list Carnivore.t * list Carnivore.t * Env :=
  match residents with
  | [] => ([], [], env)
  | _carnivore :: rest =>
      if Reqb (Carnivore.age _carnivore) 0 then
        let '(rest', babies, env') := carnivores_breed N rest env in
        (_carnivore :: rest', babies, env')
      else
        let '(baby_carnivore, parent, env1) :=
          Carnivore.gives_birth N _carnivore env in
        let '(rest', babies, env') := carnivores_breed N rest env1 in
        (parent :: rest',
         match baby_carnivore with
         | Some b => b :: babies
         | None => babies
         end,
         env')
  end.

Definition procreation (g : Geography) (env : Env)
  : result (Geography * Env) :=
  hs <- attr TypeError (herbivores g) ;;
  let N_h :=
    List.length (filter (fun h => negb (Reqb (Herbivore.age h) 0)) hs) in
  let '(hs', baby_herbivores, env1) := herbivores_breed N_h hs env in
  let g1 := with_herbivores (Some (hs' ++ baby_herbivores)) g in
  cs <- attr TypeError (carnivores g1) ;;
  let N_c :=
    List.length (filter (fun c => negb (Reqb (Carnivore.age c) 0)) cs) in
  let '(cs', baby_carnivores, env2) := carnivores_breed N_c cs env1 in
  Ok (with_carnivores (Some (cs' ++ baby_carnivores)) g1, env2).

(** The island: the dict from coordinates to cells, in insertion order. *)
Definition coordinate : Set := (Z * Z)%type.
Definition Island : Type := list (coordinate * Geography).

Definition coordinate_eqb (a b : coordinate) : bool :=
  Z.eqb (fst a) (fst b) && Z.eqb (snd a) (snd b).

(** [island[c]] *)
Fixpoint island_get (island : Island) (c : coordinate) : result Geography :=
  match island with
  | [] => Raise KeyError
  | (k, g) :: rest =>
      if coordinate_eqb k c then Ok g else island_get rest c
  end.

(** The cell at [c] after a method mutated it. *)
Fixpoint island_set (island : Island) (c : coordinate) (g : Geography)
  : Island :=
  match island with
  | [] => []
  | (k, g0) :: rest =>
      if coordinate_eqb k c then (k, g) :: rest
      else (k, g0) :: island_set rest c g
  end.

(** An element of [self.herbivores.copy() + self.carnivores.copy()]. *)
Inductive animal : Type :=
| AHerbivore (h : Herbivore.t)
| ACarnivore (c : Carnivore.t).

Definition animal_base (a : animal) : Animal.t :=
  match a with
  | AHerbivore h => Herbivore.base h
  | ACarnivore c => Carnivore.base c
  end.

(** One iteration of the loop of [animal_migration] for the cell at
    [current_coordinate].  An object of one species is never identical to
    an element of the other species' list. *)
Definition migrate_one (current_coordinate : coordinate) (_animal : animal)
           (island : Island) (env : Env) : result (Island * Env) :=
  let '(x, y) := current_coordinate in
  let (new_coordinate, env1) :=
    random_choice (x + 1, y)%Z
                  [(x + 1, y); (x - 1, y); (x, y + 1); (x, y - 1)]%Z env in
  target <- island_get island new_coordinate ;;
  if movable target then
    let (r, env2) := random_random env1 in
    if Rgtb (Animal.migration_prob (animal_base _animal)) r then
      self <- island_get island current_coordinate ;;
      match _animal with
      | AHerbivore h =>
          hs <- attr TypeError (herbivores self) ;;
          if existsb (same_herbivore h) hs then
            ms <- attr AttributeError (migrated_herbivores target) ;;
            let island1 :=
              island_set island new_coordinate
                         (with_migrated_herbivores (Some (ms ++ [h])) target) in
            hs' <- list_remove (same_herbivore h) hs ;;
            Ok (island_set island1 current_coordinate
                           (with_herbivores (Some hs') self), env2)
          else
            _ <- attr TypeError (carnivores self) ;; Ok (island, env2)
      | ACarnivore c =>
          _ <- attr TypeError (herbivores self) ;;
          cs <- attr TypeError (carnivores self) ;;
          if existsb (same_carnivore c) cs then
            ms <- attr AttributeError (migrated_carnivores target) ;;
            let island1 :=
              island_set island new_coordinate
                         (with_migrated_carnivores (Some (ms ++ [c])) target) in
            cs' <- list_remove (same_carnivore c) cs ;;
            Ok (island_set island1 current_coordinate
                           (with_carnivores (Some cs') self), env2)
          else Ok (island, env2)
      end
    else Ok (island, env2)
  else Ok (island, env1).

Fixpoint migrate_all (current_coordinate : coordinate)
         (_animals : list animal) (island : Island) (env : Env)
  : result (Island * Env) :=
  match _animals with
  | [] => Ok (island, env)
  | _animal :: rest =>
      '(island1, env1) <- migrate_one current_coordinate _animal island env ;;
      migrate_all current_coordinate rest island1 env1
  end.

(** [self.animal_migration(island, current_coordinate)], with [self] the
    cell the island holds at [current_coordinate]. *)
Definition animal_migration (island : Island)
           (current_coordinate : coordinate) (env : Env)
  : result (Island * Env) :=
  self <- island_get island current_coordinate ;;
  hs <- attr AttributeError (herbivores self) ;;
  cs <- attr AttributeError (carnivores self) ;;
  migrate_all current_coordinate
              (map AHerbivore hs ++ map ACarnivore cs) island env.

Definition migration_finished (g : Geography) : result Geography :=
  hs <- attr AttributeError (herbivores g) ;;
  mhs <- attr TypeError (migrated_herbivores g) ;;
  let g1 := with_migrated_herbivores (Some [])
              (with_herbivores (Some (hs ++ mhs)) g) in
  cs <- attr AttributeError (carnivores g1) ;;
  mcs <- attr TypeError (migrated_carnivores g1) ;;
  Ok (with_migrated_carnivores (Some [])
        (with_carnivores (Some (cs ++ mcs)) g1)).

Definition age_herbivore (h : Herbivore.t) : Herbivore.t :=
  Herbivore.with_base (Animal.update_age (Herbivore.base h)) h.
Definition age_carnivore (c : Carnivore.t) : Carnivore.t :=
  Carnivore.with_base (Animal.update_age (Carnivore.base c)) c.

Definition animal_aging (g : Geography) : result Geography :=
  hs <- attr TypeError (herbivores g) ;;
  cs <- attr TypeError (carnivores g) ;;
  Ok (with_carnivores (Some (map age_carnivore cs))
        (with_herbivores (Some (map age_herbivore hs)) g)).

(** [[_animal for _animal in chain(..) if _animal.dies()]] *)
Fixpoint dead_among (_animals : list animal) (env : Env)
  : list animal * Env :=
  match _animals with
  | [] => ([], env)
  | _animal :: rest =>
      let (d, env1) := Animal.dies (animal_base _animal) env in
      let (dead, env2) := dead_among rest env1 in
      (if d then _animal :: dead else dead, env2)
  end.

Fixpoint bury (dead_animals : list animal) (g : Geography)
  : result Geography :=
  match dead_animals with
  | [] => Ok g
  | _dead_animal :: rest =>
      hs <- attr TypeError (herbivores g) ;;
      match _dead_animal with
      | AHerbivore h =>
          if existsb (same_herbivore h) hs then
            hs' <- list_remove (same_herbivore h) hs ;;
            bury rest (with_herbivores (Some hs') g)
          else
            _ <- attr TypeError (carnivores g) ;; bury rest g
      | ACarnivore c =>
          cs <- attr TypeError (carnivores g) ;;
          if existsb (same_carnivore c) cs then
            cs' <- list_remove (same_carnivore c) cs ;;
            bury rest (with_carnivores (Some cs') g)
          else bury rest g
      end
  end.

Definition animal_death (g : Geography) (env : Env)
  : result (Geography * Env) :=
  hs <- attr TypeError (herbivores g) ;;
  cs <- attr TypeError (carnivores g) ;;
  let (dead_animals, env') :=
    dead_among (map AHerbivore hs ++ map ACarnivore cs) env in
  g' <- bury dead_animals g ;;
  Ok (g', env').

(** [grow_fodder] is defined by [Lowland], [Highland] and [Desert]. *)
Definition grow_fodder (g : Geography) : result Geography :=
  match geography g with
  | Lowland | Highland =>
      v <- attr AttributeError (f_max g) ;; Ok (with_fodder (Some v) g)
  | Desert => Ok g
  | Water => Raise AttributeError
  end.

(** ** simulation.py *)

(** The model keeps the ecosystem state of [BioSim]; graphics, the movie
    and the log file are outside it. *)
Record BioSim : Type := mkBioSim {
  island : Island;
  current_year : nat
}.

(** The yearly data handed to the visualisation. *)
Record YearStats : Type := mkStats {
  herb_pop : list nat;
  carn_pop : list nat;
  herb_weights : list R;
  carn_weights : list R;
  herb_fitness : list R;
  carn_fitness : list R;
  herb_age : list R;
  carn_age : list R
}.

Definition no_stats : YearStats := mkStats [] [] [] [] [] [] [] [].

(** The [try] block that appends the two population counts; [len(None)]
    raises the [TypeError] the handler catches. *)
Definition count_population (g : Geography) (s : YearStats) : YearStats :=
  match herbivores g, carnivores g with
  | Some hs, Some cs =>
      mkStats (herb_pop s ++ [List.length hs]) (carn_pop s ++ [List.length cs])
              (herb_weights s) (carn_weights s) (herb_fitness s)
              (carn_fitness s) (herb_age s) (carn_age s)
  | Some hs, None =>
      mkStats (herb_pop s ++ [List.length hs; O]) (carn_pop s ++ [O])
              (herb_weights s) (carn_weights s) (herb_fitness s)
              (carn_fitness s) (herb_age s) (carn_age s)
  | None, _ =>
      mkStats (herb_pop s ++ [O]) (carn_pop s ++ [O])
              (herb_weights s) (carn_weights s) (herb_fitness s)
              (carn_fitness s) (herb_age s) (carn_age s)
  end.

(** The six [extend] calls on the weight, fitness and age lists. *)
Definition collect_samples (g : Geography) (s : YearStats)
  : result YearStats :=
  '(herb_w, carn_w) <- get_weight_lists g ;;
  '(herb_f, carn_f) <- get_fitness_lists g ;;
  '(herb_a, carn_a) <- get_age_lists g ;;
  Ok (mkStats (herb_pop s) (carn_pop s)
              (herb_weights s ++ herb_w) (carn_weights s ++ carn_w)
              (herb_fitness s ++ herb_f) (carn_fitness s ++ carn_f)
              (herb_age s ++ herb_a) (carn_age s ++ carn_a)).

(** [for herbivore in geography.herbivores: ...]: every herbivore feeds
    from the fodder the cell holds at its turn. *)
Fixpoint herbivores_feed (todo : list Herbivore.t) (g : Geography)
  : result (list Herbivore.t * Geography) :=
  match todo with
  | [] => Ok ([], g)
  | herbivore :: rest =>
      available <- attr TypeError (fodder g) ;;
      let (eaten_fodder, herbivore') := Herbivore.feed available herbivore in
      g1 <- fodder_eaten eaten_fodder g ;;
      '(rest', g2) <- herbivores_feed rest g1 ;;
      Ok (herbivore' :: rest', g2)
  end.

(** One call [carnivore.hunt(geography.herbivores)] as the loop made it:
    the list that was hunted and the list that was returned. *)
Record hunt_call : Type := mkHunt {
  hunted : list Herbivore.t;
  killed : list Herbivore.t
}.

(** [for carnivore in geography.carnivores: ...].  The last component is
    not data of the program: it records the calls to [hunt] in order. *)
Fixpoint carnivores_hunt (todo : list Carnivore.t) (g : Geography)
         (env : Env)
  : result (list Carnivore.t * Geography * Env * list hunt_call) :=
  match todo with
  | [] => Ok ([], g, env, [])
  | carnivore :: rest =>
      hs <- attr TypeError (herbivores g) ;;
      let '(eaten_herbivores_list, carnivore', env1) :=
        Carnivore.hunt hs carnivore env in
      g1 <- herbivores_eaten eaten_herbivores_list g ;;
      '(rest', g2, env2, calls) <- carnivores_hunt rest g1 env1 ;;
      Ok (carnivore' :: rest', g2, env2,
          mkHunt hs eaten_herbivores_list :: calls)
  end.

(** Regrowth and feeding of one cell (stage 1 of the year). *)
Definition feeding (g : Geography) (env : Env)
  : result (Geography * Env * list hunt_call) :=
  g1 <- grow_fodder g ;;
  g2 <- sort_herbivores_by_fitness g1 ;;
  hs <- attr TypeError (herbivores g2) ;;
  '(hs', g3) <- herbivores_feed hs g2 ;;
  let g4 := with_herbivores (Some hs') g3 in
  '(g5, env1) <- random_carnivore_order g4 env ;;
  cs <- attr TypeError (carnivores g5) ;;
  '(cs', g6, env2, calls) <- carnivores_hunt cs g5 env1 ;;
  Ok (with_carnivores (Some cs') g6, env2, calls).

(** The body of the first loop over [self.island.items()]. *)
Definition first_pass_cell (c : coordinate) (island0 : Island) (env : Env)
           (s : YearStats) : result (Island * Env * YearStats) :=
  g <- island_get island0 c ;;
  let s1 := count_population g s in
  if movable g then
    s2 <- collect_samples g s1 ;;
    '(g1, env1, _) <- feeding g env ;;
    '(g2, env2) <- procreation g1 env1 ;;
    '(island1, env3) <- animal_migration (island_set island0 c g2) c env2 ;;
    Ok (island1, env3, s2)
  else Ok (island0, env, s1).

Fixpoint first_pass (keys : list coordinate) (island0 : Island) (env : Env)
         (s : YearStats) : result (Island * Env * YearStats) :=
  match keys with
  | [] => Ok (island0, env, s)
  | c :: rest =>
      '(island1, env1, s1) <- first_pass_cell c island0 env s ;;
      first_pass rest island1 env1 s1
  end.

(** The body of the second loop: merge, aging, death. *)
Definition second_pass_cell (c : coordinate) (island0 : Island) (env : Env)
  : result (Island * Env) :=
  g <- island_get island0 c ;;
  if movable g then
    g1 <- migration_finished g ;;
    g2 <- animal_aging g1 ;;
    '(g3, env1) <- animal_death g2 env ;;
    Ok (island_set island0 c g3, env1)
  else Ok (island0, env).

Fixpoint second_pass (keys : list coordinate) (island0 : Island) (env : Env)
  : result (Island * Env) :=
  match keys with
  | [] => Ok (island0, env)
  | c :: rest =>
      '(island1, env1) <- second_pass_cell c island0 env ;;
      second_pass rest island1 env1
  end.

(** One iteration of [for year in range(num_years)]. *)
Definition simulate_year (sim : BioSim) (env : Env)
  : result (BioSim * Env * YearStats) :=
  let keys := map fst (island sim) in
  '(island1, env1, s) <- first_pass keys (island sim) env no_stats ;;
  '(island2, env2) <- second_pass keys island1 env1 ;;
  Ok (mkBioSim island2 (S (current_year sim)), env2, s).

(** [simulate(num_years)]; the result lists the data of every year. *)
Fixpoint simulate (num_years : nat) (sim : BioSim) (env : Env)
  : result (BioSim * Env * list YearStats) :=
  match num_years with
  | O => Ok (sim, env, [])
  | S n =>
      '(sim1, env1, s) <- simulate_year sim env ;;
      '(sim2, env2, ss) <- simulate n sim1 env1 ;;
      Ok (sim2, env2, s :: ss)
  end.

(** [set_animal_parameters(species, params)] *)
Fixpoint set_animal_parameters_cells (species : string)
         (params : list (string * R)) (cells : Island) : result Island :=
  match cells with
  | [] => Ok []
  | (coord, g) :: rest =>
      g' <-
        (if movable g && String.eqb species "Herbivore" then
           hs <- attr TypeError (herbivores g) ;;
           Ok (with_herbivores
                 (Some (map (Herbivore.set_animal_params params) hs)) g)
         else if movable g && String.eqb species "Carnivore" then
           cs <- attr TypeError (carnivores g) ;;
           Ok (with_carnivores
                 (Some (map (Carnivore.set_animal_params params) cs)) g)
         else Ok g) ;;
      rest' <- set_animal_parameters_cells species params rest ;;
      Ok ((coord, g') :: rest')
  end.

Definition set_animal_parameters (species : string)
           (params : list (string * R)) (sim : BioSim) : result BioSim :=
  island' <- set_animal_parameters_cells species params (island sim) ;;
  Ok (mkBioSim island' (current_year sim)).

(** [add_population(population)]: a list of [{'loc': .., 'pop': ..}]. *)
Fixpoint add_population (population : list (coordinate * list description))
         (island0 : Island) (env : Env) : Island * Env * result unit :=
  match population with
  | [] => (island0, env, Ok tt)
  | (loc, pop) :: rest =>
      match island_get island0 loc with
      | Raise e => (island0, env, Raise e)
      | Ok g =>
          let '(g', env1, r) := insert_population pop g env in
          match r with
          | Raise e => (island_set island0 loc g', env1, Raise e)
          | Ok _ => add_population rest (island_set island0 loc g') env1
          end
      end
  end.

(** ** Measures and example inputs used by the statements below *)


Definition residents_of {A : Type} (o : option (list A)) : list A :=
  match o with
  | Some l => l
  | None => []
  end.





(** A generator whose uniform draws are all 0, whose normal deviates are
    all [z] and whose integers are all [i]. *)
Definition constant_env (z : R) (i : nat) : Env :=
  mkEnv (fun _ => 0) (fun _ => z) (fun _ => i) 0 0 0 0.

(** [Herbivore(age, weight)] and [Carnivore(age, weight)] with a given
    identity. *)
Definition herbivore_at (i : nat) (age0 weight0 : R) : Herbivore.t :=
  fst (Herbivore.init age0 (Some weight0)
         (mkEnv (fun _ => 0) (fun _ => 0) (fun _ => O) 0 0 0 i)).
Definition carnivore_at (i : nat) (age0 weight0 : R) : Carnivore.t :=
  fst (Carnivore.init age0 (Some weight0)
         (mkEnv (fun _ => 0) (fun _ => 0) (fun _ => O) 0 0 0 i)).

(** The intake a list of killed prey amounts to for a predator of maximal
    intake [F]: prey by prey, the smaller of the remaining capacity and the
    prey's weight. *)
Definition consumed_from (F : R) (eaten_amount : R)
           (dead_herbivores : list Herbivore.t) : R :=
  fold_left (fun eaten h => eaten + Rmin (F - eaten) (Herbivore.weight h))
            dead_herbivores eaten_amount.


(** The identities of a list of herbivores. *)
Definition herbivore_ids (l : list Herbivore.t) : list nat :=
  map Herbivore.ident l.

(** A desert cell with one herbivore (age 40, weight 10) and two
    carnivores (age 40, weight 20). *)
Definition example_prey : Herbivore.t := herbivore_at 2 40 10.
Definition example_cell : Geography :=
  with_carnivores (Some [carnivore_at 0 40 20; carnivore_at 1 40 20])
    (with_herbivores (Some [example_prey]) (new_geography Desert)).

(** Head counts: residents and animals in transit, of a cell and of the
    whole island.  A [None] list holds no animal. *)
Definition resident_count (g : Geography) : nat :=
  List.length (residents_of (herbivores g))
  + List.length (residents_of (carnivores g)).

Definition transit_count (g : Geography) : nat :=
  List.length (residents_of (migrated_herbivores g))
  + List.length (residents_of (migrated_carnivores g)).

Definition total_residents (cells : Island) : nat :=
  list_sum (map (fun cg => resident_count (snd cg)) cells).

Definition total_transit (cells : Island) : nat :=
  list_sum (map (fun cg => transit_count (snd cg)) cells).

(** The cell [g'] is the cell [g] as its merge leaves it: the second loop
    of [simulate] calls [migration_finished] on the passable cells only. *)
Definition merge_leaves (g g' : Geography) : Prop :=
  if movable g then migration_finished g = Ok g' else g' = g.

(** The four neighbours [animal_migration] chooses from. *)
Definition neighbours (c : coordinate) : list coordinate :=
  let '(x, y) := c in
  [(x + 1, y); (x - 1, y); (x, y + 1); (x, y - 1)]%Z.

Definition total_population (cells : Island) : nat :=
  list_sum (map (fun cg => resident_count (snd cg) + transit_count (snd cg))%nat
                cells).

(** The cell [g'] is what aging and death make of the merged cell [g1]
    (the rest of the body of the second loop). *)
Definition aging_and_death_leave (g1 g' : Geography) : Prop :=
  if movable g1 then
    exists g2 env1 env2,
      animal_aging g1 = Ok g2 /\ animal_death g2 env1 = Ok (g', env2)
  else g' = g1.

(** What one iteration of the migration loop does to the island: nothing,
    or it moves the animal from the resident list of its cell to the
    transit list of a passable neighbour. *)
Inductive migration_step (c : coordinate) (cells : Island)
  : animal -> Island -> Prop :=
| stays (a : animal) : migration_step c cells a cells
| herbivore_moves (h : Herbivore.t) (n : coordinate) (target self : Geography)
                  (hs hs' ms : list Herbivore.t) :
    In n (neighbours c) ->
    island_get cells n = Ok target -> movable target = true ->
    island_get cells c = Ok self ->
    herbivores self = Some hs -> migrated_herbivores target = Some ms ->
    list_remove (same_herbivore h) hs = Ok hs' ->
    migration_step c cells (AHerbivore h)
      (island_set
         (island_set cells n
                     (with_migrated_herbivores (Some (ms ++ [h])) target))
         c (with_herbivores (Some hs') self))
| carnivore_moves (k : Carnivore.t) (n : coordinate) (target self : Geography)
                  (cs cs' ms : list Carnivore.t) :
    In n (neighbours c) ->
    island_get cells n = Ok target -> movable target = true ->
    island_get cells c = Ok self ->
    carnivores self = Some cs -> migrated_carnivores target = Some ms ->
    list_remove (same_carnivore k) cs = Ok cs' ->
    migration_step c cells (ACarnivore k)
      (island_set
         (island_set cells n
                     (with_migrated_carnivores (Some (ms ++ [k])) target))
         c (with_carnivores (Some cs') self)).

(** Two states of a cell that differ at most in the resident lists. *)
Definition same_outside_residents (g g' : Geography) : Prop :=
  geography g' = geography g /\ movable g' = movable g
  /\ f_max g' = f_max g /\ fodder g' = fodder g
  /\ migrated_herbivores g' = migrated_herbivores g
  /\ migrated_carnivores g' = migrated_carnivores g.

(** The cell [g'] is the cell [g] with some residents removed. *)
Definition residents_removed (g g' : Geography) : Prop :=
  same_outside_residents g g'
  /\ incl (residents_of (herbivores g')) (residents_of (herbivores g))
  /\ incl (residents_of (carnivores g')) (residents_of (carnivores g))
  /\ (resident_count g' <= resident_count g)%nat
  /\ (herbivores g <> None -> herbivores g' <> None)
  /\ (carnivores g <> None -> carnivores g' <> None).

(** What the body of the second loop makes of one cell. *)
Definition second_pass_leaves (g g' : Geography) : Prop :=
  exists g1, merge_leaves g g1 /\ aging_and_death_leave g1 g'.

(** A passable cell as [Lowland()], [Highland()] and [Desert()] build it
    and as the methods keep it: every list is a list. *)
Definition land_cell (k : terrain) (fm : option R) (f : R)
           (hs : list Herbivore.t) (cs : list Carnivore.t)
           (mhs : list Herbivore.t) (mcs : list Carnivore.t) : Geography :=
  mkGeography k true fm (Some f) (Some hs) (Some cs) (Some mhs) (Some mcs).

Definition is_land (g : Geography) : Prop :=
  exists k fm f hs cs mhs mcs,
    g = land_cell k fm f hs cs mhs mcs
    /\ k <> Water /\ (k = Desert \/ fm <> None).

(** An impassable cell as [Water()] builds it: its four lists are [None]. *)
Definition is_water (g : Geography) : Prop :=
  herbivores g = None /\ carnivores g = None
  /\ migrated_herbivores g = None /\ migrated_carnivores g = None.

(** A cell of an island whose coordinates are [keys], as [create_island]
    builds it and [simulate] keeps it: a passable cell is land and its
    four neighbours are on the map, an impassable cell is water. *)
Definition well_formed_cell (keys : list coordinate)
           (cg : coordinate * Geography) : Prop :=
  if movable (snd cg)
  then is_land (snd cg) /\ incl (neighbours (fst cg)) keys
  else is_water (snd cg).

Definition well_formed (cells : Island) : Prop :=
  Forall (well_formed_cell (map fst cells)) cells.

(** Animals and cells without negative quantities: weight, feeding
    efficiency and maximal intake are not negative and aging takes at most
    the whole weight; fodder and its maximum are not negative. *)
Definition healthy (weight beta F eta : R) : Prop :=
  0 <= weight /\ 0 <= beta /\ 0 <= F /\ eta <= 1.

Definition healthy_herbivore (h : Herbivore.t) : Prop :=
  healthy (Herbivore.weight h) (Herbivore.beta h) (Herbivore.F h)
          (Animal.eta (Herbivore.base h)).

Definition healthy_carnivore (c : Carnivore.t) : Prop :=
  healthy (Carnivore.weight c) (Carnivore.beta c) (Carnivore.F c)
          (Animal.eta (Carnivore.base c)).

Definition healthy_cell (g : Geography) : Prop :=
  Forall healthy_herbivore (residents_of (herbivores g))
  /\ Forall healthy_carnivore (residents_of (carnivores g))
  /\ Forall healthy_herbivore (residents_of (migrated_herbivores g))
  /\ Forall healthy_carnivore (residents_of (migrated_carnivores g))
  /\ (forall f, fodder g = Some f -> 0 <= f)
  /\ (forall v, f_max g = Some v -> 0 <= v).

Definition healthy_island (cells : Island) : Prop :=
  Forall (fun cg => healthy_cell (snd cg)) cells.

(** Every animal of the island, resident or in transit, has a weight that
    is not negative. *)
Definition weights_nonnegative (cells : Island) : Prop :=
  Forall (fun cg =>
            Forall (fun h => 0 <= Herbivore.weight h)
                   (residents_of (herbivores (snd cg))
                    ++ residents_of (migrated_herbivores (snd cg)))
            /\ Forall (fun c => 0 <= Carnivore.weight c)
                      (residents_of (carnivores (snd cg))
                       ++ residents_of (migrated_carnivores (snd cg))))
         cells.

(** The generator never draws a negative birth weight. *)
Definition births_nonnegative (env : Env) : Prop :=
  forall k, 0 <= 8 + normal_draws env k * 1.5
            /\ 0 <= 6 + normal_draws env k * 1.

(** Two states of the generator over the same stream of normal deviates. *)
Definition same_normal_stream (env env' : Env) : Prop :=
  normal_draws env' = normal_draws env.

(** [l1] is [l2] with some elements left out. *)
Inductive subseq {A : Type} : list A -> list A -> Prop :=
| subseq_nil : subseq [] []
| subseq_take (x : A) (l1 l2 : list A) :
    subseq l1 l2 -> subseq (x :: l1) (x :: l2)
| subseq_skip (x : A) (l1 l2 : list A) :
    subseq l1 l2 -> subseq l1 (x :: l2).

(** The statistics of an island as it stands: per cell the two resident
    counts, and the weights, fitness and ages of all residents. *)
Definition census (cells : Island) : YearStats :=
  let hs := fun cg : coordinate * Geography =>
              residents_of (herbivores (snd cg)) in
  let cs := fun cg : coordinate * Geography =>
              residents_of (carnivores (snd cg)) in
  mkStats (map (fun cg => List.length (hs cg)) cells)
          (map (fun cg => List.length (cs cg)) cells)
          (flat_map (fun cg => map Herbivore.weight (hs cg)) cells)
          (flat_map (fun cg => map Carnivore.weight (cs cg)) cells)
          (flat_map (fun cg => map Herbivore.fitness (hs cg)) cells)
          (flat_map (fun cg => map Carnivore.fitness (cs cg)) cells)
          (flat_map (fun cg => map Herbivore.age (hs cg)) cells)
          (flat_map (fun cg => map Carnivore.age (cs cg)) cells).

(** Concatenation of two records of statistics. *)
Definition stats_app (s1 s2 : YearStats) : YearStats :=
  mkStats (herb_pop s1 ++ herb_pop s2) (carn_pop s1 ++ carn_pop s2)
          (herb_weights s1 ++ herb_weights s2)
          (carn_weights s1 ++ carn_weights s2)
          (herb_fitness s1 ++ herb_fitness s2)
          (carn_fitness s1 ++ carn_fitness s2)
          (herb_age s1 ++ herb_age s2) (carn_age s1 ++ carn_age s2).

(** Two cells with the same residents and the same passability. *)
Definition same_residents (g g' : Geography) : Prop :=
  herbivores g' = herbivores g /\ carnivores g' = carnivores g
  /\ movable g' = movable g.

Definition healthy_animal (a : animal) : Prop :=
  match a with
  | AHerbivore h => healthy_herbivore h
  | ACarnivore c => healthy_carnivore c
  end.

(** What the migration out of the cell at [c] may change on the island:
    the coordinates stay, a well-formed island stays well formed, the cells
    elsewhere keep their residents and the cell at [c] stays passable. *)
Definition migration_outcome (c : coordinate) (cells cells' : Island) : Prop :=
  map fst cells' = map fst cells
  /\ (well_formed cells -> well_formed cells')
  /\ (forall c' g, c' <> c -> island_get cells c' = Ok g ->
                   exists g', island_get cells' c' = Ok g'
                              /\ same_residents g g')
  /\ (forall self, island_get cells c = Ok self -> movable self = true ->
                   exists self', island_get cells' c = Ok self'
                                 /\ movable self' = true).

(** The phases of a year on one passable cell: regrowth and feeding,
    reproduction, merge of the migrants, aging, death. *)
Inductive cell_phase : Geography -> Geography -> Prop :=
| phase_feeding (g g' : Geography) (env env' : Env) (calls : list hunt_call) :
    is_land g -> feeding g env = Ok (g', env', calls) -> cell_phase g g'
| phase_procreation (g g' : Geography) (env env' : Env) :
    is_land g -> births_nonnegative env ->
    procreation g env = Ok (g', env') -> cell_phase g g'
| phase_merge (g g' : Geography) :
    is_land g -> migration_finished g = Ok g' -> cell_phase g g'
| phase_aging (g g' : Geography) :
    is_land g -> animal_aging g = Ok g' -> cell_phase g g'
| phase_death (g g' : Geography) (env env' : Env) :
    is_land g -> animal_death g env = Ok (g', env') -> cell_phase g g'.

(** A lowland cell with two herbivores of age 5 and weight 50. *)
Definition example_breeding_cell : Geography :=
  with_herbivores (Some [herbivore_at 0 5 50; herbivore_at 1 5 50])
                  (new_geography Lowland).

(** The island "WWW / WDW / WWW" with [example_cell] as its desert. *)
Definition example_island : Island :=
  [((1, 1), new_geography Water); ((1, 2), new_geography Water);
   ((1, 3), new_geography Water);
   ((2, 1), new_geography Water); ((2, 2), example_cell);
   ((2, 3), new_geography Water);
   ((3, 1), new_geography Water); ((3, 2), new_geography Water);
   ((3, 3), new_geography Water)]%Z.

Definition example_sim : BioSim := mkBioSim example_island 0.

(** The example prey after it fed on the empty fodder of the desert. *)
Definition example_fed_prey : Herbivore.t :=
  snd (Herbivore.feed 0 example_prey).

(** The example cell with a herbivore that moved in during the year, and
    the example island with that cell as its desert. *)
Definition example_transit_cell : Geography :=
  with_migrated_herbivores (Some [herbivore_at 3 5 20]) example_cell.

Definition example_transit_island : Island :=
  island_set example_island (2, 2)%Z example_transit_cell.

(** A generator whose uniform draws are all 0.99, whose normal deviates
    and integers are all 0: no event of a probability below 0.99 happens. *)
Definition quiet_env : Env :=
  mkEnv (fun _ => 0.99) (fun _ => 0) (fun _ => O) 0 0 0 0.

(** The island "WWW / WDW / WWW" whose desert holds the example prey
    alone. *)
Definition lone_cell : Geography :=
  with_herbivores (Some [example_prey]) (new_geography Desert).

Definition lone_island : Island :=
  island_set example_island (2, 2)%Z lone_cell.

Definition lone_sim : BioSim := mkBioSim lone_island 0.


(** Reduction of the accessors and updates of a cell, and of [bind]. *)
Ltac cell_simpl :=
  unfold land_cell, with_fodder, with_herbivores, with_carnivores,
    with_migrated_herbivores, with_migrated_carnivores;
  cbn [geography movable f_max fodder herbivores carnivores
       migrated_herbivores migrated_carnivores attr bind].

Tactic Notation "cell_simpl" "in" hyp(H) :=
  unfold land_cell, with_fodder, with_herbivores, with_carnivores,
    with_migrated_herbivores, with_migrated_carnivores in H;
  cbn [geography movable f_max fodder herbivores carnivores
       migrated_herbivores migrated_carnivores attr bind] in H.


(** ** utils/functions.py *)

(** A Python [str] is modelled by a [string] with one character per code
    point, for code points below 256. *)
Module functions.

(** What [create_island] can raise: the [IndexError] of [lines[0]] on a
    map without a line, its three [ValueError]s (told apart by their
    messages), and the [KeyError] of a dict lookup. *)
Inductive message : Set :=
| inconsistent_line_length
| unknown_geography_type
| border_must_be_only_water.

Inductive exn : Set :=
| IndexError
| ValueError (m : message)
| KeyError.

Inductive outcome (A : Type) : Type :=
| Returns (a : A)
| Raises (e : exn).

Arguments Returns {A} a.
Arguments Raises {A} e.

(** [str.isspace] on a code point below 256: tab to carriage return, the
    four separators 28 to 31, the space, NEL and the no-break space. *)
Definition isspace (c : ascii) : bool :=
  let n := nat_of_ascii c in
  (Nat.leb 9 n && Nat.leb n 13) || (Nat.leb 28 n && Nat.leb n 32)
  || Nat.eqb n 133 || Nat.eqb n 160.

(** [str.split()] without arguments: the maximal runs of characters that
    are not whitespace.  [word] is the run being read. *)
Fixpoint split_words (word : list ascii) (s : list ascii)
  : list (list ascii) :=
  match s with
  | [] => match word with
          | [] => []
          | _ :: _ => [word]
          end
  | c :: rest =>
      if isspace c then
        match word with
        | [] => split_words [] rest
        | _ :: _ => word :: split_words [] rest
        end
      else split_words (word ++ [c]) rest
  end.

Definition split (s : string) : list (list ascii) :=
  split_words [] (list_ascii_of_string s).

(** [letter in letters] *)
Definition letter_in (letter : ascii) (letters : list ascii) : bool :=
  existsb (Ascii.eqb letter) letters.

Definition valid_letters : list ascii := ["L"; "H"; "D"; "W"]%char.
Definition invalid_border : list ascii := ["L"; "H"; "D"]%char.

(** The dict [geography_types] (four new cells at every letter) and the
    lookup [geography_types[letter]]. *)
Definition geography_types : list (ascii * Geography) :=
  [("L"%char, new_geography Lowland); ("H"%char, new_geography Highland);
   ("D"%char, new_geography Desert); ("W"%char, new_geography Water)].

Fixpoint getitem (d : list (ascii * Geography)) (letter : ascii)
  : outcome Geography :=
  match d with
  | [] => Raises KeyError
  | (k, g) :: rest => if Ascii.eqb k letter then Returns g
                      else getitem rest letter
  end.

(** [island[c] = g] on a dict: the value of a key that is present is
    replaced in place, a new key is appended. *)
Definition setitem (island : Island) (c : coordinate) (g : Geography)
  : Island :=
  if existsb (fun kg => coordinate_eqb (fst kg) c) island
  then island_set island c g
  else island ++ [(c, g)].

(** The inner loop [for y, letter in enumerate(line)] on the line number
    [x]; [y] is the index [enumerate] gives to the first letter of
    [letters]. *)
Fixpoint create_line (n_lines : nat) (x : Z) (len_line : nat) (y : Z)
         (letters : list ascii) (island : Island) : outcome Island :=
  match letters with
  | [] => Returns island
  | letter :: rest =>
      let y := (y + 1)%Z in
      if negb (letter_in letter valid_letters) then
        Raises (ValueError unknown_geography_type)
      else if (Z.eqb x 1 && letter_in letter invalid_border)
              || (Z.eqb y 1 && letter_in letter invalid_border) then
        Raises (ValueError border_must_be_only_water)
      else if (Z.eqb x (Z.of_nat n_lines) && letter_in letter invalid_border)
              || (Z.eqb y (Z.of_nat len_line)
                  && letter_in letter invalid_border) then
        Raises (ValueError border_must_be_only_water)
      else
        match getitem geography_types letter with
        | Raises e => Raises e
        | Returns g =>
            create_line n_lines x len_line y rest (setitem island (x, y) g)
        end
  end.

(** The outer loop [for x, line in enumerate(lines)]; [x] is the index of
    the first line of [lines]. *)
Fixpoint create_lines (n_lines : nat) (exp_line_length : nat) (x : Z)
         (lines : list (list ascii)) (island : Island) : outcome Island :=
  match lines with
  | [] => Returns island
  | line :: rest =>
      if negb (Nat.eqb (List.length line) exp_line_length) then
        Raises (ValueError inconsistent_line_length)
      else
        let x := (x + 1)%Z in
        match create_line n_lines x (List.length line) 0 line island with
        | Raises e => Raises e
        | Returns island1 =>
            create_lines n_lines exp_line_length x rest island1
        end
  end.

Definition create_island (island_map : string) : outcome Island :=
  let lines := split island_map in
  match lines with
  | [] => Raises IndexError
  | first :: _ =>
      create_lines (List.length lines) (List.length first) 0 lines []
  end.

End functions.

(** ** simulation.py: construction, parameters and counts *)

(** [BioSim(island_map, ini_pop, seed)]: [random.seed(seed)] gives the
    generator [env]; the graphics and the log file are outside the model.
    An exception leaves no object behind. *)
Inductive construction : Type :=
| Constructed (sim : BioSim) (env : Env)
| MapError (e : functions.exn)
| PopulationError (e : exn).

Definition BioSim_init (island_map : string)
           (ini_pop : list (coordinate * list description)) (env : Env)
  : construction :=
  match functions.create_island island_map with
  | functions.Raises e => MapError e
  | functions.Returns island0 =>
      let '(island1, env1, r) := add_population ini_pop island0 env in
      match r with
      | Raise e => PopulationError e
      | Ok _ => Constructed (mkBioSim island1 0) env1
      end
  end.

(** [geography.f_max = v] *)
Definition with_f_max (v : option R) (g : Geography) : Geography :=
  mkGeography (geography g) (movable g) v (fodder g) (herbivores g)
              (carnivores g) (migrated_herbivores g) (migrated_carnivores g).

(** [params[key]] on a dict of numbers. *)
Fixpoint params_get (params : list (string * R)) (key : string) : result R :=
  match params with
  | [] => Raise KeyError
  | (k, v) :: rest => if String.eqb k key then Ok v else params_get rest key
  end.

(** [set_landscape_parameters(landscape, params)]: the cells as the call
    leaves them, and whether it returned or raised.  The test on
    [landscape] is made for every cell, whatever the cell is. *)
Fixpoint set_landscape_parameters_cells (landscape : string)
         (params : list (string * R)) (cells : Island)
  : Island * result unit :=
  match cells with
  | [] => ([], Ok tt)
  | (coord, g) :: rest =>
      if String.eqb landscape "L" then
        match params_get params "f_max" with
        | Raise e => (cells, Raise e)
        | Ok v =>
            let (rest', r) :=
              set_landscape_parameters_cells landscape params rest in
            ((coord, with_f_max (Some v) g) :: rest', r)
        end
      else if String.eqb landscape "H" then
        match params_get params "f_max" with
        | Raise e => (cells, Raise e)
        | Ok v =>
            let (rest', r) :=
              set_landscape_parameters_cells landscape params rest in
            ((coord, with_f_max (Some v) g) :: rest', r)
        end
      else (cells, Raise ValueError)
  end.

Definition set_landscape_parameters (landscape : string)
           (params : list (string * R)) (sim : BioSim)
  : BioSim * result unit :=
  let (cells, r) :=
    set_landscape_parameters_cells landscape params (island sim) in
  (mkBioSim cells (current_year sim), r).

(** The property [year]. *)
Definition year (sim : BioSim) : nat := current_year sim.

(** The property [num_animals]; [len(None)] raises [TypeError]. *)
Fixpoint num_animals_from (cells : Island) (num_animals : nat)
  : result nat :=
  match cells with
  | [] => Ok num_animals
  | (_, g) :: rest =>
      if movable g then
        hs <- attr TypeError (herbivores g) ;;
        cs <- attr TypeError (carnivores g) ;;
        num_animals_from rest
                         (num_animals + (List.length hs + List.length cs))
      else num_animals_from rest num_animals
  end.

Definition num_animals (sim : BioSim) : result nat :=
  num_animals_from (island sim) 0.

(** The property [num_animals_per_species]: the counts under the keys
    ['Herbivore'] and ['Carnivore']. *)
Fixpoint num_animals_per_species_from (cells : Island)
         (animals_per_species : nat * nat) : result (nat * nat) :=
  match cells with
  | [] => Ok animals_per_species
  | (_, g) :: rest =>
      if movable g then
        hs <- attr TypeError (herbivores g) ;;
        let herbivore_count := (fst animals_per_species + List.length hs)%nat in
        cs <- attr TypeError (carnivores g) ;;
        let carnivore_count := (snd animals_per_species + List.length cs)%nat in
        num_animals_per_species_from rest (herbivore_count, carnivore_count)
      else num_animals_per_species_from rest animals_per_species
  end.

Definition num_animals_per_species (sim : BioSim) : result (nat * nat) :=
  num_animals_per_species_from (island sim) (O, O).

(** ** Maps and grids, for the statements about [create_island] *)

Definition all_water (line : list ascii) : Prop :=
  Forall (fun letter => letter = "W"%char) line.

(** The lines of a map [create_island] accepts: there is a line, all
    lines are as long as the first, every letter is one of L, H, D and W,
    and the first and last line and the first and last letter of every
    line are W. *)
Definition accepted_map (lines : list (list ascii)) : Prop :=
  lines <> []
  /\ Forall (fun line => List.length line = List.length (hd [] lines)) lines
  /\ Forall (Forall (fun letter => In letter functions.valid_letters)) lines
  /\ all_water (hd [] lines) /\ all_water (last lines [])
  /\ Forall (fun line => hd "W"%char line = "W"%char
                         /\ last line "W"%char = "W"%char) lines.

(** The coordinates [(1, 1), (1, 2), ..., (rows, cols)], line by line. *)
Definition grid_keys (rows cols : nat) : list coordinate :=
  flat_map (fun x => map (fun y => (Z.of_nat x, Z.of_nat y)) (seq 1 cols))
           (seq 1 rows).

(** The cell a letter stands for, and the cells of a line and of a list
    of lines whose first letter and first line have the indices [y] and
    [x]. *)
Definition cell_of_letter (letter : ascii) : Geography :=
  match functions.getitem functions.geography_types letter with
  | functions.Returns g => g
  | functions.Raises _ => new_geography Water
  end.

Fixpoint line_cells (x y : Z) (letters : list ascii) : Island :=
  match letters with
  | [] => []
  | letter :: rest =>
      ((x, y + 1)%Z, cell_of_letter letter) :: line_cells x (y + 1) rest
  end.

Fixpoint lines_cells (x : Z) (lines : list (list ascii)) : Island :=
  match lines with
  | [] => []
  | line :: rest => line_cells (x + 1) 0 line ++ lines_cells (x + 1) rest
  end.

(** The test the inner loop makes on one letter. *)
Definition letter_passes (n_lines : nat) (x : Z) (len_line : nat) (y : Z)
           (letter : ascii) : bool :=
  functions.letter_in letter functions.valid_letters
  && negb ((Z.eqb x 1 || Z.eqb y 1 || Z.eqb x (Z.of_nat n_lines)
            || Z.eqb y (Z.of_nat len_line))
           && functions.letter_in letter functions.invalid_border).

Fixpoint line_passes (n_lines : nat) (x : Z) (len_line : nat) (y : Z)
         (letters : list ascii) : bool :=
  match letters with
  | [] => true
  | letter :: rest =>
      letter_passes n_lines x len_line (y + 1) letter
      && line_passes n_lines x len_line (y + 1) rest
  end.

Fixpoint lines_pass (n_lines : nat) (exp_line_length : nat) (x : Z)
         (lines : list (list ascii)) : bool :=
  match lines with
  | [] => true
  | line :: rest =>
      Nat.eqb (List.length line) exp_line_length
      && line_passes n_lines (x + 1) (List.length line) 0 line
      && lines_pass n_lines exp_line_length (x + 1) rest
  end.

(** ** Descriptions of animals, for the statements about insertion *)

(** The descriptions of a list that name the species [species]. *)
Definition described (species : string) (animals : list description)
  : list description :=
  filter (fun d => String.eqb (d_species d) species) animals.

(** Every description gives a weight. *)
Definition weights_given (animals : list description) : Prop :=
  Forall (fun d => d_weight d <> None) animals.

(** No random number is drawn between [env] and [env']. *)
Definition no_draw (env env' : Env) : Prop :=
  uniform_draws env' = uniform_draws env
  /\ normal_draws env' = normal_draws env
  /\ index_draws env' = index_draws env
  /\ uniform_pos env' = uniform_pos env
  /\ normal_pos env' = normal_pos env
  /\ index_pos env' = index_pos env.

(** The number of animals a population describes: the descriptions that
    name one of the two species. *)
Definition population_size
           (population : list (coordinate * list description)) : nat :=
  list_sum (map (fun lp => List.length (described "Herbivore" (snd lp))
                           + List.length (described "Carnivore" (snd lp)))%nat
                population).

(** An element of a population can be placed on the island: its location
    is on the map, and is passable unless no description names one of the
    two species. *)
Definition placeable (cells : Island) (lp : coordinate * list description)
  : Prop :=
  exists g, island_get cells (fst lp) = Ok g
            /\ (movable g = false ->
                described "Herbivore" (snd lp) ++ described "Carnivore" (snd lp)
                = []).

(** ** Orders and identities, for the statements about lists of animals *)

(** [b] is not fitter than [a]. *)
Definition not_fitter (a b : Herbivore.t) : Prop :=
  Herbivore.fitness b <= Herbivore.fitness a.

Definition carnivore_ids (l : list Carnivore.t) : list nat :=
  map Carnivore.ident l.

(** ** Parameter names, for the statements about [set_animal_params] *)

(** The names of the attributes that hold the state of an animal. *)
Definition state_attributes : list string :=
  ["age"; "weight"; "fitness"]%string.

(** No key of [params] names the state of an animal. *)
Definition constants_only (params : list (string * R)) : Prop :=
  Forall (fun kv => ~ In (fst kv) state_attributes) params.


(** * Properties *)

(** ** Comparisons *)

Lemma Rleb_true (x y : R) : Rleb x y = true <-> x <= y.
Proof. unfold Rleb; destruct (Rle_dec x y); split; intros; try easy. Qed.

Lemma Rleb_false (x y : R) : Rleb x y = false <-> y < x.
Proof.
  unfold Rleb; destruct (Rle_dec x y); split; intros; try easy; lra.
Qed.

Lemma Rltb_true (x y : R) : Rltb x y = true <-> x < y.
Proof. unfold Rltb; destruct (Rlt_dec x y); split; intros; try easy. Qed.

Lemma Rltb_false (x y : R) : Rltb x y = false <-> y <= x.
Proof.
  unfold Rltb; destruct (Rlt_dec x y); split; intros; try easy; lra.
Qed.

Lemma Rgeb_true (x y : R) : Rgeb x y = true <-> y <= x.
Proof. apply Rleb_true. Qed.

Lemma Rgeb_false (x y : R) : Rgeb x y = false <-> x < y.
Proof. apply Rleb_false. Qed.

Lemma Rgtb_true (x y : R) : Rgtb x y = true <-> y < x.
Proof. apply Rltb_true. Qed.

Lemma Rgtb_false (x y : R) : Rgtb x y = false <-> x <= y.
Proof. apply Rltb_false. Qed.

Lemma Reqb_true (x y : R) : Reqb x y = true <-> x = y.
Proof. unfold Reqb; destruct (Req_dec_T x y); split; intros; try easy. Qed.

Lemma Reqb_false (x y : R) : Reqb x y = false <-> x <> y.
Proof. unfold Reqb; destruct (Req_dec_T x y); split; intros; try easy. Qed.

(** ** Fitness *)

Lemma age_factor_bounds (phi a half : R) :
  0 < Animal.age_factor phi a half < 1.
Proof.
  unfold Animal.age_factor.
  pose proof (exp_pos (phi * (a - half))) as He.
  split.
  - apply Rdiv_lt_0_compat; lra.
  - apply (Rmult_lt_reg_r (1 + exp (phi * (a - half)))); [lra|].
    unfold Rdiv; rewrite Rmult_assoc, Rinv_l by lra; lra.
Qed.

Lemma weight_factor_bounds (phi w half : R) :
  0 < Animal.weight_factor phi w half < 1.
Proof.
  unfold Animal.weight_factor.
  pose proof (exp_pos (- phi * (w - half))) as He.
  split.
  - apply Rdiv_lt_0_compat; lra.
  - apply (Rmult_lt_reg_r (1 + exp (- phi * (w - half)))); [lra|].
    unfold Rdiv; rewrite Rmult_assoc, Rinv_l by lra; lra.
Qed.


Lemma weight_factor_increasing (phi half x y : R) :
  0 < phi -> x < y ->
  Animal.weight_factor phi x half < Animal.weight_factor phi y half.
Proof.
  intros Hphi Hxy; unfold Animal.weight_factor, Rdiv.
  rewrite !Rmult_1_l.
  pose proof (exp_pos (- phi * (x - half))) as Hx.
  pose proof (exp_pos (- phi * (y - half))) as Hy.
  assert (Hlt : exp (- phi * (y - half)) < exp (- phi * (x - half))).
  { apply exp_increasing. nra. }
  apply Rinv_lt_contravar; [nra | lra].
Qed.

Lemma calculate_fitness_nonpos (a : Animal.t) :
  Animal.weight a <= 0 ->
  Animal.calculate_fitness a = Animal.with_fitness 0 a.
Proof.
  intros H; unfold Animal.calculate_fitness.
  apply Rleb_true in H; now rewrite H.
Qed.

Lemma calculate_fitness_pos (a : Animal.t) :
  0 < Animal.weight a ->
  Animal.calculate_fitness a =
  Animal.with_fitness
    (Animal.age_factor (Animal.phi_age a) (Animal.age a) (Animal.a_half a)
     * Animal.weight_factor (Animal.phi_weight a) (Animal.weight a)
                            (Animal.w_half a)) a.
Proof.
  intros H; unfold Animal.calculate_fitness.
  apply Rleb_false in H; now rewrite H.
Qed.

Lemma calculate_fitness_weight (a : Animal.t) :
  Animal.weight (Animal.calculate_fitness a) = Animal.weight a.
Proof. unfold Animal.calculate_fitness; now destruct (Rleb _ _). Qed.

Lemma calculate_fitness_age (a : Animal.t) :
  Animal.age (Animal.calculate_fitness a) = Animal.age a.
Proof. unfold Animal.calculate_fitness; now destruct (Rleb _ _). Qed.

Lemma calculate_fitness_ident (a : Animal.t) :
  Animal.ident (Animal.calculate_fitness a) = Animal.ident a.
Proof. unfold Animal.calculate_fitness; now destruct (Rleb _ _). Qed.

Lemma fitness_range (a : Animal.t) :
  0 <= Animal.fitness (Animal.calculate_fitness a) < 1.
Proof.
  destruct (Rle_dec (Animal.weight a) 0) as [H|H].
  - rewrite calculate_fitness_nonpos by assumption; simpl; lra.
  - rewrite calculate_fitness_pos by lra; simpl.
    pose proof (age_factor_bounds (Animal.phi_age a) (Animal.age a)
                                  (Animal.a_half a)).
    pose proof (weight_factor_bounds (Animal.phi_weight a) (Animal.weight a)
                                     (Animal.w_half a)).
    nra.
Qed.

Lemma fitness_positive (a : Animal.t) :
  0 < Animal.weight a -> 0 < Animal.fitness (Animal.calculate_fitness a).
Proof.
  intros H; rewrite calculate_fitness_pos by assumption; simpl.
  pose proof (age_factor_bounds (Animal.phi_age a) (Animal.age a)
                                (Animal.a_half a)).
  pose proof (weight_factor_bounds (Animal.phi_weight a) (Animal.weight a)
                                   (Animal.w_half a)).
  nra.
Qed.






(** ** The fitness formula on doubles *)




(** ** Construction and reproduction *)

Lemma calculate_fitness_constants (a : Animal.t) :
  Animal.a_half (Animal.calculate_fitness a) = Animal.a_half a
  /\ Animal.zeta (Animal.calculate_fitness a) = Animal.zeta a
  /\ Animal.phi_age (Animal.calculate_fitness a) = Animal.phi_age a
  /\ Animal.phi_weight (Animal.calculate_fitness a) = Animal.phi_weight a
  /\ Animal.w_half (Animal.calculate_fitness a) = Animal.w_half a
  /\ Animal.mu (Animal.calculate_fitness a) = Animal.mu a
  /\ Animal.omega (Animal.calculate_fitness a) = Animal.omega a
  /\ Animal.eta (Animal.calculate_fitness a) = Animal.eta a.
Proof.
  unfold Animal.calculate_fitness; destruct (Rleb _ _); simpl; tauto.
Qed.

Lemma herbivore_init_constants (age0 : R) (weight0 : option R) (env : Env) :
  Herbivore.constants (fst (Herbivore.init age0 weight0 env))
  = Herbivore.default_constants.
Proof.
  unfold Herbivore.init, new_object.
  destruct weight0; unfold random_gauss; cbn [fst];
    unfold Herbivore.constants, Herbivore.default_constants;
    cbn [Herbivore.base Herbivore.sigma_birth Herbivore.w_birth
         Herbivore.beta Herbivore.gamma Herbivore.xi Herbivore.F];
    match goal with
    | |- context [Animal.calculate_fitness ?a] =>
        destruct (calculate_fitness_constants a)
          as (-> & -> & -> & -> & -> & -> & -> & ->)
    end; reflexivity.
Qed.

Lemma carnivore_init_constants (age0 : R) (weight0 : option R) (env : Env) :
  Carnivore.constants (fst (Carnivore.init age0 weight0 env))
  = Carnivore.default_constants.
Proof.
  unfold Carnivore.init, new_object.
  destruct weight0; unfold random_gauss; cbn [fst];
    unfold Carnivore.constants, Carnivore.default_constants;
    cbn [Carnivore.base Carnivore.sigma_birth Carnivore.w_birth
         Carnivore.beta Carnivore.gamma Carnivore.xi Carnivore.F
         Carnivore.DeltaPhiMax];
    match goal with
    | |- context [Animal.calculate_fitness ?a] =>
        destruct (calculate_fitness_constants a)
          as (-> & -> & -> & -> & -> & -> & -> & ->)
    end; reflexivity.
Qed.

(** The outcomes of [Herbivore.gives_birth]: either the offspring drawn
    after the uniform draw is returned and its weight is taken from the
    parent, or nothing is returned and the parent is as it was. *)
Lemma herbivore_gives_birth_cases (N : nat) (h : Herbivore.t) (env : Env) :
  let env1 := snd (random_random env) in
  let baby := fst (Herbivore.init 0 None env1) in
  (Herbivore.weight baby <= Herbivore.weight h
   /\ Herbivore.gives_birth N h env =
      (Some baby,
       Herbivore.with_base
         (Animal.weight_reduction (Herbivore.weight baby) (Herbivore.base h))
         h,
       snd (Herbivore.init 0 None env1)))
  \/ (exists env', Herbivore.gives_birth N h env = (None, h, env')).
Proof.
  unfold Herbivore.gives_birth.
  destruct (random_random env) as [r env1] eqn:Hr; cbn [snd].
  destruct (Rgtb _ _ && Rgeb _ _).
  - destruct (Herbivore.init 0 None env1) as [baby env2] eqn:Hb; cbn [fst snd].
    destruct (Rleb (Herbivore.weight baby) (Herbivore.weight h)) eqn:Hle.
    + left; split; [now apply Rleb_true | reflexivity].
    + right; now exists env2.
  - right; now exists env1.
Qed.

Lemma carnivore_gives_birth_cases (N : nat) (c : Carnivore.t) (env : Env) :
  let env1 := snd (random_random env) in
  let baby := fst (Carnivore.init 0 None env1) in
  (Carnivore.weight baby <= Carnivore.weight c
   /\ Carnivore.gives_birth N c env =
      (Some baby,
       Carnivore.with_base
         (Animal.weight_reduction (Carnivore.weight baby) (Carnivore.base c))
         c,
       snd (Carnivore.init 0 None env1)))
  \/ (exists env', Carnivore.gives_birth N c env = (None, c, env')).
Proof.
  unfold Carnivore.gives_birth.
  destruct (random_random env) as [r env1] eqn:Hr; cbn [snd].
  destruct (Rgtb _ _ && Rgeb _ _).
  - destruct (Carnivore.init 0 None env1) as [baby env2] eqn:Hb; cbn [fst snd].
    destruct (Rleb (Carnivore.weight baby) (Carnivore.weight c)) eqn:Hle.
    + left; split; [now apply Rleb_true | reflexivity].
    + right; now exists env2.
  - right; now exists env1.
Qed.

(** When both gates pass and the drawn offspring is not heavier than the
    parent, the offspring is returned. *)
Lemma herbivore_gives_birth_success (N : nat) (h : Herbivore.t) (env : Env) :
  let env1 := snd (random_random env) in
  let baby := fst (Herbivore.init 0 None env1) in
  fst (random_random env)
  < Rmin 1 (Herbivore.gamma h * Herbivore.fitness h * (INR N - 1)) ->
  Animal.zeta (Herbivore.base h)
  * (Herbivore.w_birth h + Herbivore.sigma_birth h) <= Herbivore.weight h ->
  Herbivore.weight baby <= Herbivore.weight h ->
  Herbivore.gives_birth N h env =
  (Some baby,
   Herbivore.with_base
     (Animal.weight_reduction (Herbivore.weight baby) (Herbivore.base h)) h,
   snd (Herbivore.init 0 None env1)).
Proof.
  intros env1 baby Hgate Hpre Hle; subst env1 baby.
  unfold Herbivore.gives_birth.
  destruct (random_random env) as [r env1]; cbn [fst snd] in *.
  apply Rgtb_true in Hgate; apply Rgeb_true in Hpre; rewrite Hgate, Hpre.
  cbn [andb].
  destruct (Herbivore.init 0 None env1) as [baby env2]; cbn [fst snd] in *.
  apply Rleb_true in Hle; now rewrite Hle.
Qed.

Lemma herbivore_failed_birth (N : nat) (h parent' : Herbivore.t)
      (env env' : Env) :
  Herbivore.gives_birth N h env = (None, parent', env') -> parent' = h.
Proof.
  intros H.
  destruct (herbivore_gives_birth_cases N h env) as [[_ E]|[e E]];
    rewrite E in H; [discriminate | now inversion H].
Qed.

Lemma carnivore_failed_birth (N : nat) (c parent' : Carnivore.t)
      (env env' : Env) :
  Carnivore.gives_birth N c env = (None, parent', env') -> parent' = c.
Proof.
  intros H.
  destruct (carnivore_gives_birth_cases N c env) as [[_ E]|[e E]];
    rewrite E in H; [discriminate | now inversion H].
Qed.

(** C7: a reproduction attempt that returns nothing leaves the parent as
    it was (age, weight, fitness and every other attribute), for both
    species. *)
Theorem failed_birth_leaves_parent_unchanged :
  (forall N h env parent' env',
      Herbivore.gives_birth N h env = (None, parent', env') ->
      parent' = h
      /\ Herbivore.age parent' = Herbivore.age h
      /\ Herbivore.weight parent' = Herbivore.weight h
      /\ Herbivore.fitness parent' = Herbivore.fitness h)
  /\ (forall N c env parent' env',
      Carnivore.gives_birth N c env = (None, parent', env') ->
      parent' = c
      /\ Carnivore.age parent' = Carnivore.age c
      /\ Carnivore.weight parent' = Carnivore.weight c
      /\ Carnivore.fitness parent' = Carnivore.fitness c).
Proof.
  split.
  - intros N h env parent' env' H.
    apply herbivore_failed_birth in H; subst; auto.
  - intros N c env parent' env' H.
    apply carnivore_failed_birth in H; subst; auto.
Qed.

Lemma herbivore_birth_result (N : nat) (h : Herbivore.t) (env : Env)
      (baby parent' : Herbivore.t) (env' : Env) :
  Herbivore.gives_birth N h env = (Some baby, parent', env') ->
  baby = fst (Herbivore.init 0 None (snd (random_random env)))
  /\ Herbivore.weight baby <= Herbivore.weight h
  /\ parent' =
     Herbivore.with_base
       (Animal.weight_reduction (Herbivore.weight baby) (Herbivore.base h)) h.
Proof.
  intros H.
  destruct (herbivore_gives_birth_cases N h env) as [[Hle E]|[e E]];
    rewrite E in H; [| discriminate].
  inversion H; subst; auto.
Qed.

Lemma carnivore_birth_result (N : nat) (c : Carnivore.t) (env : Env)
      (baby parent' : Carnivore.t) (env' : Env) :
  Carnivore.gives_birth N c env = (Some baby, parent', env') ->
  baby = fst (Carnivore.init 0 None (snd (random_random env)))
  /\ Carnivore.weight baby <= Carnivore.weight c
  /\ parent' =
     Carnivore.with_base
       (Animal.weight_reduction (Carnivore.weight baby) (Carnivore.base c)) c.
Proof.
  intros H.
  destruct (carnivore_gives_birth_cases N c env) as [[Hle E]|[e E]];
    rewrite E in H; [| discriminate].
  inversion H; subst; auto.
Qed.

Lemma weight_reduction_weight (w : R) (a : Animal.t) :
  Animal.weight (Animal.weight_reduction w a) = Animal.weight a - w.
Proof.
  unfold Animal.weight_reduction; now rewrite calculate_fitness_weight.
Qed.




Lemma herbivore_at_weight (i : nat) (a w : R) :
  Herbivore.weight (herbivore_at i a w) = w.
Proof.
  unfold herbivore_at, Herbivore.init, Herbivore.weight; simpl.
  now rewrite calculate_fitness_weight.
Qed.

Lemma herbivore_at_fitness_pos (i : nat) (a w : R) :
  0 < w -> 0 < Herbivore.fitness (herbivore_at i a w) < 1.
Proof.
  intros Hw.
  unfold herbivore_at, Herbivore.init, Herbivore.fitness; simpl.
  split; [now apply fitness_positive | apply fitness_range].
Qed.

Lemma herbivore_at_fitness_zero (i : nat) (a w : R) :
  w <= 0 -> Herbivore.fitness (herbivore_at i a w) = 0.
Proof.
  intros Hw.
  unfold herbivore_at, Herbivore.init, Herbivore.fitness; simpl.
  now rewrite calculate_fitness_nonpos.
Qed.

Lemma carnivore_at_weight (i : nat) (a w : R) :
  Carnivore.weight (carnivore_at i a w) = w.
Proof.
  unfold carnivore_at, Carnivore.init, Carnivore.weight; simpl.
  now rewrite calculate_fitness_weight.
Qed.


Lemma newborn_herbivore_weight (env : Env) :
  Herbivore.weight (fst (Herbivore.init 0 None env))
  = 8 + normal_draws env (normal_pos env) * 1.5.
Proof.
  unfold Herbivore.init, Herbivore.weight; simpl.
  now rewrite calculate_fitness_weight.
Qed.

Lemma newborn_carnivore_weight (env : Env) :
  Carnivore.weight (fst (Carnivore.init 0 None env))
  = 6 + normal_draws env (normal_pos env) * 1.
Proof.
  unfold Carnivore.init, Carnivore.weight; simpl.
  now rewrite calculate_fitness_weight.
Qed.

Lemma herbivore_at_constants (i : nat) (a w : R) :
  Herbivore.constants (herbivore_at i a w) = Herbivore.default_constants.
Proof. apply herbivore_init_constants. Qed.

Lemma carnivore_at_constants (i : nat) (a w : R) :
  Carnivore.constants (carnivore_at i a w) = Carnivore.default_constants.
Proof. apply carnivore_init_constants. Qed.



(** ** Reproduction in a cell *)





(** What [procreation] leaves in the two resident lists. *)
Lemma procreation_result (g g' : Geography) (env env' : Env) :
  procreation g env = Ok (g', env') ->
  exists hs cs,
    herbivores g = Some hs /\ carnivores g = Some cs
    /\ let N_h := List.length
                    (filter (fun h => negb (Reqb (Herbivore.age h) 0)) hs) in
       let N_c := List.length
                    (filter (fun c => negb (Reqb (Carnivore.age c) 0)) cs) in
       let rh := herbivores_breed N_h hs env in
       let rc := carnivores_breed N_c cs (snd rh) in
       g' = with_carnivores (Some (fst (fst rc) ++ snd (fst rc)))
              (with_herbivores (Some (fst (fst rh) ++ snd (fst rh))) g)
       /\ env' = snd rc.
Proof.
  unfold procreation; intros H.
  destruct (herbivores g) as [hs|] eqn:Hh; [|discriminate]; cbn [attr bind] in H.
  destruct (herbivores_breed _ hs env) as [[hs' bh] env1] eqn:Eh.
  cbn [with_herbivores carnivores] in H.
  destruct (carnivores g) as [cs|] eqn:Hc; [|discriminate]; cbn [attr bind] in H.
  destruct (carnivores_breed _ cs env1) as [[cs' bc] env2] eqn:Ec.
  inversion H; subst; clear H.
  exists hs, cs; repeat split; cbn zeta.
  - rewrite Eh; cbn [fst snd]; now rewrite Ec.
  - rewrite Eh; cbn [fst snd]; now rewrite Ec.
Qed.






(** ** Parameter overrides and offspring *)

Lemma herbivores_breed_babies_default (N : nat)
      (residents : list Herbivore.t) (env : Env) :
  Forall (fun b => Herbivore.constants b = Herbivore.default_constants)
         (snd (fst (herbivores_breed N residents env))).
Proof.
  revert env; induction residents as [|h rest IH]; intros env;
    cbn [herbivores_breed]; [constructor|].
  destruct (Reqb (Herbivore.age h) 0).
  - specialize (IH env).
    now destruct (herbivores_breed N rest env) as [[rest' babies] env'].
  - destruct (Herbivore.gives_birth N h env) as [[baby parent] env1] eqn:Hb.
    specialize (IH env1).
    destruct (herbivores_breed N rest env1) as [[rest' babies] env'].
    cbn [fst snd] in *.
    destruct baby as [b|]; [|assumption].
    constructor; [|assumption].
    apply herbivore_birth_result in Hb as (-> & _).
    apply herbivore_init_constants.
Qed.

Lemma carnivores_breed_babies_default (N : nat)
      (residents : list Carnivore.t) (env : Env) :
  Forall (fun b => Carnivore.constants b = Carnivore.default_constants)
         (snd (fst (carnivores_breed N residents env))).
Proof.
  revert env; induction residents as [|c rest IH]; intros env;
    cbn [carnivores_breed]; [constructor|].
  destruct (Reqb (Carnivore.age c) 0).
  - specialize (IH env).
    now destruct (carnivores_breed N rest env) as [[rest' babies] env'].
  - destruct (Carnivore.gives_birth N c env) as [[baby parent] env1] eqn:Hb.
    specialize (IH env1).
    destruct (carnivores_breed N rest env1) as [[rest' babies] env'].
    cbn [fst snd] in *.
    destruct baby as [b|]; [|assumption].
    constructor; [|assumption].
    apply carnivore_birth_result in Hb as (-> & _).
    apply carnivore_init_constants.
Qed.

(** C10: the constructors assign the default constants of the species, so
    an offspring returned by [gives_birth] carries them whatever overrides
    [set_animal_params] applied to its parent, and so do all the offspring
    a cell's [procreation] appends. *)
Theorem offspring_carry_default_constants :
  (forall params N h env baby parent' env',
      Herbivore.gives_birth N (Herbivore.set_animal_params params h) env
      = (Some baby, parent', env') ->
      Herbivore.constants baby = Herbivore.default_constants)
  /\ (forall params N c env baby parent' env',
      Carnivore.gives_birth N (Carnivore.set_animal_params params c) env
      = (Some baby, parent', env') ->
      Carnivore.constants baby = Carnivore.default_constants)
  /\ (forall N residents env,
      Forall (fun b => Herbivore.constants b = Herbivore.default_constants)
             (snd (fst (herbivores_breed N residents env))))
  /\ (forall N residents env,
      Forall (fun b => Carnivore.constants b = Carnivore.default_constants)
             (snd (fst (carnivores_breed N residents env)))).
Proof.
  repeat split.
  - intros * H; apply herbivore_birth_result in H as (-> & _).
    apply herbivore_init_constants.
  - intros * H; apply carnivore_birth_result in H as (-> & _).
    apply carnivore_init_constants.
  - intros; apply herbivores_breed_babies_default.
  - intros; apply carnivores_breed_babies_default.
Qed.

(** A parent whose [gamma] and [w_birth] were overridden bears an
    offspring. *)
Lemma example_birth_after_override :
  let h := Herbivore.set_animal_params
             [("gamma"%string, 1); ("w_birth"%string, 9)]
             (herbivore_at 0 5 50) in
  let env := constant_env 0 0 in
  let baby := fst (Herbivore.init 0 None (snd (random_random env))) in
  Herbivore.gives_birth 2 h env =
  (Some baby,
   Herbivore.with_base
     (Animal.weight_reduction (Herbivore.weight baby) (Herbivore.base h)) h,
   snd (Herbivore.init 0 None (snd (random_random env))))
  /\ Herbivore.w_birth h = 9.
Proof.
  intros h env baby.
  assert (Hb : Herbivore.weight baby = 8).
  { unfold baby; rewrite newborn_herbivore_weight; simpl; lra. }
  pose proof (herbivore_at_fitness_pos 0 5 50 ltac:(lra)) as Hf.
  pose proof (herbivore_at_weight 0 5 50) as Hw.
  pose proof (herbivore_at_constants 0 5 50) as Hc.
  assert (Hz : Animal.zeta (Herbivore.base h) = 3.5)
    by exact (f_equal k_zeta Hc).
  assert (Hs : Herbivore.sigma_birth h = 1.5) by reflexivity.
  assert (Hwb : Herbivore.w_birth h = 9) by reflexivity.
  assert (Hg : Herbivore.gamma h = 1) by reflexivity.
  change (Herbivore.fitness (herbivore_at 0 5 50))
    with (Herbivore.fitness h) in Hf.
  change (Herbivore.weight (herbivore_at 0 5 50))
    with (Herbivore.weight h) in Hw.
  split; [| exact Hwb].
  apply herbivore_gives_birth_success.
  - simpl fst. rewrite Hg. simpl INR.
    apply Rmin_glb_lt; nra.
  - rewrite Hz, Hs, Hwb, Hw; lra.
  - fold baby; rewrite Hb, Hw; lra.
Qed.

Lemma offspring_carry_default_constants_witness :
  Herbivore.constants
    (fst (Herbivore.init 0 None (snd (random_random (constant_env 0 0)))))
  = Herbivore.default_constants.
Proof.
  exact (proj1 offspring_carry_default_constants _ _ _ _ _ _ _
               (proj1 example_birth_after_override)).
Defined.

(** A herbivore of weight 1 fails the weight precondition. *)
Lemma example_failed_birth :
  Herbivore.gives_birth 2 (herbivore_at 0 5 1) (constant_env 0 0)
  = (None, herbivore_at 0 5 1, snd (random_random (constant_env 0 0))).
Proof.
  unfold Herbivore.gives_birth.
  destruct (random_random (constant_env 0 0)) as [r env1]; cbn [snd].
  pose proof (herbivore_at_weight 0 5 1) as Hw.
  pose proof (herbivore_at_constants 0 5 1) as Hc.
  assert (Hz : Animal.zeta (Herbivore.base (herbivore_at 0 5 1)) = 3.5)
    by exact (f_equal k_zeta Hc).
  assert (Hs : Herbivore.sigma_birth (herbivore_at 0 5 1) = 1.5)
    by reflexivity.
  assert (Hwb : Herbivore.w_birth (herbivore_at 0 5 1) = 8) by reflexivity.
  assert (Hpre : Rgeb (Herbivore.weight (herbivore_at 0 5 1))
                      (Animal.zeta (Herbivore.base (herbivore_at 0 5 1))
                       * (Herbivore.w_birth (herbivore_at 0 5 1)
                          + Herbivore.sigma_birth (herbivore_at 0 5 1)))
                 = false).
  { apply Rgeb_false; rewrite Hz, Hs, Hwb, Hw; lra. }
  now rewrite Hpre, andb_false_r.
Qed.

Lemma failed_birth_leaves_parent_unchanged_witness :
  let parent' :=
    snd (fst (Herbivore.gives_birth 2 (herbivore_at 0 5 1)
                                    (constant_env 0 0))) in
  parent' = herbivore_at 0 5 1
  /\ Herbivore.age parent' = Herbivore.age (herbivore_at 0 5 1)
  /\ Herbivore.weight parent' = Herbivore.weight (herbivore_at 0 5 1)
  /\ Herbivore.fitness parent' = Herbivore.fitness (herbivore_at 0 5 1).
Proof.
  apply (proj1 failed_birth_leaves_parent_unchanged 2%nat
               (herbivore_at 0 5 1) (constant_env 0 0) _
               (snd (random_random (constant_env 0 0)))).
  rewrite example_failed_birth; reflexivity.
Defined.


(** ** Hunting *)

Lemma eat_constants (eaten : R) (c : Carnivore.t) :
  Carnivore.F (Carnivore.eat eaten c) = Carnivore.F c
  /\ Carnivore.beta (Carnivore.eat eaten c) = Carnivore.beta c
  /\ Carnivore.DeltaPhiMax (Carnivore.eat eaten c) = Carnivore.DeltaPhiMax c
  /\ Carnivore.ident (Carnivore.eat eaten c) = Carnivore.ident c.
Proof.
  unfold Carnivore.eat, Carnivore.ident; cbn.
  now rewrite calculate_fitness_ident.
Qed.

Lemma eat_weight (eaten : R) (c : Carnivore.t) :
  Carnivore.weight (Carnivore.eat eaten c)
  = Carnivore.weight c + Carnivore.beta c * eaten.
Proof.
  unfold Carnivore.eat, Carnivore.weight at 1; cbn.
  now rewrite calculate_fitness_weight.
Qed.

(** The four ways one iteration of the loop of [hunt] can go. *)
Lemma hunt_loop_full (h : Herbivore.t) (rest dead : list Herbivore.t)
      (e : R) (c : Carnivore.t) (env : Env) :
  Carnivore.F c <= e ->
  Carnivore.hunt_loop (h :: rest) dead e c env = (dead, e, c, env).
Proof.
  intros H; cbn [Carnivore.hunt_loop].
  apply Rgeb_true in H; now rewrite H.
Qed.

Lemma hunt_loop_spared (h : Herbivore.t) (rest dead : list Herbivore.t)
      (e : R) (c : Carnivore.t) (env : Env) :
  e < Carnivore.F c ->
  Carnivore.fitness c <= Herbivore.fitness h ->
  Carnivore.hunt_loop (h :: rest) dead e c env
  = Carnivore.hunt_loop rest dead e c env.
Proof.
  intros H1 H2; cbn [Carnivore.hunt_loop].
  apply Rgeb_false in H1; apply Rleb_true in H2; now rewrite H1, H2.
Qed.

Lemma hunt_loop_draw (h : Herbivore.t) (rest dead : list Herbivore.t)
      (e : R) (c : Carnivore.t) (env : Env) :
  e < Carnivore.F c ->
  Herbivore.fitness h < Carnivore.fitness c ->
  Carnivore.fitness c - Herbivore.fitness h < Carnivore.DeltaPhiMax c ->
  Carnivore.hunt_loop (h :: rest) dead e c env
  = if Rltb (fst (random_random env))
            ((Carnivore.fitness c - Herbivore.fitness h)
             / Carnivore.DeltaPhiMax c)
    then
      Carnivore.hunt_loop
        rest (dead ++ [h])
        (e + Rmin (Carnivore.F c - e) (Herbivore.weight h))
        (Carnivore.eat (Rmin (Carnivore.F c - e) (Herbivore.weight h)) c)
        (snd (random_random env))
    else Carnivore.hunt_loop rest dead e c (snd (random_random env)).
Proof.
  intros H1 H2 H3; cbn [Carnivore.hunt_loop].
  apply Rgeb_false in H1; apply Rleb_false in H2; apply Rltb_true in H3.
  rewrite H1, H2, H3.
  now destruct (random_random env).
Qed.

Lemma hunt_loop_certain (h : Herbivore.t) (rest dead : list Herbivore.t)
      (e : R) (c : Carnivore.t) (env : Env) :
  e < Carnivore.F c ->
  Herbivore.fitness h < Carnivore.fitness c ->
  Carnivore.DeltaPhiMax c <= Carnivore.fitness c - Herbivore.fitness h ->
  Carnivore.hunt_loop (h :: rest) dead e c env
  = Carnivore.hunt_loop
      rest (dead ++ [h])
      (e + Rmin (Carnivore.F c - e) (Herbivore.weight h))
      (Carnivore.eat (Rmin (Carnivore.F c - e) (Herbivore.weight h)) c)
      env.
Proof.
  intros H1 H2 H3; cbn [Carnivore.hunt_loop].
  apply Rgeb_false in H1; apply Rleb_false in H2; apply Rltb_false in H3.
  now rewrite H1, H2, H3.
Qed.

(** Every iteration either leaves the state alone (full, spared, or a
    failed draw) or kills the prey. *)
Lemma hunt_loop_step (h : Herbivore.t) (rest dead : list Herbivore.t)
      (e : R) (c : Carnivore.t) (env : Env) :
  (Carnivore.F c <= e
   /\ Carnivore.hunt_loop (h :: rest) dead e c env = (dead, e, c, env))
  \/ (exists env1,
         Carnivore.hunt_loop (h :: rest) dead e c env
         = Carnivore.hunt_loop rest dead e c env1)
  \/ (e < Carnivore.F c
      /\ exists env1,
         Carnivore.hunt_loop (h :: rest) dead e c env
         = Carnivore.hunt_loop
             rest (dead ++ [h])
             (e + Rmin (Carnivore.F c - e) (Herbivore.weight h))
             (Carnivore.eat (Rmin (Carnivore.F c - e) (Herbivore.weight h)) c)
             env1).
Proof.
  destruct (Rle_dec (Carnivore.F c) e) as [Hfull|Hfull].
  { left; split; [assumption | now apply hunt_loop_full]. }
  right.
  destruct (Rle_dec (Carnivore.fitness c) (Herbivore.fitness h)) as [Hs|Hs].
  { left; exists env; apply hunt_loop_spared; lra. }
  destruct (Rlt_dec (Carnivore.fitness c - Herbivore.fitness h)
                    (Carnivore.DeltaPhiMax c)) as [Hd|Hd].
  - rewrite hunt_loop_draw by lra.
    destruct (Rltb _ _).
    + right; split; [lra | now exists (snd (random_random env))].
    + left; now exists (snd (random_random env)).
  - right; split; [lra|]; exists env; apply hunt_loop_certain; lra.
Qed.

Lemma consumed_from_app (F e : R) (l1 l2 : list Herbivore.t) :
  consumed_from F e (l1 ++ l2) = consumed_from F (consumed_from F e l1) l2.
Proof. unfold consumed_from; now rewrite fold_left_app. Qed.

(** The state the loop ends in, from any state it may start in. *)
Lemma hunt_loop_spec (herbivores : list Herbivore.t) :
  forall (dead : list Herbivore.t) (e : R) (c : Carnivore.t) (env : Env),
    let r := Carnivore.hunt_loop herbivores dead e c env in
    let dead' := fst (fst (fst r)) in
    let e' := snd (fst (fst r)) in
    let c' := snd (fst r) in
    (exists ks, dead' = dead ++ ks
                /\ e' = consumed_from (Carnivore.F c) e ks
                /\ incl ks herbivores)
    /\ Carnivore.F c' = Carnivore.F c
    /\ Carnivore.beta c' = Carnivore.beta c
    /\ Carnivore.ident c' = Carnivore.ident c
    /\ Carnivore.weight c' = Carnivore.weight c + Carnivore.beta c * (e' - e)
    /\ (e <= Carnivore.F c -> e' <= Carnivore.F c)
    /\ (Forall (fun h => 0 <= Herbivore.weight h) herbivores -> e <= e').
Proof.
  induction herbivores as [|h rest IH]; intros dead e c env.
  - cbn. split; [exists []; rewrite app_nil_r; repeat split; easy|].
    repeat split; try lra; auto.
  - destruct (hunt_loop_step h rest dead e c env)
      as [[Hfull E]|[[env1 E]|[Hlt [env1 E]]]]; rewrite E; clear E.
    + cbn. split; [exists []; rewrite app_nil_r; repeat split; easy|].
      repeat split; try lra; auto.
    + specialize (IH dead e c env1); cbn zeta in IH.
      destruct IH as ((ks & Hd & He & Hin) & HF & Hb & Hi & Hw & Hle & Hmono).
      split; [exists ks; repeat split; auto using incl_tl|].
      repeat split; auto.
      intros Hall; apply Hmono; now inversion Hall.
    + set (eaten := Rmin (Carnivore.F c - e) (Herbivore.weight h)).
      specialize (IH (dead ++ [h]) (e + eaten) (Carnivore.eat eaten c) env1).
      cbn zeta in IH.
      destruct (eat_constants eaten c) as (EF & Eb & _ & Ei).
      rewrite EF, Eb, Ei, eat_weight in IH.
      destruct IH as ((ks & Hd & He & Hin) & HF & Hb & Hi & Hw & Hle & Hmono).
      split.
      { exists (h :: ks); repeat split.
        - now rewrite Hd, <- app_assoc.
        - exact He.
        - intros x [->|Hx]; [now left | right; now apply Hin]. }
      repeat split; auto.
      * rewrite Hw; lra.
      * intros _; apply Hle.
        pose proof (Rmin_l (Carnivore.F c - e) (Herbivore.weight h)).
        fold eaten in H; lra.
      * intros Hall; inversion Hall as [|? ? Hh Hrest]; subst.
        specialize (Hmono Hrest).
        assert (0 <= eaten) by (unfold eaten; apply Rmin_glb; lra).
        lra.
Qed.



Lemma hunt_projections (herbivores : list Herbivore.t) (c : Carnivore.t)
      (env : Env) :
  Carnivore.hunt herbivores c env
  = (fst (fst (fst (Carnivore.hunt_loop herbivores [] 0 c env))),
     snd (fst (Carnivore.hunt_loop herbivores [] 0 c env)),
     snd (Carnivore.hunt_loop herbivores [] 0 c env)).
Proof.
  unfold Carnivore.hunt.
  now destruct (Carnivore.hunt_loop herbivores [] 0 c env) as [[[d e] c'] env'].
Qed.






(** ** Insertion of a population *)

(** C2, on the failing input: a description of an unknown species is
    skipped; the call returns normally, on land and on water alike, and
    leaves the cell and the generator as they were. *)
Theorem unknown_species_is_skipped_without_error (env : Env) :
  insert_population [mkDescription "Wolf" 5 (Some 20)]
                    (new_geography Lowland) env
  = (new_geography Lowland, env, Ok tt)
  /\ insert_population [mkDescription "Wolf" 5 (Some 20)]
                       (new_geography Water) env
     = (new_geography Water, env, Ok tt).
Proof. split; reflexivity. Qed.

(** The sibling path: a known species on water raises. *)
Lemma known_species_on_water_raises (env : Env) :
  insert_population [mkDescription "Herbivore" 5 (Some 20)]
                    (new_geography Water) env
  = (new_geography Water, env, Raise AttributeError).
Proof. reflexivity. Qed.

Lemma insert_population_unknown (d : description) (rest : list description)
      (g : Geography) (env : Env) :
  String.eqb (d_species d) "Herbivore" = false ->
  String.eqb (d_species d) "Carnivore" = false ->
  insert_population (d :: rest) g env = insert_population rest g env.
Proof. intros H1 H2; cbn [insert_population]; now rewrite H1, H2. Qed.

(** ** Removal by identity *)

Lemma list_remove_herbivore (h : Herbivore.t) (l l' : list Herbivore.t) :
  list_remove (same_herbivore h) l = Ok l' ->
  exists l1 x l2,
    l = l1 ++ x :: l2 /\ l' = l1 ++ l2
    /\ Herbivore.ident x = Herbivore.ident h
    /\ ~ In (Herbivore.ident h) (herbivore_ids l1).
Proof.
  revert l'; induction l as [|y ys IH]; intros l' H; cbn in H; [discriminate|].
  destruct (same_herbivore h y) eqn:E.
  - inversion H; subst. exists [], y, l'; repeat split; auto.
    unfold same_herbivore in E; now apply Nat.eqb_eq in E.
  - destruct (list_remove (same_herbivore h) ys) as [ys'|] eqn:R;
      [|discriminate].
    cbn in H; inversion H; subst.
    destruct (IH ys' eq_refl) as (l1 & x & l2 & -> & -> & Hx & Hn).
    exists (y :: l1), x, l2; repeat split; auto.
    cbn; intros [Hy|Hy]; [|contradiction].
    unfold same_herbivore in E; apply Nat.eqb_neq in E; congruence.
Qed.

Lemma list_remove_herbivore_gone (h : Herbivore.t) (l l' : list Herbivore.t) :
  NoDup (herbivore_ids l) ->
  list_remove (same_herbivore h) l = Ok l' ->
  ~ In (Herbivore.ident h) (herbivore_ids l')
  /\ NoDup (herbivore_ids l') /\ incl l' l.
Proof.
  intros Hnd H.
  apply list_remove_herbivore in H as (l1 & x & l2 & -> & -> & Hx & Hn).
  unfold herbivore_ids in *; rewrite map_app in *; cbn [map] in Hnd.
  split; [|split].
  - rewrite in_app_iff; intros [Hin|Hin]; [contradiction|].
    apply NoDup_remove_2 in Hnd; apply Hnd.
    rewrite Hx, in_app_iff; now right.
  - now apply NoDup_remove_1 in Hnd.
  - intros a Ha; apply in_app_iff in Ha as [Ha|Ha]; apply in_app_iff;
      [now left | right; now right].
Qed.

Lemma herbivores_eaten_gone (dead : list Herbivore.t) :
  forall (g g' : Geography) (hs : list Herbivore.t),
    herbivores g = Some hs ->
    NoDup (herbivore_ids hs) ->
    herbivores_eaten dead g = Ok g' ->
    exists hs',
      herbivores g' = Some hs'
      /\ NoDup (herbivore_ids hs') /\ incl hs' hs
      /\ forall d, In d dead -> ~ In (Herbivore.ident d) (herbivore_ids hs').
Proof.
  induction dead as [|d rest IH]; intros g g' hs Hg Hnd H.
  - cbn in H; inversion H; subst.
    exists hs; split; [assumption|]; split; [assumption|].
    split; [apply incl_refl | intros d []].
  - cbn [herbivores_eaten] in H; rewrite Hg in H; cbn [attr bind] in H.
    destruct (list_remove (same_herbivore d) hs) as [hs1|] eqn:R;
      [|discriminate].
    cbn [bind] in H.
    destruct (list_remove_herbivore_gone d hs hs1 Hnd R) as (Hn & Hnd1 & Hi).
    destruct (IH (with_herbivores (Some hs1) g) g' hs1 eq_refl Hnd1 H)
      as (hs' & Hg' & Hnd' & Hi' & Hgone).
    exists hs'; repeat split; auto.
    + eapply incl_tran; eassumption.
    + intros x [->|Hx]; [|now apply Hgone].
      intros Hin; apply Hn.
      unfold herbivore_ids in *; apply in_map_iff in Hin as (y & Hy & Hin).
      apply in_map_iff; exists y; split; [assumption | now apply Hi'].
Qed.

Lemma hunt_kills_among_hunted (hs : list Herbivore.t) (c : Carnivore.t)
      (env : Env) :
  incl (fst (fst (Carnivore.hunt hs c env))) hs.
Proof.
  rewrite hunt_projections; cbn [fst].
  destruct (hunt_loop_spec hs [] 0 c env) as ((ks & Hd & _ & Hin) & _).
  cbn [app] in Hd; now rewrite Hd.
Qed.

(** The calls the loop over the carnivores makes: every later call hunts a
    list drawn from what the earlier calls left. *)
Lemma carnivores_hunt_calls (todo : list Carnivore.t) :
  forall (g : Geography) (env : Env) (hs : list Herbivore.t) cs' g' env' calls,
    herbivores g = Some hs ->
    NoDup (herbivore_ids hs) ->
    carnivores_hunt todo g env = Ok (cs', g', env', calls) ->
    List.length calls = List.length todo
    /\ (exists hs', herbivores g' = Some hs' /\ incl hs' hs
                    /\ NoDup (herbivore_ids hs'))
    /\ Forall (fun call => incl (hunted call) hs /\ incl (killed call) (hunted call))
              calls
    /\ (forall l1 ci l2 h,
           calls = l1 ++ ci :: l2 -> In h (killed ci) ->
           (forall cj, In cj l2 ->
                       ~ In (Herbivore.ident h) (herbivore_ids (hunted cj)))
           /\ ~ In (Herbivore.ident h)
                (herbivore_ids (residents_of (herbivores g')))).
Proof.
  induction todo as [|c rest IH]; intros g env hs cs' g' env' calls Hg Hnd H.
  - cbn in H; inversion H; subst. repeat split; auto.
    + exists hs; repeat split; auto using incl_refl.
    + destruct l1; discriminate.
    + destruct l1; discriminate.
  - cbn [carnivores_hunt] in H; rewrite Hg in H; cbn [attr bind] in H.
    pose proof (hunt_kills_among_hunted hs c env) as Hkill.
    destruct (Carnivore.hunt hs c env) as [[dead c'] env1].
    cbn [fst] in Hkill.
    destruct (herbivores_eaten dead g) as [g1|] eqn:He; [|discriminate].
    cbn [bind] in H.
    destruct (herbivores_eaten_gone dead g g1 hs Hg Hnd He)
      as (hs1 & Hg1 & Hnd1 & Hi1 & Hgone).
    destruct (carnivores_hunt rest g1 env1) as [[[[rest' g2] env2] calls']|]
      eqn:Hrest; [|discriminate].
    cbn [bind] in H; inversion H; subst; clear H.
    destruct (IH g1 env1 hs1 rest' g' env' calls' Hg1 Hnd1 Hrest)
      as (Hlen & (hs' & Hg' & Hi' & Hnd') & Hall & Hlater).
    split; [cbn; now rewrite Hlen|].
    split; [exists hs'; repeat split; auto; eapply incl_tran; eassumption|].
    split.
    { constructor; [split; [apply incl_refl | assumption]|].
      eapply Forall_impl; [|exact Hall].
      intros call [A B]; split; [eapply incl_tran; eassumption | assumption]. }
    intros l1 ci l2 h Hsplit Hin.
    destruct l1 as [|c0 l1]; cbn [app] in Hsplit; inversion Hsplit; subst.
    + cbn [killed] in Hin.
      assert (Hout : forall l, incl l hs1 ->
                ~ In (Herbivore.ident h) (herbivore_ids l)).
      { intros l Hl Hc; apply (Hgone h Hin).
        unfold herbivore_ids in *; apply in_map_iff in Hc as (y & Hy & Hc).
        apply in_map_iff; exists y; split; [assumption | now apply Hl]. }
      split.
      * intros cj Hcj; apply Hout.
        rewrite Forall_forall in Hall; now apply Hall.
      * rewrite Hg'; cbn [residents_of]; now apply Hout.
    + now apply (Hlater l1 ci l2 h).
Qed.


(** ** The hunts of one cell *)

Lemma herbivore_at_ident (i : nat) (a w : R) :
  Herbivore.ident (herbivore_at i a w) = i.
Proof.
  unfold herbivore_at, Herbivore.init, Herbivore.ident; cbn.
  now rewrite calculate_fitness_ident.
Qed.

Lemma herbivore_at_age (i : nat) (a w : R) :
  Herbivore.age (herbivore_at i a w) = a.
Proof.
  unfold herbivore_at, Herbivore.init, Herbivore.age; cbn.
  now rewrite calculate_fitness_age.
Qed.

Lemma carnivore_at_ident (i : nat) (a w : R) :
  Carnivore.ident (carnivore_at i a w) = i.
Proof.
  unfold carnivore_at, Carnivore.init, Carnivore.ident; cbn.
  now rewrite calculate_fitness_ident.
Qed.


Lemma age_factor_at_half (phi half : R) :
  Animal.age_factor phi half half = 1 / 2.
Proof.
  unfold Animal.age_factor.
  replace (phi * (half - half)) with 0 by lra.
  rewrite exp_0; lra.
Qed.

Lemma weight_factor_at_half (phi half : R) :
  Animal.weight_factor phi half half = 1 / 2.
Proof.
  unfold Animal.weight_factor.
  replace (- phi * (half - half)) with 0 by lra.
  rewrite exp_0; lra.
Qed.

(** The example prey has fitness 1/4; a carnivore of age 40 and weight 20
    is fitter. *)
Lemma example_prey_fitness (i : nat) :
  Herbivore.fitness (herbivore_at i 40 10) = 1 / 4.
Proof.
  unfold herbivore_at, Herbivore.init, Herbivore.fitness; cbn.
  rewrite calculate_fitness_pos by (cbn; lra); cbn.
  rewrite age_factor_at_half, weight_factor_at_half; lra.
Qed.

Lemma example_predator_fitness (i : nat) :
  1 / 4 < Carnivore.fitness (carnivore_at i 40 20) < 1.
Proof.
  unfold carnivore_at, Carnivore.init, Carnivore.fitness; cbn.
  split; [|apply fitness_range].
  rewrite calculate_fitness_pos by (cbn; lra); cbn.
  rewrite age_factor_at_half.
  pose proof (weight_factor_increasing 0.4 4 4 20 ltac:(lra) ltac:(lra)) as H.
  rewrite weight_factor_at_half in H; lra.
Qed.

(** With a uniform draw of 0 the example predator kills the example prey
    and eats all of it. *)
Lemma example_hunt (i j : nat) (env : Env) :
  fst (random_random env) = 0 ->
  Carnivore.hunt [herbivore_at j 40 10] (carnivore_at i 40 20) env
  = ([herbivore_at j 40 10], Carnivore.eat 10 (carnivore_at i 40 20),
     snd (random_random env)).
Proof.
  intros Hdraw.
  pose proof (example_predator_fitness i) as Hc.
  pose proof (example_prey_fitness j) as Hh.
  pose proof (herbivore_at_weight j 40 10) as Hw.
  assert (HF : Carnivore.F (carnivore_at i 40 20) = 50) by reflexivity.
  assert (HD : Carnivore.DeltaPhiMax (carnivore_at i 40 20) = 10)
    by reflexivity.
  assert (Hmin : Rmin (Carnivore.F (carnivore_at i 40 20) - 0)
                      (Herbivore.weight (herbivore_at j 40 10)) = 10).
  { rewrite HF, Hw; apply Rmin_right; lra. }
  unfold Carnivore.hunt.
  rewrite hunt_loop_draw by (rewrite ?HF, ?HD, ?Hh; lra).
  assert (Hlt : Rltb (fst (random_random env))
                     ((Carnivore.fitness (carnivore_at i 40 20)
                       - Herbivore.fitness (herbivore_at j 40 10))
                      / Carnivore.DeltaPhiMax (carnivore_at i 40 20))
                = true).
  { apply Rltb_true; rewrite HD, Hh, Hdraw; lra. }
  rewrite Hlt, Hmin; cbn [Carnivore.hunt_loop app]; reflexivity.
Qed.

Lemma same_herbivore_refl (h : Herbivore.t) : same_herbivore h h = true.
Proof. apply Nat.eqb_refl. Qed.

Lemma same_carnivore_refl (c : Carnivore.t) : same_carnivore c c = true.
Proof. apply Nat.eqb_refl. Qed.

(** The two hunts of the example cell: the first predator kills the prey,
    the second one hunts an empty list. *)
Lemma example_two_hunts :
  carnivores_hunt [carnivore_at 0 40 20; carnivore_at 1 40 20] example_cell
                  (constant_env 0 0)
  = Ok ([Carnivore.eat 10 (carnivore_at 0 40 20); carnivore_at 1 40 20],
        with_herbivores (Some []) example_cell,
        snd (random_random (constant_env 0 0)),
        [mkHunt [example_prey] [example_prey]; mkHunt [] []]).
Proof.
  cbn [carnivores_hunt].
  change (herbivores example_cell) with (Some [example_prey]).
  cbn [attr bind]; unfold example_prey.
  rewrite example_hunt by reflexivity.
  cbn [herbivores_eaten].
  change (herbivores example_cell) with (Some [herbivore_at 2 40 10]).
  cbn [attr bind list_remove].
  rewrite same_herbivore_refl.
  cbn [bind].
  change (herbivores (with_herbivores (Some []) example_cell))
    with (Some (@nil Herbivore.t)).
  cbn [attr bind Carnivore.hunt Carnivore.hunt_loop herbivores_eaten].
  reflexivity.
Qed.

(** C1, the counterexample: the prey the first predator killed is not in
    the list the second predator hunts. *)
Lemma second_predator_does_not_meet_killed_prey :
  exists cs' g' env' first second,
    carnivores_hunt [carnivore_at 0 40 20; carnivore_at 1 40 20] example_cell
                    (constant_env 0 0)
    = Ok (cs', g', env', [first; second])
    /\ In example_prey (killed first)
    /\ ~ In example_prey (hunted second).
Proof.
  eexists _, _, _, _, _; split; [exact example_two_hunts|].
  cbn [killed hunted]; split; [now left | intros []].
Qed.

(** C1 (as amended): the prey a predator kills are removed from the
    resident list right after its hunt.  In a cell whose prey are distinct
    objects, a prey killed in one call of [hunt] was in the list that call
    hunted, is in none of the lists the later calls hunt, and is not a
    resident when the hunting of the cell is over. *)
Theorem killed_prey_are_removed_after_each_hunt
        (todo : list Carnivore.t) (g : Geography) (env : Env)
        (hs : list Herbivore.t) (cs' : list Carnivore.t) (g' : Geography)
        (env' : Env) (calls : list hunt_call)
        (Hprey : herbivores g = Some hs)
        (Hdistinct : NoDup (herbivore_ids hs))
        (Hrun : carnivores_hunt todo g env = Ok (cs', g', env', calls)) :
  List.length calls = List.length todo
  /\ forall l1 ci l2 h,
      calls = l1 ++ ci :: l2 -> In h (killed ci) ->
      In h (hunted ci)
      /\ (forall cj, In cj l2 ->
                     ~ In (Herbivore.ident h) (herbivore_ids (hunted cj)))
      /\ ~ In (Herbivore.ident h)
           (herbivore_ids (residents_of (herbivores g'))).
Proof.
  destruct (carnivores_hunt_calls todo g env hs cs' g' env' calls
                                  Hprey Hdistinct Hrun)
    as (Hlen & _ & Hall & Hlater).
  split; [assumption|].
  intros l1 ci l2 h Hsplit Hin.
  split; [|now apply (Hlater l1 ci l2 h)].
  rewrite Forall_forall in Hall.
  apply (Hall ci); [|assumption].
  subst calls; apply in_app_iff; right; now left.
Qed.

Lemma killed_prey_are_removed_after_each_hunt_witness :
  List.length [mkHunt [example_prey] [example_prey]; mkHunt [] []]
  = List.length [carnivore_at 0 40 20; carnivore_at 1 40 20]
  /\ forall l1 ci l2 h,
      [mkHunt [example_prey] [example_prey]; mkHunt [] []]
      = l1 ++ ci :: l2 ->
      In h (killed ci) ->
      In h (hunted ci)
      /\ (forall cj, In cj l2 ->
                     ~ In (Herbivore.ident h) (herbivore_ids (hunted cj)))
      /\ ~ In (Herbivore.ident h)
           (herbivore_ids
              (residents_of
                 (herbivores (with_herbivores (Some []) example_cell)))).
Proof.
  apply (killed_prey_are_removed_after_each_hunt
           [carnivore_at 0 40 20; carnivore_at 1 40 20] example_cell
           (constant_env 0 0) [example_prey]
           [Carnivore.eat 10 (carnivore_at 0 40 20); carnivore_at 1 40 20]
           (with_herbivores (Some []) example_cell)
           (snd (random_random (constant_env 0 0)))).
  - reflexivity.
  - repeat constructor; intros [].
  - exact example_two_hunts.
Defined.


(** ** The island as a dict *)

Lemma coordinate_eqb_eq (a b : coordinate) :
  coordinate_eqb a b = true <-> a = b.
Proof.
  destruct a as [a1 a2], b as [b1 b2]; unfold coordinate_eqb; cbn.
  rewrite andb_true_iff, !Z.eqb_eq; split.
  - intros [-> ->]; reflexivity.
  - intros H; inversion H; auto.
Qed.

Lemma coordinate_eqb_neq (a b : coordinate) :
  coordinate_eqb a b = false <-> a <> b.
Proof.
  rewrite <- coordinate_eqb_eq; destruct (coordinate_eqb a b); split;
    intros; congruence.
Qed.

Lemma coordinate_eqb_refl (a : coordinate) : coordinate_eqb a a = true.
Proof. now apply coordinate_eqb_eq. Qed.

Lemma island_set_keys (cells : Island) (c : coordinate) (g : Geography) :
  map fst (island_set cells c g) = map fst cells.
Proof.
  induction cells as [|[k g0] rest IH]; cbn; [reflexivity|].
  destruct (coordinate_eqb k c); cbn; [reflexivity | now rewrite IH].
Qed.

Lemma island_get_set_same (cells : Island) (c : coordinate)
      (g g' : Geography) :
  island_get cells c = Ok g ->
  island_get (island_set cells c g') c = Ok g'.
Proof.
  induction cells as [|[k g0] rest IH]; cbn; [discriminate|].
  destruct (coordinate_eqb k c) eqn:E; cbn; rewrite E; auto.
Qed.

Lemma island_get_set_other (cells : Island) (c c' : coordinate)
      (g' : Geography) :
  c <> c' ->
  island_get (island_set cells c g') c' = island_get cells c'.
Proof.
  intros Hne; induction cells as [|[k g0] rest IH]; cbn; [reflexivity|].
  destruct (coordinate_eqb k c) eqn:E; cbn.
  - apply coordinate_eqb_eq in E; subst k.
    apply coordinate_eqb_neq in Hne; now rewrite Hne.
  - destruct (coordinate_eqb k c'); auto.
Qed.

Lemma island_get_in (cells : Island) (c : coordinate) (g : Geography) :
  island_get cells c = Ok g -> In (c, g) cells.
Proof.
  induction cells as [|[k g0] rest IH]; cbn; [discriminate|].
  destruct (coordinate_eqb k c) eqn:E.
  - apply coordinate_eqb_eq in E; subst; intros H; inversion H; now left.
  - intros H; right; auto.
Qed.

Lemma island_get_key (cells : Island) (c : coordinate) :
  In c (map fst cells) -> exists g, island_get cells c = Ok g.
Proof.
  induction cells as [|[k g0] rest IH]; cbn; [intros []|].
  destruct (coordinate_eqb k c) eqn:E; [now exists g0|].
  intros [->|H]; [now rewrite coordinate_eqb_refl in E | auto].
Qed.

Lemma island_get_some_key (cells : Island) (c : coordinate) (g : Geography) :
  island_get cells c = Ok g -> In c (map fst cells).
Proof.
  intros H; apply island_get_in in H.
  apply in_map_iff; now exists (c, g).
Qed.

(** Replacing the cell at a coordinate changes a sum over the cells by the
    difference of the two cells. *)
Lemma island_set_sum (f : Geography -> nat) (cells : Island) (c : coordinate)
      (g g' : Geography) :
  island_get cells c = Ok g ->
  (list_sum (map (fun cg => f (snd cg)) (island_set cells c g')) + f g
   = list_sum (map (fun cg => f (snd cg)) cells) + f g')%nat.
Proof.
  induction cells as [|[k g0] rest IH]; cbn; [discriminate|].
  destruct (coordinate_eqb k c) eqn:E; unfold list_sum in *; simpl.
  - intros H; inversion H; subst; lia.
  - intros H; specialize (IH H); lia.
Qed.

Lemma neighbour_is_elsewhere (c n : coordinate) :
  In n (neighbours c) -> n <> c.
Proof.
  destruct c as [x y]; cbn.
  intros [<-|[<-|[<-|[<-|[]]]]] H; inversion H; lia.
Qed.

Lemma random_choice_neighbour (c : coordinate) (env : Env) :
  let '(x, y) := c in
  In (fst (random_choice (x + 1, y)%Z
                         [(x + 1, y); (x - 1, y); (x, y + 1); (x, y - 1)]%Z
                         env))
     (neighbours c).
Proof.
  destruct c as [x y]; unfold random_choice, randbelow; cbn [fst List.length].
  set (i := Nat.modulo _ 4).
  assert (Hi : (i < 4)%nat) by (apply Nat.mod_upper_bound; lia).
  cbn [neighbours].
  destruct i as [|[|[|[|i]]]]; cbn; try lia; auto.
Qed.


(** ** Migration *)

Lemma list_remove_length {A : Type} (same : A -> bool) (l l' : list A) :
  list_remove same l = Ok l' -> List.length l = S (List.length l').
Proof.
  revert l'; induction l as [|y ys IH]; intros l' H; cbn in H; [discriminate|].
  destruct (same y).
  - inversion H; reflexivity.
  - destruct (list_remove same ys) as [ys'|]; [|discriminate].
    cbn in H; inversion H; subst; cbn; now rewrite (IH ys' eq_refl).
Qed.

Lemma list_remove_incl {A : Type} (same : A -> bool) (l l' : list A) :
  list_remove same l = Ok l' -> incl l' l.
Proof.
  revert l'; induction l as [|y ys IH]; intros l' H; cbn in H; [discriminate|].
  destruct (same y).
  - inversion H; subst; apply incl_tl, incl_refl.
  - destruct (list_remove same ys) as [ys'|]; [|discriminate].
    cbn in H; inversion H; subst.
    intros a [->|Ha]; [now left | right; now apply (IH ys' eq_refl)].
Qed.

Lemma list_remove_found {A : Type} (same : A -> bool) (l : list A) :
  existsb same l = true -> exists l', list_remove same l = Ok l'.
Proof.
  induction l as [|y ys IH]; cbn; [discriminate|].
  destruct (same y); cbn; [now exists ys|].
  intros H; destruct (IH H) as [l' ->]; now exists (y :: l').
Qed.

Lemma migrate_one_step (c : coordinate) (a : animal) (cells cells' : Island)
      (env env' : Env) :
  migrate_one c a cells env = Ok (cells', env') ->
  migration_step c cells a cells'.
Proof.
  unfold migrate_one.
  pose proof (random_choice_neighbour c env) as Hn.
  destruct c as [x y].
  destruct (random_choice _ _ env) as [n env1]; cbn [fst] in Hn.
  destruct (island_get cells n) as [target|] eqn:Ht; [|discriminate].
  cbn [bind].
  destruct (movable target) eqn:Hm;
    [|intros H; inversion H; subst; constructor].
  destruct (random_random env1) as [r env2].
  destruct (Rgtb _ r); [|intros H; inversion H; subst; constructor].
  destruct (island_get cells (x, y)) as [self|] eqn:Hs; [|discriminate].
  cbn [bind].
  destruct a as [h|k].
  - destruct (herbivores self) as [hs|] eqn:Hh; [|discriminate].
    cbn [attr bind].
    destruct (existsb (same_herbivore h) hs).
    + destruct (migrated_herbivores target) as [ms|] eqn:Hms; [|discriminate].
      cbn [attr bind].
      destruct (list_remove (same_herbivore h) hs) as [hs'|] eqn:Hr;
        [|discriminate].
      cbn [bind]. intros H; inversion H; subst.
      eapply herbivore_moves; eauto.
    + destruct (carnivores self); [|discriminate].
      cbn [attr bind]. intros H; inversion H; subst; constructor.
  - destruct (herbivores self) as [hs|] eqn:Hh; [|discriminate].
    cbn [attr bind].
    destruct (carnivores self) as [cs|] eqn:Hc; [|discriminate].
    cbn [attr bind].
    destruct (existsb (same_carnivore k) cs).
    + destruct (migrated_carnivores target) as [ms|] eqn:Hms; [|discriminate].
      cbn [attr bind].
      destruct (list_remove (same_carnivore k) cs) as [cs'|] eqn:Hr;
        [|discriminate].
      cbn [bind]. intros H; inversion H; subst.
      eapply carnivore_moves; eauto.
    + intros H; inversion H; subst; constructor.
Qed.

Lemma total_population_split (cells : Island) :
  total_population cells = (total_residents cells + total_transit cells)%nat.
Proof.
  unfold total_population, total_residents, total_transit, list_sum.
  induction cells as [|[k g] rest IH]; simpl; [reflexivity|].
  rewrite IH; lia.
Qed.

Lemma migration_step_population (c : coordinate) (cells cells' : Island)
      (a : animal) :
  migration_step c cells a cells' ->
  total_population cells' = total_population cells.
Proof.
  intros H; destruct H as [a|h n target self hs hs' ms Hn Ht Hm Hs Hh Hms Hr
                            |k n target self cs cs' ms Hn Ht Hm Hs Hc Hms Hr];
    [reflexivity| |].
  - apply neighbour_is_elsewhere in Hn.
    set (target' := with_migrated_herbivores (Some (ms ++ [h])) target).
    set (self' := with_herbivores (Some hs') self).
    set (pop := fun g => (resident_count g + transit_count g)%nat).
    assert (H1 := island_set_sum pop cells n target target' Ht).
    assert (Hs1 : island_get (island_set cells n target') c = Ok self)
      by (rewrite island_get_set_other; auto).
    assert (H2 := island_set_sum pop (island_set cells n target') c self self'
                                 Hs1).
    apply list_remove_length in Hr.
    change (list_sum (map (fun cg => pop (snd cg)) (island_set (island_set cells n target') c self'))
            = list_sum (map (fun cg => pop (snd cg)) cells)).
    assert (pop target' = S (pop target)).
    { unfold pop, target', resident_count, transit_count; cbn.
      rewrite Hms; cbn; rewrite length_app; cbn; lia. }
    assert (pop self = S (pop self')).
    { unfold pop, self', resident_count, transit_count; cbn.
      rewrite Hh; cbn; lia. }
    lia.
  - apply neighbour_is_elsewhere in Hn.
    set (target' := with_migrated_carnivores (Some (ms ++ [k])) target).
    set (self' := with_carnivores (Some cs') self).
    set (pop := fun g => (resident_count g + transit_count g)%nat).
    assert (H1 := island_set_sum pop cells n target target' Ht).
    assert (Hs1 : island_get (island_set cells n target') c = Ok self)
      by (rewrite island_get_set_other; auto).
    assert (H2 := island_set_sum pop (island_set cells n target') c self self'
                                 Hs1).
    apply list_remove_length in Hr.
    change (list_sum (map (fun cg => pop (snd cg)) (island_set (island_set cells n target') c self'))
            = list_sum (map (fun cg => pop (snd cg)) cells)).
    assert (pop target' = S (pop target)).
    { unfold pop, target', resident_count, transit_count; cbn.
      rewrite Hms; cbn; rewrite length_app; cbn; lia. }
    assert (pop self = S (pop self')).
    { unfold pop, self', resident_count, transit_count; cbn.
      rewrite Hc; cbn; lia. }
    lia.
Qed.

Lemma migrate_all_population (c : coordinate) (todo : list animal) :
  forall (cells cells' : Island) (env env' : Env),
    migrate_all c todo cells env = Ok (cells', env') ->
    total_population cells' = total_population cells.
Proof.
  induction todo as [|a rest IH]; intros cells cells' env env' H; cbn in H.
  - now inversion H.
  - destruct (migrate_one c a cells env) as [[cells1 env1]|] eqn:E;
      [|discriminate].
    cbn [bind] in H.
    apply migrate_one_step, migration_step_population in E.
    rewrite (IH _ _ _ _ H); exact E.
Qed.

Lemma animal_migration_population (cells cells' : Island) (c : coordinate)
      (env env' : Env) :
  animal_migration cells c env = Ok (cells', env') ->
  total_population cells' = total_population cells.
Proof.
  unfold animal_migration.
  destruct (island_get cells c) as [self|]; [|discriminate]; cbn [bind].
  destruct (herbivores self); [|discriminate]; cbn [attr bind].
  destruct (carnivores self); [|discriminate]; cbn [attr bind].
  apply migrate_all_population.
Qed.

(** What [migration_finished] returns. *)
Lemma migration_finished_result (g g' : Geography) :
  migration_finished g = Ok g' ->
  exists hs cs mhs mcs,
    herbivores g = Some hs /\ carnivores g = Some cs
    /\ migrated_herbivores g = Some mhs /\ migrated_carnivores g = Some mcs
    /\ g' = mkGeography (geography g) (movable g) (f_max g) (fodder g)
                        (Some (hs ++ mhs)) (Some (cs ++ mcs))
                        (Some []) (Some []).
Proof.
  unfold migration_finished.
  destruct (herbivores g) as [hs|] eqn:Hh; [|discriminate]; cbn [attr bind].
  destruct (migrated_herbivores g) as [mhs|] eqn:Hmh; [|discriminate].
  cbn [attr bind with_herbivores with_migrated_herbivores carnivores
       migrated_carnivores].
  destruct (carnivores g) as [cs|] eqn:Hc; [|discriminate]; cbn [attr bind].
  destruct (migrated_carnivores g) as [mcs|] eqn:Hmc; [|discriminate].
  cbn [attr bind].
  intros H; inversion H; subst; clear H.
  exists hs, cs, mhs, mcs; repeat split; auto.
Qed.

Lemma migration_finished_counts (g g' : Geography) :
  migration_finished g = Ok g' ->
  resident_count g' = (resident_count g + transit_count g)%nat
  /\ transit_count g' = O
  /\ movable g' = movable g.
Proof.
  intros H.
  apply migration_finished_result in H
    as (hs & cs & mhs & mcs & Hh & Hc & Hmh & Hmc & ->).
  unfold resident_count, transit_count; cbn.
  rewrite Hh, Hc, Hmh, Hmc; cbn; rewrite !length_app.
  repeat split; lia.
Qed.


(** ** Aging, death and the second loop *)

Lemma animal_aging_result (g g' : Geography) :
  animal_aging g = Ok g' ->
  exists hs cs,
    herbivores g = Some hs /\ carnivores g = Some cs
    /\ g' = with_carnivores (Some (map age_carnivore cs))
              (with_herbivores (Some (map age_herbivore hs)) g).
Proof.
  unfold animal_aging.
  destruct (herbivores g) as [hs|]; [|discriminate]; cbn [attr bind].
  destruct (carnivores g) as [cs|]; [|discriminate]; cbn [attr bind].
  intros H; inversion H; now exists hs, cs.
Qed.

Lemma residents_removed_refl (g : Geography) : residents_removed g g.
Proof.
  unfold residents_removed, same_outside_residents.
  repeat split; auto using incl_refl.
Qed.

Lemma residents_removed_trans (g1 g2 g3 : Geography) :
  residents_removed g1 g2 -> residents_removed g2 g3 ->
  residents_removed g1 g3.
Proof.
  intros ((A1 & A2 & A3 & A4 & A5 & A6) & Bh & Bc & Bn & Ch & Cc)
         ((D1 & D2 & D3 & D4 & D5 & D6) & Eh & Ec & En & Fh & Fc).
  unfold residents_removed, same_outside_residents.
  repeat split; try congruence; try lia; auto.
  - eapply incl_tran; eassumption.
  - eapply incl_tran; eassumption.
Qed.

Lemma herbivore_removed (h : Herbivore.t) (g : Geography)
      (hs hs' : list Herbivore.t) :
  herbivores g = Some hs ->
  list_remove (same_herbivore h) hs = Ok hs' ->
  residents_removed g (with_herbivores (Some hs') g).
Proof.
  intros Hh Hr.
  unfold residents_removed, same_outside_residents, resident_count; cbn.
  rewrite Hh; cbn. pose proof (list_remove_length _ _ _ Hr).
  repeat split; auto using incl_refl; try lia; try discriminate.
  eapply list_remove_incl; eassumption.
Qed.

Lemma carnivore_removed (k : Carnivore.t) (g : Geography)
      (cs cs' : list Carnivore.t) :
  carnivores g = Some cs ->
  list_remove (same_carnivore k) cs = Ok cs' ->
  residents_removed g (with_carnivores (Some cs') g).
Proof.
  intros Hc Hr.
  unfold residents_removed, same_outside_residents, resident_count; cbn.
  rewrite Hc; cbn. pose proof (list_remove_length _ _ _ Hr).
  repeat split; auto using incl_refl; try lia; try discriminate.
  eapply list_remove_incl; eassumption.
Qed.

Lemma bury_spec (dead : list animal) :
  forall g g', bury dead g = Ok g' -> residents_removed g g'.
Proof.
  induction dead as [|a rest IH]; intros g g' H; cbn [bury] in H.
  - inversion H; subst; apply residents_removed_refl.
  - destruct (herbivores g) as [hs|] eqn:Hh; [|discriminate].
    cbn [attr bind] in H.
    destruct a as [h|k].
    + destruct (existsb (same_herbivore h) hs).
      * destruct (list_remove (same_herbivore h) hs) as [hs'|] eqn:Hr;
          [|discriminate].
        cbn [bind] in H.
        eapply residents_removed_trans; [|apply (IH _ _ H)].
        eapply herbivore_removed; eassumption.
      * destruct (carnivores g) eqn:Hc; [|discriminate].
        cbn [attr bind] in H. now apply IH.
    + destruct (carnivores g) as [cs|] eqn:Hc; [|discriminate].
      cbn [attr bind] in H.
      destruct (existsb (same_carnivore k) cs).
      * destruct (list_remove (same_carnivore k) cs) as [cs'|] eqn:Hr;
          [|discriminate].
        cbn [bind] in H.
        eapply residents_removed_trans; [|apply (IH _ _ H)].
        eapply carnivore_removed; eassumption.
      * now apply IH.
Qed.

Lemma animal_death_spec (g g' : Geography) (env env' : Env) :
  animal_death g env = Ok (g', env') ->
  residents_removed g g'
  /\ herbivores g' <> None /\ carnivores g' <> None.
Proof.
  unfold animal_death.
  destruct (herbivores g) as [hs|] eqn:Hh; [|discriminate]; cbn [attr bind].
  destruct (carnivores g) as [cs|] eqn:Hc; [|discriminate]; cbn [attr bind].
  destruct (dead_among _ env) as [dead env1].
  destruct (bury dead g) as [g1|] eqn:Hb; [|discriminate]; cbn [bind].
  intros H; inversion H; subst.
  pose proof (bury_spec dead g g' Hb) as Hrem.
  split; [assumption|].
  destruct Hrem as (_ & _ & _ & _ & E & F).
  split; [apply E | apply F]; congruence.
Qed.

Lemma island_get_app_fresh (done rest : Island) (k : coordinate)
      (g : Geography) :
  ~ In k (map fst done) ->
  island_get (done ++ (k, g) :: rest) k = Ok g.
Proof.
  induction done as [|[k0 g0] done IH]; cbn; intros Hn.
  - now rewrite coordinate_eqb_refl.
  - destruct (coordinate_eqb k0 k) eqn:E.
    + apply coordinate_eqb_eq in E; subst; tauto.
    + apply IH; tauto.
Qed.

Lemma island_set_app_fresh (done rest : Island) (k : coordinate)
      (g g' : Geography) :
  ~ In k (map fst done) ->
  island_set (done ++ (k, g) :: rest) k g' = done ++ (k, g') :: rest.
Proof.
  induction done as [|[k0 g0] done IH]; cbn; intros Hn.
  - now rewrite coordinate_eqb_refl.
  - destruct (coordinate_eqb k0 k) eqn:E.
    + apply coordinate_eqb_eq in E; subst; tauto.
    + rewrite IH; tauto.
Qed.

(** The second loop works cell by cell: with distinct keys, the island it
    returns holds, at every coordinate, what the body of the loop made of
    the cell that was there. *)
Lemma second_pass_cellwise (todo : Island) :
  forall (done cells' : Island) (env env' : Env),
    NoDup (map fst (done ++ todo)) ->
    second_pass (map fst todo) (done ++ todo) env = Ok (cells', env') ->
    exists todo',
      cells' = done ++ todo'
      /\ Forall2 (fun cg cg' => fst cg' = fst cg
                                /\ second_pass_leaves (snd cg) (snd cg'))
                 todo todo'.
Proof.
  induction todo as [|[k g] rest IH]; intros done cells' env env' Hnd H.
  - cbn in H; inversion H; subst. exists []; split; [reflexivity | constructor].
  - cbn [map fst second_pass] in H.
    assert (Hfresh : ~ In k (map fst done)).
    { rewrite map_app in Hnd; cbn in Hnd.
      apply NoDup_remove_2 in Hnd; rewrite in_app_iff in Hnd; tauto. }
    unfold second_pass_cell in H.
    rewrite island_get_app_fresh in H by assumption.
    cbn [bind] in H.
    assert (Hshift : forall g3, done ++ (k, g3) :: rest
                                = (done ++ [(k, g3)]) ++ rest)
      by (intros; now rewrite <- app_assoc).
    assert (Hnd' : forall g3, NoDup (map fst ((done ++ [(k, g3)]) ++ rest))).
    { intros g3; rewrite <- Hshift.
      rewrite map_app in *; cbn [map fst] in *; exact Hnd. }
    destruct (movable g) eqn:Hm.
    + destruct (migration_finished g) as [g1|] eqn:E1; [|discriminate].
      cbn [bind] in H.
      destruct (animal_aging g1) as [g2|] eqn:E2; [|discriminate].
      cbn [bind] in H.
      destruct (animal_death g2 env) as [[g3 env1]|] eqn:E3; [|discriminate].
      cbn [bind] in H.
      rewrite island_set_app_fresh in H by assumption.
      rewrite Hshift in H.
      destruct (IH _ _ _ _ (Hnd' g3) H) as (todo' & -> & Hall).
      exists ((k, g3) :: todo'); split; [now rewrite <- app_assoc|].
      constructor; [|assumption].
      split; [reflexivity|]; cbn [snd].
      exists g1; split.
      * unfold merge_leaves; now rewrite Hm.
      * unfold aging_and_death_leave.
        rewrite (proj2 (proj2 (migration_finished_counts g g1 E1))), Hm.
        now exists g2, env, env1.
    + rewrite Hshift in H.
      destruct (IH _ _ _ _ (Hnd' g) H) as (todo' & -> & Hall).
      exists ((k, g) :: todo'); split; [now rewrite <- app_assoc|].
      constructor; [|assumption].
      split; [reflexivity|]; cbn [snd].
      exists g; split.
      * unfold merge_leaves; now rewrite Hm.
      * unfold aging_and_death_leave; now rewrite Hm.
Qed.


(** ** Population counts through migration and merge *)

Lemma animal_aging_counts (g g' : Geography) :
  animal_aging g = Ok g' ->
  resident_count g' = resident_count g
  /\ transit_count g' = transit_count g
  /\ movable g' = movable g.
Proof.
  intros H; apply animal_aging_result in H as (hs & cs & Hh & Hc & ->).
  unfold resident_count, transit_count; cbn.
  rewrite Hh, Hc; cbn; rewrite !length_map; auto.
Qed.

Lemma residents_removed_transit (g g' : Geography) :
  residents_removed g g' -> transit_count g' = transit_count g.
Proof.
  intros ((_ & _ & _ & _ & Hh & Hc) & _).
  unfold transit_count; now rewrite Hh, Hc.
Qed.

Lemma merged_cell_counts (g g1 g' : Geography) :
  (movable g = false -> transit_count g = O) ->
  merge_leaves g g1 -> aging_and_death_leave g1 g' ->
  resident_count g1 = (resident_count g + transit_count g)%nat
  /\ transit_count g1 = O /\ transit_count g' = O
  /\ (resident_count g' <= resident_count g1)%nat.
Proof.
  unfold merge_leaves, aging_and_death_leave; intros Hwater Hm Ha.
  destruct (movable g) eqn:Hmov.
  - destruct (migration_finished_counts g g1 Hm) as (Hr & Ht & Hmov1).
    rewrite Hmov1, Hmov in Ha.
    destruct Ha as (g2 & env1 & env2 & Hage & Hdeath).
    destruct (animal_aging_counts g1 g2 Hage) as (Hr2 & Ht2 & _).
    apply animal_death_spec in Hdeath as (Hrem & _).
    pose proof (residents_removed_transit g2 g' Hrem) as Ht3.
    destruct Hrem as (_ & _ & _ & Hle & _).
    repeat split; lia.
  - subst g1; rewrite Hmov in Ha; subst g'.
    specialize (Hwater eq_refl); repeat split; lia.
Qed.

Lemma second_pass_splits (cells cells' : Island) :
  Forall (fun cg => movable (snd cg) = false -> transit_count (snd cg) = O)
         cells ->
  Forall2 (fun cg cg' => fst cg' = fst cg
                         /\ second_pass_leaves (snd cg) (snd cg'))
          cells cells' ->
  exists merged,
    Forall2 (fun cg cg' => fst cg' = fst cg
                           /\ merge_leaves (snd cg) (snd cg')) cells merged
    /\ Forall2 (fun cg cg' => fst cg' = fst cg
                              /\ aging_and_death_leave (snd cg) (snd cg'))
               merged cells'
    /\ total_residents merged = (total_residents cells + total_transit cells)%nat
    /\ total_transit merged = O
    /\ total_transit cells' = O
    /\ (total_residents cells' <= total_residents merged)%nat.
Proof.
  intros Hwater H; induction H as [|[k g] [k' g'] cells cells' [Hk Hg] _ IH].
  - exists []; repeat split; constructor.
  - inversion Hwater as [|? ? Hw Hwater']; subst.
    destruct (IH Hwater') as (merged & M1 & M2 & C1 & C2 & C3 & C4).
    cbn [fst snd] in *; subst k'.
    destruct Hg as (g1 & Hm & Ha).
    destruct (merged_cell_counts g g1 g' Hw Hm Ha) as (D1 & D2 & D3 & D4).
    exists ((k, g1) :: merged).
    unfold total_residents, total_transit, list_sum in *; simpl.
    repeat split; try lia.
    + constructor; [split; [reflexivity | assumption] | assumption].
    + constructor; [split; [reflexivity | assumption] | assumption].
Qed.

(** C8: [animal_migration] moves animals between lists without changing
    how many there are on the island; [migration_finished] turns a cell's
    transit animals into residents and empties its transit lists; and in
    the second loop of a year, taking every cell as its merge leaves it,
    the residents number what residents and animals in transit numbered
    before the loop, no animal is in transit, and none is in transit when
    the loop is over. *)
Theorem migration_preserves_population :
  (forall cells c env cells' env',
      animal_migration cells c env = Ok (cells', env') ->
      (total_residents cells' + total_transit cells'
       = total_residents cells + total_transit cells)%nat)
  /\ (forall g g',
      migration_finished g = Ok g' ->
      resident_count g' = (resident_count g + transit_count g)%nat
      /\ transit_count g' = O)
  /\ (forall cells env cells' env',
      NoDup (map fst cells) ->
      Forall (fun cg => movable (snd cg) = false ->
                        transit_count (snd cg) = O) cells ->
      second_pass (map fst cells) cells env = Ok (cells', env') ->
      exists merged,
        Forall2 (fun cg cg' => fst cg' = fst cg
                               /\ merge_leaves (snd cg) (snd cg'))
                cells merged
        /\ Forall2 (fun cg cg' => fst cg' = fst cg
                                  /\ aging_and_death_leave (snd cg) (snd cg'))
                   merged cells'
        /\ total_residents merged
           = (total_residents cells + total_transit cells)%nat
        /\ total_transit merged = O
        /\ total_transit cells' = O
        /\ (total_residents cells' <= total_residents merged)%nat).
Proof.
  split; [|split].
  - intros cells c env cells' env' H.
    apply animal_migration_population in H.
    now rewrite <- !total_population_split.
  - intros g g' H; apply migration_finished_counts in H; tauto.
  - intros cells env cells' env' Hnd Hwater H.
    destruct (second_pass_cellwise cells [] cells' env env' Hnd H)
      as (todo' & -> & Hall).
    now apply second_pass_splits.
Qed.


(** ** The generator's stream of normal deviates *)

Lemma same_normal_stream_refl (env : Env) : same_normal_stream env env.
Proof. reflexivity. Qed.

Lemma same_normal_stream_trans (e1 e2 e3 : Env) :
  same_normal_stream e1 e2 -> same_normal_stream e2 e3 ->
  same_normal_stream e1 e3.
Proof. unfold same_normal_stream; congruence. Qed.

Lemma births_nonnegative_same (env env' : Env) :
  same_normal_stream env env' -> births_nonnegative env ->
  births_nonnegative env'.
Proof. unfold same_normal_stream, births_nonnegative; intros ->; auto. Qed.

Lemma random_random_stream (env : Env) :
  same_normal_stream env (snd (random_random env)).
Proof. reflexivity. Qed.

Lemma randbelow_stream (n : nat) (env : Env) :
  same_normal_stream env (snd (randbelow n env)).
Proof. reflexivity. Qed.

Lemma herbivore_init_stream (a : R) (w : option R) (env : Env) :
  same_normal_stream env (snd (Herbivore.init a w env)).
Proof. unfold Herbivore.init; destruct w; reflexivity. Qed.

Lemma carnivore_init_stream (a : R) (w : option R) (env : Env) :
  same_normal_stream env (snd (Carnivore.init a w env)).
Proof. unfold Carnivore.init; destruct w; reflexivity. Qed.

Lemma shuffle_from_stream {A : Type} (i : nat) :
  forall (x : list A) (env : Env),
    same_normal_stream env (snd (shuffle_from i x env)).
Proof.
  induction i as [|i IH]; intros x env; cbn [shuffle_from]; [reflexivity|].
  pose proof (randbelow_stream (S (S i)) env) as H.
  destruct (randbelow (S (S i)) env) as [j env1]; cbn [snd] in H.
  eapply same_normal_stream_trans; [exact H | apply IH].
Qed.

Lemma dies_stream (a : Animal.t) (env : Env) :
  same_normal_stream env (snd (Animal.dies a env)).
Proof.
  unfold Animal.dies; destruct (Reqb _ _); [reflexivity|].
  pose proof (random_random_stream env) as H.
  now destruct (random_random env).
Qed.

Lemma hunt_loop_stream (herbivores : list Herbivore.t) :
  forall dead e c env,
    same_normal_stream env (snd (Carnivore.hunt_loop herbivores dead e c env)).
Proof.
  induction herbivores as [|h rest IH]; intros dead e c env;
    cbn [Carnivore.hunt_loop]; [reflexivity|].
  destruct (Rgeb _ _); [reflexivity|].
  destruct (Rleb _ _); [apply IH|].
  destruct (Rltb _ (Carnivore.DeltaPhiMax c)); [|apply IH].
  pose proof (random_random_stream env) as H.
  destruct (random_random env) as [r env1]; cbn [snd] in H.
  destruct (Rltb r _);
    (eapply same_normal_stream_trans; [exact H | apply IH]).
Qed.

Lemma hunt_stream (herbivores : list Herbivore.t) (c : Carnivore.t)
      (env : Env) :
  same_normal_stream env (snd (Carnivore.hunt herbivores c env)).
Proof. rewrite hunt_projections; apply hunt_loop_stream. Qed.

Lemma herbivore_gives_birth_stream (N : nat) (h : Herbivore.t) (env : Env) :
  same_normal_stream env (snd (Herbivore.gives_birth N h env)).
Proof.
  unfold Herbivore.gives_birth.
  pose proof (random_random_stream env) as H.
  destruct (random_random env) as [r env1]; cbn [snd] in H.
  destruct (_ && _); [|exact H].
  pose proof (herbivore_init_stream 0 None env1) as H1.
  destruct (Herbivore.init 0 None env1) as [b env2]; cbn [snd] in H1.
  destruct (Rleb _ _); cbn [snd];
    eapply same_normal_stream_trans; eassumption.
Qed.

Lemma carnivore_gives_birth_stream (N : nat) (c : Carnivore.t) (env : Env) :
  same_normal_stream env (snd (Carnivore.gives_birth N c env)).
Proof.
  unfold Carnivore.gives_birth.
  pose proof (random_random_stream env) as H.
  destruct (random_random env) as [r env1]; cbn [snd] in H.
  destruct (_ && _); [|exact H].
  pose proof (carnivore_init_stream 0 None env1) as H1.
  destruct (Carnivore.init 0 None env1) as [b env2]; cbn [snd] in H1.
  destruct (Rleb _ _); cbn [snd];
    eapply same_normal_stream_trans; eassumption.
Qed.

Lemma herbivores_breed_stream (N : nat) (residents : list Herbivore.t) :
  forall env, same_normal_stream env (snd (herbivores_breed N residents env)).
Proof.
  induction residents as [|h rest IH]; intros env; cbn [herbivores_breed];
    [reflexivity|].
  destruct (Reqb _ _).
  - specialize (IH env).
    now destruct (herbivores_breed N rest env) as [[? ?] ?].
  - pose proof (herbivore_gives_birth_stream N h env) as H.
    destruct (Herbivore.gives_birth N h env) as [[baby parent] env1].
    specialize (IH env1).
    destruct (herbivores_breed N rest env1) as [[? ?] ?]; cbn [snd] in *.
    eapply same_normal_stream_trans; eassumption.
Qed.

Lemma carnivores_breed_stream (N : nat) (residents : list Carnivore.t) :
  forall env, same_normal_stream env (snd (carnivores_breed N residents env)).
Proof.
  induction residents as [|c rest IH]; intros env; cbn [carnivores_breed];
    [reflexivity|].
  destruct (Reqb _ _).
  - specialize (IH env).
    now destruct (carnivores_breed N rest env) as [[? ?] ?].
  - pose proof (carnivore_gives_birth_stream N c env) as H.
    destruct (Carnivore.gives_birth N c env) as [[baby parent] env1].
    specialize (IH env1).
    destruct (carnivores_breed N rest env1) as [[? ?] ?]; cbn [snd] in *.
    eapply same_normal_stream_trans; eassumption.
Qed.

Lemma dead_among_stream (l : list animal) :
  forall env, same_normal_stream env (snd (dead_among l env)).
Proof.
  induction l as [|a rest IH]; intros env; cbn [dead_among]; [reflexivity|].
  pose proof (dies_stream (animal_base a) env) as H.
  destruct (Animal.dies (animal_base a) env) as [d env1]; cbn [snd] in H.
  specialize (IH env1).
  destruct (dead_among rest env1) as [dead env2]; cbn [snd] in *.
  eapply same_normal_stream_trans; eassumption.
Qed.


(** ** Quantities that stay non-negative: the animals *)

Lemma calculate_fitness_eta (a : Animal.t) :
  Animal.eta (Animal.calculate_fitness a) = Animal.eta a.
Proof. apply calculate_fitness_constants. Qed.

Lemma feed_healthy (f : R) (h : Herbivore.t) :
  0 <= f -> healthy_herbivore h ->
  0 <= fst (Herbivore.feed f h) /\ healthy_herbivore (snd (Herbivore.feed f h)).
Proof.
  unfold healthy_herbivore, healthy, Herbivore.feed.
  intros Hf (Hw & Hb & HF & He).
  destruct (Rgeb f (Herbivore.F h)); cbn [fst snd];
    unfold Herbivore.weight; cbn;
    rewrite calculate_fitness_weight, calculate_fitness_eta; cbn;
    fold (Herbivore.weight h); repeat split; auto; nra.
Qed.

Lemma age_herbivore_healthy (h : Herbivore.t) :
  healthy_herbivore h -> healthy_herbivore (age_herbivore h).
Proof.
  unfold healthy_herbivore, healthy, age_herbivore, Animal.update_age.
  intros (Hw & Hb & HF & He).
  unfold Herbivore.weight in *; cbn.
  rewrite calculate_fitness_weight, calculate_fitness_eta; cbn.
  repeat split; auto; nra.
Qed.

Lemma age_carnivore_healthy (c : Carnivore.t) :
  healthy_carnivore c -> healthy_carnivore (age_carnivore c).
Proof.
  unfold healthy_carnivore, healthy, age_carnivore, Animal.update_age.
  intros (Hw & Hb & HF & He).
  unfold Carnivore.weight in *; cbn.
  rewrite calculate_fitness_weight, calculate_fitness_eta; cbn.
  repeat split; auto; nra.
Qed.

Lemma eat_eta (eaten : R) (c : Carnivore.t) :
  Animal.eta (Carnivore.base (Carnivore.eat eaten c))
  = Animal.eta (Carnivore.base c).
Proof. unfold Carnivore.eat; cbn; now rewrite calculate_fitness_eta. Qed.

Lemma hunt_loop_eta (herbivores : list Herbivore.t) :
  forall dead e c env,
    Animal.eta (Carnivore.base
                  (snd (fst (Carnivore.hunt_loop herbivores dead e c env))))
    = Animal.eta (Carnivore.base c).
Proof.
  induction herbivores as [|h rest IH]; intros dead e c env; [reflexivity|].
  destruct (hunt_loop_step h rest dead e c env)
    as [[_ E]|[[env1 E]|[_ [env1 E]]]]; rewrite E.
  - reflexivity.
  - apply IH.
  - rewrite IH; apply eat_eta.
Qed.

Lemma hunt_healthy (herbivores : list Herbivore.t) (c : Carnivore.t)
      (env : Env) :
  Forall healthy_herbivore herbivores -> healthy_carnivore c ->
  healthy_carnivore (snd (fst (Carnivore.hunt herbivores c env))).
Proof.
  intros Hprey (Hw & Hb & HF & He).
  rewrite hunt_projections; cbn [fst snd].
  destruct (hunt_loop_spec herbivores [] 0 c env)
    as (_ & EF & Eb & _ & Ew & _ & Hmono).
  assert (Hnonneg : Forall (fun h => 0 <= Herbivore.weight h) herbivores).
  { eapply Forall_impl; [|exact Hprey]. intros h Hh; apply Hh. }
  specialize (Hmono Hnonneg).
  unfold healthy_carnivore, healthy.
  rewrite EF, Eb, Ew, hunt_loop_eta.
  repeat split; auto; nra.
Qed.

Lemma newborn_herbivore_healthy (env : Env) :
  births_nonnegative env ->
  healthy_herbivore (fst (Herbivore.init 0 None env)).
Proof.
  intros Hb; unfold healthy_herbivore, healthy.
  rewrite newborn_herbivore_weight.
  pose proof (herbivore_init_constants 0 None env) as Hc.
  assert (He : Animal.eta (Herbivore.base (fst (Herbivore.init 0 None env)))
               = 0.05) by exact (f_equal k_eta Hc).
  assert (Hbeta : Herbivore.beta (fst (Herbivore.init 0 None env)) = 0.9)
    by exact (f_equal k_beta Hc).
  assert (HF : Herbivore.F (fst (Herbivore.init 0 None env)) = 10)
    by exact (f_equal k_F Hc).
  rewrite He, Hbeta, HF.
  repeat split; try lra. apply Hb.
Qed.

Lemma newborn_carnivore_healthy (env : Env) :
  births_nonnegative env ->
  healthy_carnivore (fst (Carnivore.init 0 None env)).
Proof.
  intros Hb; unfold healthy_carnivore, healthy.
  rewrite newborn_carnivore_weight.
  pose proof (carnivore_init_constants 0 None env) as Hc.
  assert (He : Animal.eta (Carnivore.base (fst (Carnivore.init 0 None env)))
               = 0.125) by exact (f_equal k_eta Hc).
  assert (Hbeta : Carnivore.beta (fst (Carnivore.init 0 None env)) = 0.75)
    by exact (f_equal k_beta Hc).
  assert (HF : Carnivore.F (fst (Carnivore.init 0 None env)) = 50)
    by exact (f_equal k_F Hc).
  rewrite He, Hbeta, HF.
  repeat split; try lra. apply Hb.
Qed.

Lemma herbivore_reduced_healthy (w : R) (h : Herbivore.t) :
  w <= Herbivore.weight h -> healthy_herbivore h ->
  healthy_herbivore
    (Herbivore.with_base (Animal.weight_reduction w (Herbivore.base h)) h).
Proof.
  intros Hle (Hw & Hbeta & HF & He).
  unfold healthy_herbivore, healthy, Herbivore.weight in *; cbn.
  rewrite weight_reduction_weight.
  unfold Animal.weight_reduction; rewrite calculate_fitness_eta; cbn.
  repeat split; auto; lra.
Qed.

Lemma carnivore_reduced_healthy (w : R) (c : Carnivore.t) :
  w <= Carnivore.weight c -> healthy_carnivore c ->
  healthy_carnivore
    (Carnivore.with_base (Animal.weight_reduction w (Carnivore.base c)) c).
Proof.
  intros Hle (Hw & Hbeta & HF & He).
  unfold healthy_carnivore, healthy, Carnivore.weight in *; cbn.
  rewrite weight_reduction_weight.
  unfold Animal.weight_reduction; rewrite calculate_fitness_eta; cbn.
  repeat split; auto; lra.
Qed.

Lemma herbivore_gives_birth_healthy (N : nat) (h : Herbivore.t) (env : Env) :
  births_nonnegative env -> healthy_herbivore h ->
  healthy_herbivore (snd (fst (Herbivore.gives_birth N h env)))
  /\ forall b, fst (fst (Herbivore.gives_birth N h env)) = Some b ->
               healthy_herbivore b.
Proof.
  intros Hb Hh.
  destruct (herbivore_gives_birth_cases N h env) as [[Hle E]|[e E]];
    rewrite E; cbn [fst snd]; [|split; [assumption | discriminate]].
  assert (Hbaby : healthy_herbivore
                    (fst (Herbivore.init 0 None (snd (random_random env))))).
  { apply newborn_herbivore_healthy.
    eapply births_nonnegative_same; [apply random_random_stream | exact Hb]. }
  split; [|intros b Hs; inversion Hs; subst; exact Hbaby].
  now apply herbivore_reduced_healthy.
Qed.

Lemma carnivore_gives_birth_healthy (N : nat) (c : Carnivore.t) (env : Env) :
  births_nonnegative env -> healthy_carnivore c ->
  healthy_carnivore (snd (fst (Carnivore.gives_birth N c env)))
  /\ forall b, fst (fst (Carnivore.gives_birth N c env)) = Some b ->
               healthy_carnivore b.
Proof.
  intros Hb Hh.
  destruct (carnivore_gives_birth_cases N c env) as [[Hle E]|[e E]];
    rewrite E; cbn [fst snd]; [|split; [assumption | discriminate]].
  assert (Hbaby : healthy_carnivore
                    (fst (Carnivore.init 0 None (snd (random_random env))))).
  { apply newborn_carnivore_healthy.
    eapply births_nonnegative_same; [apply random_random_stream | exact Hb]. }
  split; [|intros b Hs; inversion Hs; subst; exact Hbaby].
  now apply carnivore_reduced_healthy.
Qed.


(** ** Sorting, shuffling and removal keep what holds of every element *)

Lemma insert_by_fitness_forall (P : Herbivore.t -> Prop) (x : Herbivore.t)
      (l : list Herbivore.t) :
  P x -> Forall P l -> Forall P (insert_by_fitness x l).
Proof.
  intros Hx; induction 1 as [|y ys Hy Hys IH]; cbn [insert_by_fitness];
    [now constructor|].
  destruct (Rltb _ _); repeat constructor; auto.
Qed.

Lemma sort_by_fitness_forall (P : Herbivore.t -> Prop)
      (l : list Herbivore.t) :
  Forall P l -> Forall P (sort_by_fitness l).
Proof.
  induction 1 as [|x xs Hx Hxs IH]; cbn; [constructor|].
  now apply insert_by_fitness_forall.
Qed.

Lemma set_nth_forall {A : Type} (P : A -> Prop) (i : nat) (v : A) :
  forall x, P v -> Forall P x -> Forall P (set_nth i v x).
Proof.
  induction i as [|i IH]; intros x Hv Hx; destruct Hx as [|y ys Hy Hys];
    cbn; try constructor; auto.
Qed.

Lemma swap_forall {A : Type} (P : A -> Prop) (i j : nat) (x : list A) :
  Forall P x -> Forall P (swap i j x).
Proof.
  intros Hx; unfold swap.
  destruct (nth_error x i) as [xi|] eqn:Ei; [|assumption].
  destruct (nth_error x j) as [xj|] eqn:Ej; [|assumption].
  rewrite Forall_forall in Hx.
  apply set_nth_forall; [apply Hx; eapply nth_error_In; eassumption|].
  apply set_nth_forall; [apply Hx; eapply nth_error_In; eassumption|].
  now apply Forall_forall.
Qed.

Lemma shuffle_from_forall {A : Type} (P : A -> Prop) (i : nat) :
  forall (x : list A) (env : Env),
    Forall P x -> Forall P (fst (shuffle_from i x env)).
Proof.
  induction i as [|i IH]; intros x env Hx; cbn [shuffle_from]; [assumption|].
  destruct (randbelow (S (S i)) env) as [j env1].
  now apply IH, swap_forall.
Qed.

Lemma random_shuffle_forall {A : Type} (P : A -> Prop) (x : list A)
      (env : Env) :
  Forall P x -> Forall P (fst (random_shuffle x env)).
Proof. apply shuffle_from_forall. Qed.

Lemma incl_forall {A : Type} (P : A -> Prop) (l l' : list A) :
  incl l' l -> Forall P l -> Forall P l'.
Proof. intros Hi H; rewrite Forall_forall in *; auto. Qed.

(** ** Removal of the prey a hunt returns *)

Lemma subseq_refl {A : Type} (l : list A) : subseq l l.
Proof. induction l; constructor; auto. Qed.

Lemma subseq_nil_l {A : Type} (l : list A) : subseq [] l.
Proof. induction l; constructor; auto. Qed.

Lemma subseq_tail {A : Type} (x : A) (l1 l2 : list A) :
  subseq (x :: l1) l2 -> subseq l1 l2.
Proof.
  intros H; remember (x :: l1) as l eqn:E.
  induction H as [|y a b H IH|y a b H IH]; [discriminate| |].
  - inversion E; subst; now constructor.
  - constructor; auto.
Qed.

Lemma subseq_app_head {A : Type} (l1 l2 l3 : list A) :
  subseq l1 l2 -> subseq l1 (l3 ++ l2).
Proof. induction l3; cbn; [auto | constructor; auto]. Qed.

Lemma subseq_cons_app {A : Type} (x : A) (l1 l2 : list A) :
  subseq l1 l2 -> forall pre, subseq (pre ++ [x] ++ l1) (pre ++ x :: l2).
Proof.
  intros H pre; induction pre; cbn; constructor; auto.
Qed.

(** Removing, one after the other, the elements of a subsequence. *)
Lemma list_remove_subseq (k : Herbivore.t) (ks hs : list Herbivore.t) :
  subseq (k :: ks) hs ->
  exists hs', list_remove (same_herbivore k) hs = Ok hs' /\ subseq ks hs'.
Proof.
  intros H; remember (k :: ks) as l eqn:E.
  induction H as [|y a b H IH|y a b H IH]; [discriminate| |].
  - inversion E; subst; cbn [list_remove].
    rewrite same_herbivore_refl; now exists b.
  - subst a; cbn [list_remove].
    destruct (same_herbivore k y).
    + exists b; split; [reflexivity | now apply subseq_tail in H].
    + destruct (IH eq_refl) as (hs' & -> & Hs).
      exists (y :: hs'); split; [reflexivity | now constructor].
Qed.

Lemma hunt_loop_subseq (herbivores : list Herbivore.t) :
  forall dead e c env,
  exists ks,
    fst (fst (fst (Carnivore.hunt_loop herbivores dead e c env))) = dead ++ ks
    /\ subseq ks herbivores.
Proof.
  induction herbivores as [|h rest IH]; intros dead e c env.
  - exists []; cbn; rewrite app_nil_r; split; [reflexivity | constructor].
  - destruct (hunt_loop_step h rest dead e c env)
      as [[_ E]|[[env1 E]|[_ [env1 E]]]]; rewrite E.
    + exists []; cbn; rewrite app_nil_r; split;
        [reflexivity | apply subseq_nil_l].
    + destruct (IH dead e c env1) as (ks & -> & Hs).
      exists ks; split; [reflexivity | now constructor].
    + match goal with
      | |- context [Carnivore.hunt_loop rest ?d ?e' ?c' env1] =>
          destruct (IH d e' c' env1) as (ks & -> & Hs)
      end.
      exists (h :: ks); split; [now rewrite <- app_assoc | now constructor].
Qed.

Lemma hunt_kills_subseq (hs : list Herbivore.t) (c : Carnivore.t)
      (env : Env) :
  subseq (fst (fst (Carnivore.hunt hs c env))) hs.
Proof.
  rewrite hunt_projections; cbn [fst].
  destruct (hunt_loop_subseq hs [] 0 c env) as (ks & -> & Hs); exact Hs.
Qed.

Lemma subseq_incl {A : Type} (l1 l2 : list A) : subseq l1 l2 -> incl l1 l2.
Proof.
  induction 1 as [|x a b H IH|x a b H IH]; intros y Hy.
  - assumption.
  - destruct Hy as [->|Hy]; [now left | right; auto].
  - right; auto.
Qed.

Lemma herbivores_eaten_land (dead : list Herbivore.t) :
  forall k fm f hs cs mhs mcs,
    subseq dead hs ->
    exists hs',
      herbivores_eaten dead (land_cell k fm f hs cs mhs mcs)
      = Ok (land_cell k fm f hs' cs mhs mcs)
      /\ incl hs' hs.
Proof.
  induction dead as [|d rest IH]; intros k fm f hs cs mhs mcs Hs.
  - exists hs; split; [reflexivity | apply incl_refl].
  - cbn [herbivores_eaten land_cell herbivores attr bind].
    destruct (list_remove_subseq d rest hs Hs) as (hs1 & E & Hs1).
    rewrite E; cbn [bind with_herbivores].
    destruct (IH k fm f hs1 cs mhs mcs Hs1) as (hs' & E' & Hi).
    exists hs'; split; [exact E'|].
    eapply incl_tran; [exact Hi | eapply list_remove_incl; exact E].
Qed.


(** ** The stages of a year on a passable cell

    On a cell that is land every stage returns, leaves a cell that is
    land, draws from the same stream of normal deviates, and keeps the
    quantities of healthy animals non-negative. *)

Lemma herbivores_feed_land (todo : list Herbivore.t) :
  forall k fm f hs cs mhs mcs,
  exists todo' f',
    herbivores_feed todo (land_cell k fm f hs cs mhs mcs)
    = Ok (todo', land_cell k fm f' hs cs mhs mcs)
    /\ (0 <= f -> 0 <= f')
    /\ (0 <= f -> Forall healthy_herbivore todo ->
        Forall healthy_herbivore todo').
Proof.
  induction todo as [|h rest IH]; intros k fm f hs cs mhs mcs.
  - exists [], f; repeat split; auto.
  - cbn [herbivores_feed]; cell_simpl.
    pose proof (feed_healthy f h) as Hfeed.
    destruct (Herbivore.feed f h) as [eaten h']; cbn [fst snd] in Hfeed.
    unfold fodder_eaten; cell_simpl.
    destruct (Rltb (f - eaten) 0) eqn:Hlt; cell_simpl.
    + destruct (IH k fm 0 hs cs mhs mcs) as (rest' & f' & E & Hf & Hall).
      cell_simpl in E; rewrite E; cell_simpl.
      exists (h' :: rest'), f'; split; [reflexivity|].
      split; [intros _; apply Hf; lra|].
      intros H0 Hhs; inversion Hhs; subst.
      constructor; [now apply Hfeed | apply Hall; [lra | assumption]].
    + apply Rltb_false in Hlt.
      destruct (IH k fm (f - eaten) hs cs mhs mcs)
        as (rest' & f' & E & Hf & Hall).
      cell_simpl in E; rewrite E; cell_simpl.
      exists (h' :: rest'), f'; split; [reflexivity|].
      split; [intros _; now apply Hf|].
      intros H0 Hhs; inversion Hhs; subst.
      constructor; [now apply Hfeed | now apply Hall].
Qed.

Lemma carnivores_hunt_land (todo : list Carnivore.t) :
  forall k fm f hs cs mhs mcs env,
  exists todo' hs' env' calls,
    carnivores_hunt todo (land_cell k fm f hs cs mhs mcs) env
    = Ok (todo', land_cell k fm f hs' cs mhs mcs, env', calls)
    /\ incl hs' hs
    /\ same_normal_stream env env'
    /\ (Forall healthy_herbivore hs -> Forall healthy_carnivore todo ->
        Forall healthy_carnivore todo').
Proof.
  induction todo as [|c rest IH]; intros k fm f hs cs mhs mcs env.
  - exists [], hs, env, []; repeat split; auto using incl_refl.
  - cbn [carnivores_hunt]; cell_simpl.
    pose proof (hunt_kills_subseq hs c env) as Hsub.
    pose proof (hunt_stream hs c env) as Hstream.
    pose proof (hunt_healthy hs c env) as Hhealthy.
    destruct (Carnivore.hunt hs c env) as [[dead c'] env1].
    cbn [fst snd] in *.
    destruct (herbivores_eaten_land dead k fm f hs cs mhs mcs Hsub)
      as (hs1 & E & Hi).
    cell_simpl in E; rewrite E; cell_simpl.
    destruct (IH k fm f hs1 cs mhs mcs env1)
      as (rest' & hs' & env' & calls & E' & Hi' & Hs' & Hall).
    cell_simpl in E'; rewrite E'; cell_simpl.
    exists (c' :: rest'), hs', env', (mkHunt hs dead :: calls).
    split; [reflexivity|].
    split; [eapply incl_tran; eassumption|].
    split; [eapply same_normal_stream_trans; eassumption|].
    intros Hhs Hcs; inversion Hcs; subst.
    constructor; [now apply Hhealthy|].
    apply Hall; [eapply incl_forall; eassumption | assumption].
Qed.

Lemma feeding_land (k : terrain) (fm : option R) (f : R)
      (hs : list Herbivore.t) (cs : list Carnivore.t)
      (mhs : list Herbivore.t) (mcs : list Carnivore.t) (env : Env) :
  k <> Water -> (k = Desert \/ fm <> None) ->
  exists f' hs' cs' env' calls,
    feeding (land_cell k fm f hs cs mhs mcs) env
    = Ok (land_cell k fm f' hs' cs' mhs mcs, env', calls)
    /\ same_normal_stream env env'
    /\ (0 <= f -> (forall v, fm = Some v -> 0 <= v) ->
        Forall healthy_herbivore hs -> Forall healthy_carnivore cs ->
        0 <= f' /\ Forall healthy_herbivore hs'
        /\ Forall healthy_carnivore cs').
Proof.
  intros Hk Hfm.
  assert (Hgrow : exists f1,
             grow_fodder (land_cell k fm f hs cs mhs mcs)
             = Ok (land_cell k fm f1 hs cs mhs mcs)
             /\ (0 <= f -> (forall v, fm = Some v -> 0 <= v) -> 0 <= f1)).
  { unfold grow_fodder; cell_simpl.
    destruct k; try contradiction.
    - destruct fm as [v|]; [|destruct Hfm; [discriminate | contradiction]].
      exists v; split; [reflexivity | auto].
    - destruct fm as [v|]; [|destruct Hfm; [discriminate | contradiction]].
      exists v; split; [reflexivity | auto].
    - exists f; split; [reflexivity | auto]. }
  destruct Hgrow as (f1 & Eg & Hf1).
  unfold feeding; rewrite Eg; cell_simpl.
  unfold sort_herbivores_by_fitness; cell_simpl.
  destruct (herbivores_feed_land (sort_by_fitness hs) k fm f1
                                 (sort_by_fitness hs) cs mhs mcs)
    as (hs1 & f2 & Ef & Hf2 & Hhs1).
  cell_simpl in Ef; rewrite Ef; cell_simpl.
  unfold random_carnivore_order; cell_simpl.
  pose proof (shuffle_from_stream (Nat.pred (List.length cs)) cs env)
    as Hshuffle.
  pose proof (random_shuffle_forall healthy_carnivore cs env) as Hcs1.
  unfold random_shuffle in *.
  destruct (shuffle_from _ cs env) as [cs1 env1]; cbn [fst snd] in *.
  cell_simpl.
  destruct (carnivores_hunt_land cs1 k fm f2 hs1 cs1 mhs mcs env1)
    as (cs2 & hs2 & env2 & calls & Eh & Hi & Hstream & Hcs2).
  cell_simpl in Eh; rewrite Eh; cell_simpl.
  exists f2, hs2, cs2, env2, calls.
  split; [reflexivity|].
  split; [eapply same_normal_stream_trans; eassumption|].
  intros H0 Hmax Hhs Hcs.
  assert (Forall healthy_herbivore hs1).
  { apply Hhs1; [now apply Hf1 | now apply sort_by_fitness_forall]. }
  repeat split.
  - apply Hf2; now apply Hf1.
  - eapply incl_forall; eassumption.
  - apply Hcs2; [assumption | now apply Hcs1].
Qed.

Lemma herbivores_breed_healthy (N : nat) (residents : list Herbivore.t) :
  forall env,
    births_nonnegative env -> Forall healthy_herbivore residents ->
    Forall healthy_herbivore (fst (fst (herbivores_breed N residents env)))
    /\ Forall healthy_herbivore
              (snd (fst (herbivores_breed N residents env))).
Proof.
  induction residents as [|h rest IH]; intros env Hb Hall;
    cbn [herbivores_breed]; [split; constructor|].
  inversion Hall as [|? ? Hh Hrest]; subst.
  destruct (Reqb _ _).
  - destruct (IH env Hb Hrest) as [A B].
    destruct (herbivores_breed N rest env) as [[rest' babies] env'].
    cbn [fst snd] in *; split; [now constructor | assumption].
  - pose proof (herbivore_gives_birth_healthy N h env Hb Hh) as [Hp Hbaby].
    pose proof (herbivore_gives_birth_stream N h env) as Hs.
    destruct (Herbivore.gives_birth N h env) as [[baby parent] env1].
    cbn [fst snd] in *.
    destruct (IH env1 (births_nonnegative_same _ _ Hs Hb) Hrest) as [A B].
    destruct (herbivores_breed N rest env1) as [[rest' babies] env'].
    cbn [fst snd] in *; split; [now constructor|].
    destruct baby as [b|]; [constructor; auto | assumption].
Qed.

Lemma carnivores_breed_healthy (N : nat) (residents : list Carnivore.t) :
  forall env,
    births_nonnegative env -> Forall healthy_carnivore residents ->
    Forall healthy_carnivore (fst (fst (carnivores_breed N residents env)))
    /\ Forall healthy_carnivore
              (snd (fst (carnivores_breed N residents env))).
Proof.
  induction residents as [|c rest IH]; intros env Hb Hall;
    cbn [carnivores_breed]; [split; constructor|].
  inversion Hall as [|? ? Hh Hrest]; subst.
  destruct (Reqb _ _).
  - destruct (IH env Hb Hrest) as [A B].
    destruct (carnivores_breed N rest env) as [[rest' babies] env'].
    cbn [fst snd] in *; split; [now constructor | assumption].
  - pose proof (carnivore_gives_birth_healthy N c env Hb Hh) as [Hp Hbaby].
    pose proof (carnivore_gives_birth_stream N c env) as Hs.
    destruct (Carnivore.gives_birth N c env) as [[baby parent] env1].
    cbn [fst snd] in *.
    destruct (IH env1 (births_nonnegative_same _ _ Hs Hb) Hrest) as [A B].
    destruct (carnivores_breed N rest env1) as [[rest' babies] env'].
    cbn [fst snd] in *; split; [now constructor|].
    destruct baby as [b|]; [constructor; auto | assumption].
Qed.

Lemma procreation_land (k : terrain) (fm : option R) (f : R)
      (hs : list Herbivore.t) (cs : list Carnivore.t)
      (mhs : list Herbivore.t) (mcs : list Carnivore.t) (env : Env) :
  exists hs' cs' env',
    procreation (land_cell k fm f hs cs mhs mcs) env
    = Ok (land_cell k fm f hs' cs' mhs mcs, env')
    /\ same_normal_stream env env'
    /\ (births_nonnegative env ->
        Forall healthy_herbivore hs -> Forall healthy_carnivore cs ->
        Forall healthy_herbivore hs' /\ Forall healthy_carnivore cs').
Proof.
  unfold procreation; cell_simpl.
  set (N_h := List.length (filter _ hs)).
  pose proof (herbivores_breed_stream N_h hs env) as Hs1.
  pose proof (herbivores_breed_healthy N_h hs env) as Hh1.
  destruct (herbivores_breed N_h hs env) as [[hs' bh] env1].
  cbn [fst snd] in *; cell_simpl.
  set (N_c := List.length (filter _ cs)).
  pose proof (carnivores_breed_stream N_c cs env1) as Hs2.
  pose proof (carnivores_breed_healthy N_c cs env1) as Hh2.
  destruct (carnivores_breed N_c cs env1) as [[cs' bc] env2].
  cbn [fst snd] in *; cell_simpl.
  exists (hs' ++ bh), (cs' ++ bc), env2.
  split; [reflexivity|].
  split; [eapply same_normal_stream_trans; eassumption|].
  intros Hb Hhs Hcs.
  destruct (Hh1 Hb Hhs) as [A B].
  destruct (Hh2 (births_nonnegative_same _ _ Hs1 Hb) Hcs) as [C D].
  split; apply Forall_app; auto.
Qed.


Lemma migration_finished_land (k : terrain) (fm : option R) (f : R)
      (hs : list Herbivore.t) (cs : list Carnivore.t)
      (mhs : list Herbivore.t) (mcs : list Carnivore.t) :
  migration_finished (land_cell k fm f hs cs mhs mcs)
  = Ok (land_cell k fm f (hs ++ mhs) (cs ++ mcs) [] []).
Proof. reflexivity. Qed.

Lemma animal_aging_land (k : terrain) (fm : option R) (f : R)
      (hs : list Herbivore.t) (cs : list Carnivore.t)
      (mhs : list Herbivore.t) (mcs : list Carnivore.t) :
  animal_aging (land_cell k fm f hs cs mhs mcs)
  = Ok (land_cell k fm f (map age_herbivore hs) (map age_carnivore cs)
                  mhs mcs).
Proof. reflexivity. Qed.

Lemma bury_land (dead : list animal) :
  forall k fm f hs cs mhs mcs,
  exists hs' cs',
    bury dead (land_cell k fm f hs cs mhs mcs)
    = Ok (land_cell k fm f hs' cs' mhs mcs)
    /\ incl hs' hs /\ incl cs' cs.
Proof.
  induction dead as [|a rest IH]; intros k fm f hs cs mhs mcs.
  - exists hs, cs; repeat split; apply incl_refl.
  - cbn [bury]; cell_simpl.
    destruct a as [h|c].
    + destruct (existsb (same_herbivore h) hs) eqn:Ex.
      * destruct (list_remove_found _ _ Ex) as (hs1 & E).
        rewrite E; cell_simpl.
        destruct (IH k fm f hs1 cs mhs mcs) as (hs' & cs' & E' & Hh & Hc).
        cell_simpl in E'; rewrite E'.
        exists hs', cs'; repeat split; auto.
        eapply incl_tran; [exact Hh | eapply list_remove_incl; exact E].
      * destruct (IH k fm f hs cs mhs mcs) as (hs' & cs' & E' & Hh & Hc).
        cell_simpl in E'; rewrite E'.
        exists hs', cs'; repeat split; auto.
    + destruct (existsb (same_carnivore c) cs) eqn:Ex.
      * destruct (list_remove_found _ _ Ex) as (cs1 & E).
        rewrite E; cell_simpl.
        destruct (IH k fm f hs cs1 mhs mcs) as (hs' & cs' & E' & Hh & Hc).
        cell_simpl in E'; rewrite E'.
        exists hs', cs'; repeat split; auto.
        eapply incl_tran; [exact Hc | eapply list_remove_incl; exact E].
      * destruct (IH k fm f hs cs mhs mcs) as (hs' & cs' & E' & Hh & Hc).
        cell_simpl in E'; rewrite E'.
        exists hs', cs'; repeat split; auto.
Qed.

Lemma animal_death_land (k : terrain) (fm : option R) (f : R)
      (hs : list Herbivore.t) (cs : list Carnivore.t)
      (mhs : list Herbivore.t) (mcs : list Carnivore.t) (env : Env) :
  exists hs' cs' env',
    animal_death (land_cell k fm f hs cs mhs mcs) env
    = Ok (land_cell k fm f hs' cs' mhs mcs, env')
    /\ incl hs' hs /\ incl cs' cs
    /\ same_normal_stream env env'.
Proof.
  unfold animal_death; cell_simpl.
  pose proof (dead_among_stream (map AHerbivore hs ++ map ACarnivore cs) env)
    as Hs.
  destruct (dead_among _ env) as [dead env1]; cbn [snd] in Hs.
  destruct (bury_land dead k fm f hs cs mhs mcs) as (hs' & cs' & E & Hh & Hc).
  cell_simpl in E; rewrite E; cell_simpl.
  exists hs', cs', env1; repeat split; auto.
Qed.

(** The body of the second loop on a cell that is land. *)
Lemma second_pass_land (k : terrain) (fm : option R) (f : R)
      (hs : list Herbivore.t) (cs : list Carnivore.t)
      (mhs : list Herbivore.t) (mcs : list Carnivore.t) (env : Env) :
  exists hs' cs' env',
    (g1 <- migration_finished (land_cell k fm f hs cs mhs mcs) ;;
     g2 <- animal_aging g1 ;;
     animal_death g2 env)
    = Ok (land_cell k fm f hs' cs' [] [], env')
    /\ same_normal_stream env env'
    /\ (Forall healthy_herbivore (hs ++ mhs) -> Forall healthy_herbivore hs')
    /\ (Forall healthy_carnivore (cs ++ mcs) -> Forall healthy_carnivore cs').
Proof.
  rewrite migration_finished_land; cbn [bind].
  rewrite animal_aging_land; cbn [bind].
  destruct (animal_death_land k fm f (map age_herbivore (hs ++ mhs))
                              (map age_carnivore (cs ++ mcs)) [] [] env)
    as (hs' & cs' & env' & E & Hh & Hc & Hs).
  exists hs', cs', env'; repeat split; auto.
  - intros H; eapply incl_forall; [exact Hh|].
    apply Forall_map; eapply Forall_impl; [|exact H].
    intros; now apply age_herbivore_healthy.
  - intros H; eapply incl_forall; [exact Hc|].
    apply Forall_map; eapply Forall_impl; [|exact H].
    intros; now apply age_carnivore_healthy.
Qed.

(** ** The statistics of one cell *)

Lemma collect_samples_land (k : terrain) (fm : option R) (f : R)
      (hs : list Herbivore.t) (cs : list Carnivore.t)
      (mhs : list Herbivore.t) (mcs : list Carnivore.t) (s : YearStats) :
  collect_samples (land_cell k fm f hs cs mhs mcs) s
  = Ok (mkStats (herb_pop s) (carn_pop s)
                (herb_weights s ++ map Herbivore.weight hs)
                (carn_weights s ++ map Carnivore.weight cs)
                (herb_fitness s ++ map Herbivore.fitness hs)
                (carn_fitness s ++ map Carnivore.fitness cs)
                (herb_age s ++ map Herbivore.age hs)
                (carn_age s ++ map Carnivore.age cs)).
Proof. reflexivity. Qed.

Lemma stats_app_assoc (s1 s2 s3 : YearStats) :
  stats_app (stats_app s1 s2) s3 = stats_app s1 (stats_app s2 s3).
Proof. unfold stats_app; cbn; now rewrite <- !app_assoc. Qed.

Lemma stats_app_nil_r (s : YearStats) : stats_app s no_stats = s.
Proof. destruct s; unfold stats_app; cbn; now rewrite !app_nil_r. Qed.

Lemma stats_app_nil_l (s : YearStats) : stats_app no_stats s = s.
Proof. now destruct s. Qed.

Lemma census_cons (cg : coordinate * Geography) (cells : Island) :
  census (cg :: cells) = stats_app (census [cg]) (census cells).
Proof. unfold census, stats_app; cbn; now rewrite !app_nil_r. Qed.

(** What the first loop appends to the statistics for one cell is the
    census of that cell, be it land or water. *)
Lemma cell_statistics_land (c : coordinate) (g : Geography) (s : YearStats) :
  is_land g ->
  movable g = true
  /\ collect_samples g (count_population g s)
     = Ok (stats_app s (census [(c, g)])).
Proof.
  intros (k & fm & f & hs & cs & mhs & mcs & -> & _).
  split; [reflexivity|].
  unfold count_population; cell_simpl.
  unfold collect_samples, get_weight_lists, get_fitness_lists, get_age_lists;
    cell_simpl.
  unfold stats_app, census; cbn; now rewrite !app_nil_r.
Qed.

Lemma cell_statistics_water (c : coordinate) (g : Geography) (s : YearStats) :
  is_water g ->
  count_population g s = stats_app s (census [(c, g)]).
Proof.
  intros (Hh & Hc & _).
  unfold count_population, stats_app, census; cbn.
  rewrite Hh, Hc; cbn; now rewrite !app_nil_r.
Qed.


(** ** Well-formed and healthy islands *)

Lemma forall_island_set (P : coordinate * Geography -> Prop) (cells : Island)
      (c : coordinate) (g' : Geography) :
  Forall P cells -> P (c, g') -> Forall P (island_set cells c g').
Proof.
  intros H Hc; induction H as [|[k g0] rest Hk Hrest IH]; cbn; [constructor|].
  destruct (coordinate_eqb k c) eqn:E.
  - apply coordinate_eqb_eq in E; subst; now constructor.
  - now constructor.
Qed.

Lemma forall_island_get (P : coordinate * Geography -> Prop) (cells : Island)
      (c : coordinate) (g : Geography) :
  Forall P cells -> island_get cells c = Ok g -> P (c, g).
Proof.
  intros H Hg; apply island_get_in in Hg.
  rewrite Forall_forall in H; now apply H.
Qed.

Lemma well_formed_set (cells : Island) (c : coordinate) (g' : Geography) :
  well_formed cells -> well_formed_cell (map fst cells) (c, g') ->
  well_formed (island_set cells c g').
Proof.
  unfold well_formed; intros H Hc.
  rewrite island_set_keys; now apply forall_island_set.
Qed.

Lemma well_formed_get (cells : Island) (c : coordinate) (g : Geography) :
  well_formed cells -> island_get cells c = Ok g ->
  well_formed_cell (map fst cells) (c, g).
Proof. apply forall_island_get. Qed.

Lemma well_formed_land (cells : Island) (c : coordinate) (g : Geography) :
  well_formed cells -> island_get cells c = Ok g -> movable g = true ->
  is_land g /\ incl (neighbours c) (map fst cells).
Proof.
  intros H Hg Hm; pose proof (well_formed_get cells c g H Hg) as Hc.
  unfold well_formed_cell in Hc; cbn [fst snd] in Hc; now rewrite Hm in Hc.
Qed.

Lemma is_land_movable (g : Geography) : is_land g -> movable g = true.
Proof. now intros (k & fm & f & hs & cs & mhs & mcs & -> & _). Qed.

Lemma not_both_land_and_water (g : Geography) :
  is_land g -> is_water g -> False.
Proof.
  intros (k & fm & f & hs & cs & mhs & mcs & -> & _) (H & _); discriminate.
Qed.

(** ** One step of the migration loop *)

Lemma migration_step_keys (c : coordinate) (cells cells' : Island)
      (a : animal) :
  migration_step c cells a cells' -> map fst cells' = map fst cells.
Proof. intros []; now rewrite ?island_set_keys. Qed.

(** The cell an animal leaves and the cell it enters, as the move leaves
    them. *)
Lemma land_without_resident (keys : list coordinate) (c : coordinate)
      (self : Geography) :
  well_formed_cell keys (c, self) ->
  (forall hs hs', herbivores self = Some hs ->
                  well_formed_cell keys (c, with_herbivores (Some hs') self))
  /\ (forall cs cs', carnivores self = Some cs ->
                     well_formed_cell keys (c, with_carnivores (Some cs') self)).
Proof.
  unfold well_formed_cell; cbn [fst snd].
  destruct (movable self) eqn:Hm.
  - intros [(k & fm & f & hs0 & cs0 & mhs & mcs & -> & Hk & Hfm) Hn].
    split; intros; cbn; (split; [|assumption]);
      [exists k, fm, f, hs', cs0, mhs, mcs
      |exists k, fm, f, hs0, cs', mhs, mcs]; auto.
  - intros (Hh & Hc & _); split; intros; congruence.
Qed.

Lemma land_with_migrant (keys : list coordinate) (n : coordinate)
      (target : Geography) :
  well_formed_cell keys (n, target) -> movable target = true ->
  (forall ms, well_formed_cell
                keys (n, with_migrated_herbivores (Some ms) target))
  /\ (forall ms, well_formed_cell
                   keys (n, with_migrated_carnivores (Some ms) target)).
Proof.
  unfold well_formed_cell; cbn [fst snd]; intros H Hm; rewrite Hm in H.
  destruct H as [(k & fm & f & hs & cs & mhs & mcs & -> & Hk & Hfm) Hn].
  split; intros ms; cbn; (split; [|assumption]);
    [exists k, fm, f, hs, cs, ms, mcs | exists k, fm, f, hs, cs, mhs, ms];
    auto.
Qed.

Lemma migration_step_well_formed (c : coordinate) (cells cells' : Island)
      (a : animal) :
  migration_step c cells a cells' -> well_formed cells -> well_formed cells'.
Proof.
  intros H Hwf;
    destruct H as [a|h n target self hs hs' ms Hn Ht Hm Hs Hh Hms Hr
                    |k n target self cs cs' ms Hn Ht Hm Hs Hc Hms Hr];
    [assumption| |].
  - apply well_formed_set.
    + apply well_formed_set; [assumption|].
      now apply (land_with_migrant _ n target (well_formed_get _ _ _ Hwf Ht)).
    + rewrite island_set_keys.
      now apply (proj1 (land_without_resident
                          _ c self (well_formed_get _ _ _ Hwf Hs)) hs).
  - apply well_formed_set.
    + apply well_formed_set; [assumption|].
      now apply (land_with_migrant _ n target (well_formed_get _ _ _ Hwf Ht)).
    + rewrite island_set_keys.
      now apply (proj2 (land_without_resident
                          _ c self (well_formed_get _ _ _ Hwf Hs)) cs).
Qed.

Lemma same_residents_refl (g : Geography) : same_residents g g.
Proof. unfold same_residents; auto. Qed.

Lemma same_residents_trans (g1 g2 g3 : Geography) :
  same_residents g1 g2 -> same_residents g2 g3 -> same_residents g1 g3.
Proof. unfold same_residents; intros (A & B & C) (D & E & F); repeat split; congruence. Qed.

Lemma migration_step_elsewhere (c : coordinate) (cells cells' : Island)
      (a : animal) :
  migration_step c cells a cells' ->
  forall c' g, c' <> c -> island_get cells c' = Ok g ->
               exists g', island_get cells' c' = Ok g' /\ same_residents g g'.
Proof.
  intros H c' g Hne Hg;
    destruct H as [a|h n target self hs hs' ms Hn Ht Hm Hs Hh Hms Hr
                    |k n target self cs cs' ms Hn Ht Hm Hs Hc Hms Hr].
  - exists g; split; [assumption | apply same_residents_refl].
  - rewrite island_get_set_other by congruence.
    destruct (coordinate_eqb n c') eqn:E.
    + apply coordinate_eqb_eq in E; subst c'.
      rewrite Ht in Hg; inversion Hg; subst g.
      erewrite island_get_set_same by eassumption.
      eexists; split; [reflexivity | unfold same_residents; cbn; auto].
    + apply coordinate_eqb_neq in E.
      rewrite island_get_set_other by assumption.
      exists g; split; [assumption | apply same_residents_refl].
  - rewrite island_get_set_other by congruence.
    destruct (coordinate_eqb n c') eqn:E.
    + apply coordinate_eqb_eq in E; subst c'.
      rewrite Ht in Hg; inversion Hg; subst g.
      erewrite island_get_set_same by eassumption.
      eexists; split; [reflexivity | unfold same_residents; cbn; auto].
    + apply coordinate_eqb_neq in E.
      rewrite island_get_set_other by assumption.
      exists g; split; [assumption | apply same_residents_refl].
Qed.

Lemma migration_step_self (c : coordinate) (cells cells' : Island)
      (a : animal) :
  migration_step c cells a cells' ->
  forall self, island_get cells c = Ok self -> movable self = true ->
               exists self', island_get cells' c = Ok self'
                             /\ movable self' = true.
Proof.
  intros H self0 Hg Hmov;
    destruct H as [a|h n target self hs hs' ms Hn Ht Hm Hs Hh Hms Hr
                    |k n target self cs cs' ms Hn Ht Hm Hs Hc Hms Hr].
  - now exists self0.
  - rewrite Hs in Hg; inversion Hg; subst self0.
    apply neighbour_is_elsewhere in Hn.
    erewrite island_get_set_same
      by (rewrite island_get_set_other by assumption; eassumption).
    eexists; split; [reflexivity | exact Hmov].
  - rewrite Hs in Hg; inversion Hg; subst self0.
    apply neighbour_is_elsewhere in Hn.
    erewrite island_get_set_same
      by (rewrite island_get_set_other by assumption; eassumption).
    eexists; split; [reflexivity | exact Hmov].
Qed.

Lemma migration_step_outcome (c : coordinate) (cells cells' : Island)
      (a : animal) :
  migration_step c cells a cells' -> migration_outcome c cells cells'.
Proof.
  intros H; unfold migration_outcome; repeat split.
  - eapply migration_step_keys; eassumption.
  - eapply migration_step_well_formed; eassumption.
  - eapply migration_step_elsewhere; eassumption.
  - eapply migration_step_self; eassumption.
Qed.

Lemma migration_outcome_refl (c : coordinate) (cells : Island) :
  migration_outcome c cells cells.
Proof.
  unfold migration_outcome; repeat split; auto.
  - intros c' g _ Hg; exists g; split; [assumption | apply same_residents_refl].
  - intros self Hg Hm; now exists self.
Qed.

Lemma migration_outcome_trans (c : coordinate) (c1 c2 c3 : Island) :
  migration_outcome c c1 c2 -> migration_outcome c c2 c3 ->
  migration_outcome c c1 c3.
Proof.
  intros (K1 & W1 & E1 & S1) (K2 & W2 & E2 & S2).
  unfold migration_outcome; repeat split; auto; try congruence.
  - intros c' g Hne Hg.
    destruct (E1 c' g Hne Hg) as (g' & Hg' & R1).
    destruct (E2 c' g' Hne Hg') as (g'' & Hg'' & R2).
    exists g''; split; [assumption | eapply same_residents_trans; eassumption].
  - intros self Hg Hm.
    destruct (S1 self Hg Hm) as (self' & Hg' & Hm').
    now apply (S2 self').
Qed.


(** ** The migration out of a cell returns and keeps the island sound *)

Lemma healthy_island_get (cells : Island) (c : coordinate) (g : Geography) :
  healthy_island cells -> island_get cells c = Ok g -> healthy_cell g.
Proof.
  intros H Hg.
  exact (forall_island_get (fun cg => healthy_cell (snd cg)) cells c g H Hg).
Qed.

Lemma healthy_island_set (cells : Island) (c : coordinate) (g : Geography) :
  healthy_island cells -> healthy_cell g ->
  healthy_island (island_set cells c g).
Proof.
  intros H Hg.
  exact (forall_island_set (fun cg => healthy_cell (snd cg)) cells c g H Hg).
Qed.

Lemma migration_step_healthy (c : coordinate) (cells cells' : Island)
      (a : animal) :
  migration_step c cells a cells' ->
  healthy_island cells -> healthy_animal a -> healthy_island cells'.
Proof.
  intros H Hh Ha;
    destruct H as [a|h n target self hs hs' ms Hn Ht Hm Hs Hhs Hms Hr
                    |k n target self cs cs' ms Hn Ht Hm Hs Hcs Hms Hr];
    [assumption| |].
  - destruct (healthy_island_get _ _ _ Hh Ht) as (T1 & T2 & T3 & T4 & T5 & T6).
    destruct (healthy_island_get _ _ _ Hh Hs) as (S1 & S2 & S3 & S4 & S5 & S6).
    apply healthy_island_set; [apply healthy_island_set; [assumption|]|].
    + unfold healthy_cell; cbn; rewrite Hms in T3; cbn in T3.
      repeat split; auto.
      apply Forall_app; split; [assumption | now constructor].
    + unfold healthy_cell; cbn; rewrite Hhs in S1; cbn in S1.
      repeat split; auto.
      eapply incl_forall; [eapply list_remove_incl; eassumption | assumption].
  - destruct (healthy_island_get _ _ _ Hh Ht) as (T1 & T2 & T3 & T4 & T5 & T6).
    destruct (healthy_island_get _ _ _ Hh Hs) as (S1 & S2 & S3 & S4 & S5 & S6).
    apply healthy_island_set; [apply healthy_island_set; [assumption|]|].
    + unfold healthy_cell; cbn; rewrite Hms in T4; cbn in T4.
      repeat split; auto.
      apply Forall_app; split; [assumption | now constructor].
    + unfold healthy_cell; cbn; rewrite Hcs in S2; cbn in S2.
      repeat split; auto.
      eapply incl_forall; [eapply list_remove_incl; eassumption | assumption].
Qed.

Lemma random_choice_stream {A : Type} (d : A) (seq : list A) (env : Env) :
  same_normal_stream env (snd (random_choice d seq env)).
Proof. reflexivity. Qed.

Lemma migrate_one_runs (c : coordinate) (a : animal) (cells : Island)
      (env : Env) (self : Geography) :
  well_formed cells -> island_get cells c = Ok self -> movable self = true ->
  exists cells' env',
    migrate_one c a cells env = Ok (cells', env')
    /\ same_normal_stream env env'.
Proof.
  intros Hwf Hself Hmov.
  destruct (well_formed_land cells c self Hwf Hself Hmov) as [Hland Hnb].
  unfold migrate_one.
  pose proof (random_choice_neighbour c env) as Hn.
  destruct c as [x y].
  pose proof (random_choice_stream (x + 1, y)%Z
                [(x + 1, y); (x - 1, y); (x, y + 1); (x, y - 1)]%Z env) as Hs1.
  destruct (random_choice _ _ env) as [n env1]; cbn [fst snd] in Hn, Hs1.
  destruct (island_get_key cells n (Hnb n Hn)) as [target Ht].
  rewrite Ht; cbn [bind].
  destruct (movable target) eqn:Hm; [|now exists cells, env1].
  destruct (well_formed_land cells n target Hwf Ht Hm) as [Htl _].
  pose proof (random_random_stream env1) as Hs2.
  destruct (random_random env1) as [r env2]; cbn [snd] in Hs2.
  assert (Hs : same_normal_stream env env2)
    by (eapply same_normal_stream_trans; eassumption).
  destruct (Rgtb _ r); [|now exists cells, env2].
  rewrite Hself; cbn [bind].
  destruct Hland as (k & fm & f & hs & cs & mhs & mcs & -> & _).
  destruct Htl as (k' & fm' & f' & hs' & cs' & mhs' & mcs' & -> & _).
  destruct a as [h|k0]; cell_simpl.
  - destruct (existsb (same_herbivore h) hs) eqn:Ex; [|now exists cells, env2].
    destruct (list_remove_found _ _ Ex) as (hs1 & ->); cell_simpl.
    eexists _, env2; split; [reflexivity | assumption].
  - destruct (existsb (same_carnivore k0) cs) eqn:Ex; [|now exists cells, env2].
    destruct (list_remove_found _ _ Ex) as (cs1 & ->); cell_simpl.
    eexists _, env2; split; [reflexivity | assumption].
Qed.

Lemma migrate_all_runs (c : coordinate) (todo : list animal) :
  forall (cells : Island) (env : Env) (self : Geography),
    well_formed cells -> island_get cells c = Ok self -> movable self = true ->
    exists cells' env',
      migrate_all c todo cells env = Ok (cells', env')
      /\ migration_outcome c cells cells'
      /\ same_normal_stream env env'
      /\ (healthy_island cells -> Forall healthy_animal todo ->
          healthy_island cells').
Proof.
  induction todo as [|a rest IH]; intros cells env self Hwf Hself Hmov.
  - exists cells, env; split; [reflexivity|].
    split; [apply migration_outcome_refl|].
    split; [apply same_normal_stream_refl | auto].
  - cbn [migrate_all].
    destruct (migrate_one_runs c a cells env self Hwf Hself Hmov)
      as (cells1 & env1 & E & Hs1).
    rewrite E; cbn [bind].
    pose proof (migrate_one_step _ _ _ _ _ _ E) as Hstep.
    pose proof (migration_step_outcome _ _ _ _ Hstep) as Hout.
    destruct Hout as (K1 & W1 & E1 & S1).
    destruct (S1 self Hself Hmov) as (self1 & Hself1 & Hmov1).
    destruct (IH cells1 env1 self1 (W1 Hwf) Hself1 Hmov1)
      as (cells' & env' & E' & Hout' & Hs' & Hh').
    exists cells', env'; split; [exact E'|].
    split.
    { eapply migration_outcome_trans; [|exact Hout'].
      unfold migration_outcome; auto. }
    split; [eapply same_normal_stream_trans; eassumption|].
    intros Hh Hall; inversion Hall; subst.
    apply Hh'; [|assumption].
    eapply migration_step_healthy; eassumption.
Qed.

Lemma animal_migration_runs (cells : Island) (c : coordinate) (env : Env)
      (self : Geography) :
  well_formed cells -> island_get cells c = Ok self -> movable self = true ->
  exists cells' env',
    animal_migration cells c env = Ok (cells', env')
    /\ migration_outcome c cells cells'
    /\ same_normal_stream env env'
    /\ (healthy_island cells -> healthy_island cells').
Proof.
  intros Hwf Hself Hmov.
  destruct (well_formed_land cells c self Hwf Hself Hmov) as [Hland _].
  unfold animal_migration; rewrite Hself; cbn [bind].
  destruct Hland as (k & fm & f & hs & cs & mhs & mcs & Eself & _).
  rewrite Eself; cell_simpl.
  destruct (migrate_all_runs c (map AHerbivore hs ++ map ACarnivore cs)
                             cells env self Hwf Hself Hmov)
    as (cells' & env' & E & Hout & Hs & Hh).
  exists cells', env'; repeat split; auto; try apply Hout.
  intros Hhealthy; apply Hh; [assumption|].
  destruct (healthy_island_get _ _ _ Hhealthy Hself) as (S1 & S2 & _).
  rewrite Eself in S1, S2; cbn in S1, S2.
  apply Forall_app; split; apply Forall_map;
    [eapply Forall_impl; [|exact S1] | eapply Forall_impl; [|exact S2]]; auto.
Qed.


(** ** The two loops of a year on a well-formed island *)

Lemma healthy_land_cell (k : terrain) (fm : option R) (f : R)
      (hs : list Herbivore.t) (cs : list Carnivore.t)
      (mhs : list Herbivore.t) (mcs : list Carnivore.t) :
  healthy_cell (land_cell k fm f hs cs mhs mcs)
  <-> (Forall healthy_herbivore hs /\ Forall healthy_carnivore cs
       /\ Forall healthy_herbivore mhs /\ Forall healthy_carnivore mcs
       /\ 0 <= f /\ (forall v, fm = Some v -> 0 <= v)).
Proof.
  unfold healthy_cell; cbn; split.
  - intros (A & B & C & D & E & F); repeat split; auto.
  - intros (A & B & C & D & E & F); repeat split; auto.
    intros f0 H; inversion H; subst; assumption.
Qed.

(** The body of the first loop: it returns, appends the census of the
    cell as it found it, and leaves the residents of all other cells
    alone. *)
Lemma first_pass_cell_runs (c : coordinate) (cells : Island) (env : Env)
      (s : YearStats) (g : Geography) :
  well_formed cells -> island_get cells c = Ok g ->
  exists cells' env',
    first_pass_cell c cells env s
    = Ok (cells', env', stats_app s (census [(c, g)]))
    /\ well_formed cells'
    /\ map fst cells' = map fst cells
    /\ same_normal_stream env env'
    /\ (births_nonnegative env -> healthy_island cells ->
        healthy_island cells')
    /\ (forall c' g0, c' <> c -> island_get cells c' = Ok g0 ->
                      exists g', island_get cells' c' = Ok g'
                                 /\ same_residents g0 g').
Proof.
  intros Hwf Hg.
  pose proof (well_formed_get cells c g Hwf Hg) as Hcell.
  unfold first_pass_cell; rewrite Hg; cbn [bind].
  unfold well_formed_cell in Hcell; cbn [fst snd] in Hcell.
  destruct (movable g) eqn:Hm.
  - destruct Hcell as [Hland Hnb].
    rewrite (proj2 (cell_statistics_land c g s Hland)); cbn [bind].
    set (s' := stats_app s (census [(c, g)])).
    clearbody s'.
    destruct Hland as (k & fm & f & hs & cs & mhs & mcs & -> & Hk & Hfm).
    destruct (feeding_land k fm f hs cs mhs mcs env Hk Hfm)
      as (f1 & hs1 & cs1 & env1 & calls & Ef & Hs1 & Hh1).
    rewrite Ef; cbn [bind].
    destruct (procreation_land k fm f1 hs1 cs1 mhs mcs env1)
      as (hs2 & cs2 & env2 & Ep & Hs2 & Hh2).
    rewrite Ep; cbn [bind].
    set (g2 := land_cell k fm f1 hs2 cs2 mhs mcs) in *.
    assert (Hwf2 : well_formed (island_set cells c g2)).
    { apply well_formed_set; [assumption|].
      unfold well_formed_cell; cbn [fst snd movable g2 land_cell].
      split; [now exists k, fm, f1, hs2, cs2, mhs, mcs | assumption]. }
    assert (Hg2 : island_get (island_set cells c g2) c = Ok g2)
      by (eapply island_get_set_same; eassumption).
    destruct (animal_migration_runs (island_set cells c g2) c env2 g2
                                    Hwf2 Hg2 eq_refl)
      as (cells' & env' & Em & (K & W & E & S) & Hs3 & Hh3).
    rewrite Em; cbn [bind].
    exists cells', env'; split; [reflexivity|].
    split; [now apply W|].
    split; [now rewrite K, island_set_keys|].
    split.
    { eapply same_normal_stream_trans; [exact Hs1|].
      eapply same_normal_stream_trans; eassumption. }
    split.
    + intros Hb Hh; apply Hh3, healthy_island_set; [assumption|].
      pose proof (healthy_island_get _ _ _ Hh Hg) as Hc.
      apply healthy_land_cell in Hc as (A & B & C & D & E0 & F).
      destruct (Hh1 E0 F A B) as (A1 & B1 & C1).
      destruct (Hh2 (births_nonnegative_same _ _ Hs1 Hb) B1 C1) as (A2 & B2).
      apply healthy_land_cell; repeat split; auto.
    + intros c' g0 Hne Hg0; apply E; [assumption|].
      rewrite island_get_set_other by congruence; assumption.
  - rewrite (cell_statistics_water c g s Hcell).
    exists cells, env; split; [reflexivity|].
    repeat split; auto.
    intros c' g0 _ Hg0; exists g0; split;
      [assumption | apply same_residents_refl].
Qed.

Lemma census_same_residents (c : coordinate) (g g' : Geography) :
  same_residents g g' -> census [(c, g')] = census [(c, g)].
Proof. intros (Hh & Hc & _); unfold census; cbn; now rewrite Hh, Hc. Qed.

Lemma first_pass_runs (todo : Island) :
  forall (cells : Island) (env : Env) (s : YearStats),
    well_formed cells ->
    NoDup (map fst todo) ->
    Forall (fun cg => exists g, island_get cells (fst cg) = Ok g
                                /\ same_residents (snd cg) g) todo ->
    exists cells' env',
      first_pass (map fst todo) cells env s
      = Ok (cells', env', stats_app s (census todo))
      /\ well_formed cells'
      /\ map fst cells' = map fst cells
      /\ same_normal_stream env env'
      /\ (births_nonnegative env -> healthy_island cells ->
          healthy_island cells').
Proof.
  induction todo as [|[k g0] rest IH]; intros cells env s Hwf Hnd Hall.
  - exists cells, env; cbn [map first_pass].
    change (census []) with no_stats; rewrite stats_app_nil_r.
    repeat split; auto.
  - inversion Hnd as [|? ? Hfresh Hnd']; subst.
    inversion Hall as [|? ? (g & Hg & Hsame) Hall']; subst.
    cbn [fst snd] in *.
    destruct (first_pass_cell_runs k cells env s g Hwf Hg)
      as (cells1 & env1 & E1 & Hwf1 & K1 & Hs1 & Hh1 & Hframe).
    cbn [map fst first_pass]; rewrite E1; cbn [bind].
    assert (Hall1 : Forall (fun cg => exists g, island_get cells1 (fst cg) = Ok g
                                                /\ same_residents (snd cg) g)
                           rest).
    { rewrite Forall_forall in *; intros [k' g'] Hin.
      destruct (Hall' _ Hin) as (g1 & Hg1 & Hsame1); cbn [fst snd] in *.
      assert (Hne : k' <> k).
      { intros ->; apply Hfresh; apply in_map_iff; now exists (k, g'). }
      destruct (Hframe k' g1 Hne Hg1) as (g2 & Hg2 & Hsame2).
      exists g2; split;
        [assumption | eapply same_residents_trans; eassumption]. }
    destruct (IH cells1 env1 (stats_app s (census [(k, g)])) Hwf1 Hnd' Hall1)
      as (cells' & env' & E' & Hwf' & K' & Hs' & Hh').
    exists cells', env'.
    rewrite E', stats_app_assoc, (census_cons (k, g0)).
    rewrite (census_same_residents k g0 g Hsame).
    split; [reflexivity|].
    split; [assumption|].
    split; [congruence|].
    split; [eapply same_normal_stream_trans; eassumption|].
    intros Hb Hh; apply Hh';
      [eapply births_nonnegative_same; eassumption | now apply Hh1].
Qed.

Lemma second_pass_cell_runs (c : coordinate) (cells : Island) (env : Env)
      (g : Geography) :
  well_formed cells -> island_get cells c = Ok g ->
  exists cells' env',
    second_pass_cell c cells env = Ok (cells', env')
    /\ well_formed cells'
    /\ map fst cells' = map fst cells
    /\ same_normal_stream env env'
    /\ (healthy_island cells -> healthy_island cells').
Proof.
  intros Hwf Hg.
  pose proof (well_formed_get cells c g Hwf Hg) as Hcell.
  unfold second_pass_cell; rewrite Hg; cbn [bind].
  unfold well_formed_cell in Hcell; cbn [fst snd] in Hcell.
  destruct (movable g) eqn:Hm.
  - destruct Hcell as [(k & fm & f & hs & cs & mhs & mcs & -> & Hk & Hfm) Hnb].
    destruct (second_pass_land k fm f hs cs mhs mcs env)
      as (hs' & cs' & env' & E & Hs & Hh & Hc).
    rewrite migration_finished_land in *; cbn [bind] in *.
    rewrite animal_aging_land in *; cbn [bind] in *.
    rewrite E; cbn [bind].
    exists (island_set cells c (land_cell k fm f hs' cs' [] [])), env'.
    split; [reflexivity|].
    split.
    { apply well_formed_set; [assumption|].
      unfold well_formed_cell; cbn [fst snd movable land_cell].
      split; [now exists k, fm, f, hs', cs', [], [] | assumption]. }
    split; [apply island_set_keys|].
    split; [assumption|].
    intros Hhealthy; apply healthy_island_set; [assumption|].
    pose proof (healthy_island_get _ _ _ Hhealthy Hg) as Hcell.
    apply healthy_land_cell in Hcell as (A & B & C & D & E0 & F).
    apply healthy_land_cell; repeat split; auto.
    + apply Hh, Forall_app; auto.
    + apply Hc, Forall_app; auto.
  - exists cells, env; repeat split; auto.
Qed.

Lemma second_pass_runs (keys : list coordinate) :
  forall (cells : Island) (env : Env),
    well_formed cells -> incl keys (map fst cells) ->
    exists cells' env',
      second_pass keys cells env = Ok (cells', env')
      /\ well_formed cells'
      /\ map fst cells' = map fst cells
      /\ same_normal_stream env env'
      /\ (healthy_island cells -> healthy_island cells').
Proof.
  induction keys as [|k rest IH]; intros cells env Hwf Hincl.
  - exists cells, env; repeat split; auto.
  - destruct (island_get_key cells k (Hincl k (or_introl eq_refl))) as [g Hg].
    destruct (second_pass_cell_runs k cells env g Hwf Hg)
      as (cells1 & env1 & E1 & Hwf1 & K1 & Hs1 & Hh1).
    cbn [second_pass]; rewrite E1; cbn [bind].
    assert (Hincl1 : incl rest (map fst cells1)).
    { rewrite K1; intros x Hx; apply Hincl; now right. }
    destruct (IH cells1 env1 Hwf1 Hincl1)
      as (cells' & env' & E' & Hwf' & K' & Hs' & Hh').
    exists cells', env'; rewrite E'.
    split; [reflexivity|].
    split; [assumption|].
    split; [congruence|].
    split; [eapply same_normal_stream_trans; eassumption | auto].
Qed.

Lemma island_get_of_entry (cells : Island) :
  NoDup (map fst cells) ->
  Forall (fun cg => island_get cells (fst cg) = Ok (snd cg)) cells.
Proof.
  induction cells as [|[k g] rest IH]; intros Hnd; [constructor|].
  inversion Hnd as [|? ? Hfresh Hnd']; subst.
  constructor; [cbn; now rewrite coordinate_eqb_refl|].
  specialize (IH Hnd'); rewrite Forall_forall in *.
  intros [k' g'] Hin; cbn [fst snd island_get].
  destruct (coordinate_eqb k k') eqn:E.
  - apply coordinate_eqb_eq in E; subst k'.
    exfalso; apply Hfresh; apply in_map_iff; now exists (k, g').
  - exact (IH _ Hin).
Qed.

(** One year on a well-formed island: [simulate_year] returns, the
    statistics it hands over are the census of the island as the year
    found it, and the island stays well formed (and healthy, when the
    generator draws no negative birth weight). *)
Lemma simulate_year_runs (sim : BioSim) (env : Env) :
  well_formed (island sim) -> NoDup (map fst (island sim)) ->
  exists sim' env',
    simulate_year sim env = Ok (sim', env', census (island sim))
    /\ well_formed (island sim')
    /\ map fst (island sim') = map fst (island sim)
    /\ current_year sim' = S (current_year sim)
    /\ same_normal_stream env env'
    /\ (births_nonnegative env -> healthy_island (island sim) ->
        healthy_island (island sim')).
Proof.
  intros Hwf Hnd.
  assert (Hall : Forall (fun cg => exists g,
                             island_get (island sim) (fst cg) = Ok g
                             /\ same_residents (snd cg) g) (island sim)).
  { eapply Forall_impl; [|apply island_get_of_entry; assumption].
    intros cg Hg; exists (snd cg); split;
      [assumption | apply same_residents_refl]. }
  destruct (first_pass_runs (island sim) (island sim) env no_stats
                            Hwf Hnd Hall)
    as (cells1 & env1 & E1 & Hwf1 & K1 & Hs1 & Hh1).
  rewrite stats_app_nil_l in E1.
  assert (Hincl : incl (map fst (island sim)) (map fst cells1))
    by (rewrite K1; apply incl_refl).
  destruct (second_pass_runs (map fst (island sim)) cells1 env1 Hwf1 Hincl)
    as (cells2 & env2 & E2 & Hwf2 & K2 & Hs2 & Hh2).
  unfold simulate_year; rewrite E1; cbn [bind]; rewrite E2; cbn [bind].
  eexists _, env2; split; [reflexivity|]; cbn [island current_year].
  split; [assumption|].
  split; [congruence|].
  split; [reflexivity|].
  split; [eapply same_normal_stream_trans; eassumption | auto].
Qed.

Lemma simulate_runs (num_years : nat) :
  forall (sim : BioSim) (env : Env),
    well_formed (island sim) -> NoDup (map fst (island sim)) ->
    exists sim' env' stats,
      simulate num_years sim env = Ok (sim', env', stats)
      /\ well_formed (island sim')
      /\ map fst (island sim') = map fst (island sim)
      /\ List.length stats = num_years
      /\ (births_nonnegative env -> healthy_island (island sim) ->
          healthy_island (island sim')).
Proof.
  induction num_years as [|n IH]; intros sim env Hwf Hnd.
  - exists sim, env, []; repeat split; auto.
  - destruct (simulate_year_runs sim env Hwf Hnd)
      as (sim1 & env1 & E1 & Hwf1 & K1 & _ & Hs1 & Hh1).
    assert (Hnd1 : NoDup (map fst (island sim1))) by now rewrite K1.
    destruct (IH sim1 env1 Hwf1 Hnd1)
      as (sim' & env' & stats & E' & Hwf' & K' & Hlen & Hh').
    cbn [simulate]; rewrite E1; cbn [bind]; rewrite E'; cbn [bind].
    eexists _, _, _; split; [reflexivity|].
    split; [assumption|].
    split; [congruence|].
    split; [cbn; now rewrite Hlen|].
    intros Hb Hh; apply Hh';
      [eapply births_nonnegative_same; eassumption | now apply Hh1].
Qed.


(** ** The statistics of a year *)

(** C5 (as amended): in the first loop of a year the statistics of a cell
    are taken before its regrowth, feeding, reproduction and migration.
    On a well-formed island, whenever [simulate_year] returns, what it
    hands over is the census of the island as the year found it; whenever
    the body of the loop returns for a cell, it has appended the census of
    the cell as it found it. *)
Theorem statistics_are_taken_before_feeding (sim : BioSim) (env : Env)
        (Hwf : well_formed (island sim))
        (Hkeys : NoDup (map fst (island sim))) :
  (forall sim' env' stats,
      simulate_year sim env = Ok (sim', env', stats) ->
      stats = census (island sim))
  /\ (forall c g s cells' env' s',
         island_get (island sim) c = Ok g ->
         first_pass_cell c (island sim) env s = Ok (cells', env', s') ->
         s' = stats_app s (census [(c, g)])).
Proof.
  split.
  - intros sim' env' stats E.
    destruct (simulate_year_runs sim env Hwf Hkeys) as (sim1 & env1 & E1 & _).
    rewrite E1 in E; now inversion E.
  - intros c g s cells' env' s' Hg E.
    destruct (first_pass_cell_runs c (island sim) env s g Hwf Hg)
      as (cells1 & env1 & E1 & _).
    rewrite E1 in E; now inversion E.
Qed.

(** ** Weights stay non-negative *)

Lemma cell_phase_healthy (g g' : Geography) :
  cell_phase g g' -> healthy_cell g -> healthy_cell g'.
Proof.
  intros H Hh;
    destruct H as [g g' env env' calls Hland E
                  |g g' env env' Hland Hb E
                  |g g' Hland E
                  |g g' Hland E
                  |g g' env env' Hland E];
    destruct Hland as (k & fm & f & hs & cs & mhs & mcs & -> & Hk & Hfm);
    apply healthy_land_cell in Hh as (A & B & C & D & E0 & F).
  - destruct (feeding_land k fm f hs cs mhs mcs env Hk Hfm)
      as (f1 & hs1 & cs1 & env1 & calls1 & Ef & _ & Hh1).
    rewrite Ef in E; inversion E; subst.
    destruct (Hh1 E0 F A B) as (A1 & B1 & C1).
    apply healthy_land_cell; repeat split; auto.
  - destruct (procreation_land k fm f hs cs mhs mcs env)
      as (hs1 & cs1 & env1 & Ep & _ & Hh1).
    rewrite Ep in E; inversion E; subst.
    destruct (Hh1 Hb A B) as (A1 & B1).
    apply healthy_land_cell; repeat split; auto.
  - rewrite migration_finished_land in E; inversion E; subst.
    apply healthy_land_cell; repeat split; auto using Forall_app.
    + apply Forall_app; auto.
    + apply Forall_app; auto.
  - rewrite animal_aging_land in E; inversion E; subst.
    apply healthy_land_cell; repeat split; auto.
    + apply Forall_map; eapply Forall_impl; [|exact A].
      intros; now apply age_herbivore_healthy.
    + apply Forall_map; eapply Forall_impl; [|exact B].
      intros; now apply age_carnivore_healthy.
  - destruct (animal_death_land k fm f hs cs mhs mcs env)
      as (hs1 & cs1 & env1 & Ed & Hih & Hic & _).
    rewrite Ed in E; inversion E; subst.
    apply healthy_land_cell; repeat split; auto.
    + eapply incl_forall; eassumption.
    + eapply incl_forall; eassumption.
Qed.

Lemma animal_migration_healthy (cells cells' : Island) (c : coordinate)
      (env env' : Env) :
  well_formed cells ->
  animal_migration cells c env = Ok (cells', env') ->
  healthy_island cells -> healthy_island cells'.
Proof.
  intros Hwf E Hh.
  assert (Hself : exists self, island_get cells c = Ok self
                               /\ movable self = true).
  { unfold animal_migration in E.
    destruct (island_get cells c) as [self|] eqn:Hg; [|discriminate].
    exists self; split; [reflexivity|].
    pose proof (well_formed_get cells c self Hwf Hg) as Hcell.
    unfold well_formed_cell in Hcell; cbn [fst snd] in Hcell.
    destruct (movable self); [reflexivity|].
    destruct Hcell as (Hnone & _).
    cbn [bind] in E; rewrite Hnone in E; discriminate. }
  destruct Hself as (self & Hg & Hm).
  destruct (animal_migration_runs cells c env self Hwf Hg Hm)
    as (cells1 & env1 & E1 & _ & _ & Hh1).
  rewrite E1 in E; inversion E; subst; auto.
Qed.

Lemma healthy_weights_nonnegative (cells : Island) :
  healthy_island cells -> weights_nonnegative cells.
Proof.
  unfold healthy_island, weights_nonnegative; intros H.
  eapply Forall_impl; [|exact H].
  intros [k g] (A & B & C & D & _); cbn [snd] in *.
  split; apply Forall_app; split;
    (eapply Forall_impl; [|eassumption]); intros x Hx; apply Hx.
Qed.

(** C3 (as amended): as long as no negative weight is put in (the animals
    on the island are healthy, the fodder maxima are not negative, and the
    generator draws no negative birth weight) no weight becomes negative:
    every phase of a passable cell and every migration out of a cell take
    healthy animals to healthy animals, and whenever [simulate] returns,
    for any number of years, every animal of the island it leaves,
    resident or in transit, has a weight that is not negative. *)
Theorem weights_stay_nonnegative :
  (forall g g', cell_phase g g' -> healthy_cell g -> healthy_cell g')
  /\ (forall cells c env cells' env',
         well_formed cells ->
         animal_migration cells c env = Ok (cells', env') ->
         healthy_island cells -> healthy_island cells')
  /\ (forall num_years sim env sim' env' stats,
         well_formed (island sim) -> NoDup (map fst (island sim)) ->
         healthy_island (island sim) -> births_nonnegative env ->
         simulate num_years sim env = Ok (sim', env', stats) ->
         healthy_island (island sim')
         /\ weights_nonnegative (island sim')).
Proof.
  split; [exact cell_phase_healthy|].
  split; [intros *; apply animal_migration_healthy|].
  intros n sim env sim' env' stats Hwf Hnd Hh Hb E.
  destruct (simulate_runs n sim env Hwf Hnd)
    as (sim1 & env1 & stats1 & E1 & _ & _ & _ & Hh').
  rewrite E1 in E; inversion E; subst.
  split; [auto | apply healthy_weights_nonnegative; auto].
Qed.


(** ** The example island *)

Lemma herbivore_at_healthy (i : nat) (a w : R) :
  0 <= w -> healthy_herbivore (herbivore_at i a w).
Proof.
  intros Hw; unfold healthy_herbivore, healthy.
  pose proof (herbivore_at_constants i a w) as Hc.
  rewrite herbivore_at_weight.
  assert (He : Animal.eta (Herbivore.base (herbivore_at i a w)) = 0.05)
    by exact (f_equal k_eta Hc).
  assert (Hb : Herbivore.beta (herbivore_at i a w) = 0.9) by reflexivity.
  assert (HF : Herbivore.F (herbivore_at i a w) = 10) by reflexivity.
  rewrite He, Hb, HF; repeat split; lra.
Qed.

Lemma carnivore_at_healthy (i : nat) (a w : R) :
  0 <= w -> healthy_carnivore (carnivore_at i a w).
Proof.
  intros Hw; unfold healthy_carnivore, healthy.
  pose proof (carnivore_at_constants i a w) as Hc.
  rewrite carnivore_at_weight.
  assert (He : Animal.eta (Carnivore.base (carnivore_at i a w)) = 0.125)
    by exact (f_equal k_eta Hc).
  assert (Hb : Carnivore.beta (carnivore_at i a w) = 0.75) by reflexivity.
  assert (HF : Carnivore.F (carnivore_at i a w) = 50) by reflexivity.
  rewrite He, Hb, HF; repeat split; lra.
Qed.

Lemma example_cell_is_land : is_land example_cell.
Proof.
  exists Desert, None, 0, [example_prey],
         [carnivore_at 0 40 20; carnivore_at 1 40 20], [], [].
  split; [reflexivity|]; split; [discriminate | now left].
Qed.

Lemma water_is_water : is_water (new_geography Water).
Proof. repeat split. Qed.

Lemma example_island_keys : NoDup (map fst example_island).
Proof.
  cbn; repeat constructor; cbn; intros H;
    repeat (destruct H as [H|H]; [discriminate|]); exact H.
Qed.

Lemma example_island_well_formed : well_formed example_island.
Proof.
  unfold well_formed, example_island.
  repeat (apply Forall_cons); try apply Forall_nil;
    unfold well_formed_cell; cbn [fst snd];
    try (change (movable (new_geography Water)) with false; cbn iota;
         exact water_is_water).
  change (movable example_cell) with true; cbn iota.
  split; [exact example_cell_is_land|].
  intros x Hx; cbn in Hx |- *.
  repeat (destruct Hx as [<-|Hx]; [tauto|]); contradiction.
Qed.

Lemma water_is_healthy : healthy_cell (new_geography Water).
Proof. unfold healthy_cell; cbn; repeat split; auto; discriminate. Qed.

Lemma example_cell_land :
  example_cell
  = land_cell Desert None 0 [example_prey]
              [carnivore_at 0 40 20; carnivore_at 1 40 20] [] [].
Proof. reflexivity. Qed.

Lemma example_cell_is_healthy : healthy_cell example_cell.
Proof.
  rewrite example_cell_land; apply healthy_land_cell.
  split; [constructor; [apply herbivore_at_healthy; lra | constructor]|].
  split; [repeat (apply Forall_cons; [apply carnivore_at_healthy; lra|]);
          apply Forall_nil|].
  split; [constructor|]; split; [constructor|]; split; [lra|discriminate].
Qed.

Lemma example_island_healthy : healthy_island example_island.
Proof.
  unfold healthy_island, example_island.
  repeat (apply Forall_cons); try apply Forall_nil; cbn [snd];
    first [exact water_is_healthy | exact example_cell_is_healthy].
Qed.


(** ** Witnesses on the example island *)

Lemma statistics_are_taken_before_feeding_witness :
  exists sim' env' stats,
    simulate_year example_sim (constant_env 0 0) = Ok (sim', env', stats)
    /\ stats = census (island example_sim)
    /\ herb_pop stats = [0; 0; 0; 0; 1; 0; 0; 0; 0]%nat
    /\ carn_pop stats = [0; 0; 0; 0; 2; 0; 0; 0; 0]%nat.
Proof.
  destruct (simulate_year_runs example_sim (constant_env 0 0)
              example_island_well_formed example_island_keys)
    as (sim' & env' & E & _).
  exists sim', env', (census (island example_sim)).
  split; [exact E|].
  pose proof (proj1 (statistics_are_taken_before_feeding
                       example_sim (constant_env 0 0)
                       example_island_well_formed example_island_keys)
                    sim' env' _ E) as Hs.
  split; [exact Hs|].
  split; reflexivity.
Defined.


(** ** A newborn of negative weight *)

Lemma herbivores_breed_first_birth (N : nat) (h : Herbivore.t)
      (rest : list Herbivore.t) (env env1 : Env) (b p : Herbivore.t) :
  Herbivore.age h <> 0 ->
  Herbivore.gives_birth N h env = (Some b, p, env1) ->
  exists rest' babies env',
    herbivores_breed N (h :: rest) env = (p :: rest', b :: babies, env').
Proof.
  intros Ha E; cbn [herbivores_breed].
  apply Reqb_false in Ha; rewrite Ha, E.
  destruct (herbivores_breed N rest env1) as [[rest' babies] env'].
  now exists rest', babies, env'.
Qed.

(** A herbivore of age 5 and weight 50 among two candidates, with a
    uniform draw of 0 and a normal deviate of -6: the birth weight is
    8 - 6 * 1.5 = -1, which is not more than the parent's weight. *)
Lemma example_negative_birth :
  let h := herbivore_at 0 5 50 in
  let env := constant_env (-6) 0 in
  let baby := fst (Herbivore.init 0 None (snd (random_random env))) in
  Herbivore.gives_birth 2 h env =
  (Some baby,
   Herbivore.with_base
     (Animal.weight_reduction (Herbivore.weight baby) (Herbivore.base h)) h,
   snd (Herbivore.init 0 None (snd (random_random env))))
  /\ Herbivore.weight baby = -1.
Proof.
  intros h env baby.
  assert (Hb : Herbivore.weight baby = -1).
  { unfold baby; rewrite newborn_herbivore_weight; simpl; lra. }
  pose proof (herbivore_at_fitness_pos 0 5 50 ltac:(lra)) as Hf.
  pose proof (herbivore_at_weight 0 5 50) as Hw.
  pose proof (herbivore_at_constants 0 5 50) as Hc.
  fold h in Hf, Hw, Hc.
  assert (Hz : Animal.zeta (Herbivore.base h) = 3.5)
    by exact (f_equal k_zeta Hc).
  assert (Hs : Herbivore.sigma_birth h = 1.5) by reflexivity.
  assert (Hwb : Herbivore.w_birth h = 8) by reflexivity.
  assert (Hg : Herbivore.gamma h = 0.2) by reflexivity.
  split; [| exact Hb].
  apply herbivore_gives_birth_success.
  - simpl fst. rewrite Hg. simpl INR.
    apply Rmin_glb_lt; nra.
  - rewrite Hz, Hs, Hwb, Hw; lra.
  - fold baby; rewrite Hb, Hw; lra.
Qed.

Lemma example_breeding_cell_land :
  example_breeding_cell
  = land_cell Lowland (Some 800) 0
              [herbivore_at 0 5 50; herbivore_at 1 5 50] [] [] [].
Proof. reflexivity. Qed.

Lemma example_breeding_candidates :
  filter (fun h => negb (Reqb (Herbivore.age h) 0))
         [herbivore_at 0 5 50; herbivore_at 1 5 50]
  = [herbivore_at 0 5 50; herbivore_at 1 5 50].
Proof.
  assert (H : Reqb 5 0 = false) by (apply Reqb_false; lra).
  unfold filter; rewrite !herbivore_at_age, H; reflexivity.
Qed.

(** C3, the counterexample: two herbivores of weight 50 in a lowland cell,
    a generator whose normal deviates are all -6.  [procreation] returns,
    and leaves among the residents a newborn of weight -1, although no
    weight was negative before. *)
Lemma newborn_weight_can_be_negative :
  exists g' env',
    procreation example_breeding_cell (constant_env (-6) 0) = Ok (g', env')
    /\ Forall (fun h => 0 <= Herbivore.weight h)
              (residents_of (herbivores example_breeding_cell))
    /\ residents_of (carnivores example_breeding_cell) = []
    /\ Exists (fun h => Herbivore.weight h < 0)
              (residents_of (herbivores g')).
Proof.
  destruct (procreation_land Lowland (Some 800) 0
              [herbivore_at 0 5 50; herbivore_at 1 5 50] [] [] []
              (constant_env (-6) 0)) as (hs' & cs' & env' & E & _).
  rewrite <- example_breeding_cell_land in E.
  exists (land_cell Lowland (Some 800) 0 hs' cs' [] []), env'.
  split; [exact E|].
  split.
  { change (residents_of (herbivores example_breeding_cell))
      with [herbivore_at 0 5 50; herbivore_at 1 5 50].
    repeat (apply Forall_cons; [rewrite herbivore_at_weight; lra|]).
    apply Forall_nil. }
  split; [reflexivity|].
  apply procreation_result in E as (hs & cs & Hh & Hc & Eg & _).
  change (herbivores example_breeding_cell)
    with (Some [herbivore_at 0 5 50; herbivore_at 1 5 50]) in Hh.
  inversion Hh; subst hs; clear Hh.
  rewrite example_breeding_candidates in Eg.
  change (List.length [herbivore_at 0 5 50; herbivore_at 1 5 50])
    with 2%nat in Eg.
  destruct example_negative_birth as [Eb Hb].
  destruct (herbivores_breed_first_birth
              2 (herbivore_at 0 5 50) [herbivore_at 1 5 50] _ _ _ _
              ltac:(rewrite herbivore_at_age; lra) Eb)
    as (rest' & babies & env1 & Ebreed).
  cbn zeta in Eg; rewrite Ebreed in Eg; cbn [fst snd] in Eg.
  rewrite Eg.
  cbn [with_carnivores with_herbivores herbivores residents_of].
  apply Exists_app; right; apply Exists_cons_hd.
  rewrite Hb; lra.
Qed.


(** ** The statistics of a cell whose prey is killed *)

(** In a desert the example prey finds nothing to eat. *)
Lemma example_fed_prey_eq :
  example_fed_prey
  = Herbivore.with_base
      (Animal.calculate_fitness
         (Animal.with_weight
            (Herbivore.weight example_prey + Herbivore.beta example_prey * 0)
            (Herbivore.base example_prey)))
      example_prey.
Proof.
  unfold example_fed_prey, Herbivore.feed.
  assert (H : Rgeb 0 (Herbivore.F example_prey) = false).
  { apply Rgeb_false; change (Herbivore.F example_prey) with 10; lra. }
  now rewrite H.
Qed.

Lemma example_feed : Herbivore.feed 0 example_prey = (0, example_fed_prey).
Proof.
  rewrite example_fed_prey_eq; unfold Herbivore.feed.
  assert (H : Rgeb 0 (Herbivore.F example_prey) = false).
  { apply Rgeb_false; change (Herbivore.F example_prey) with 10; lra. }
  now rewrite H.
Qed.

Lemma example_fed_prey_weight : Herbivore.weight example_fed_prey = 10.
Proof.
  rewrite example_fed_prey_eq.
  unfold Herbivore.weight at 1; cbn [Herbivore.with_base Herbivore.base].
  rewrite calculate_fitness_weight; cbn [Animal.with_weight Animal.weight].
  change (Herbivore.beta example_prey) with 0.9.
  unfold example_prey; rewrite herbivore_at_weight; lra.
Qed.

Lemma example_fed_prey_ident : Herbivore.ident example_fed_prey = 2%nat.
Proof.
  rewrite example_fed_prey_eq.
  unfold Herbivore.ident at 1; cbn [Herbivore.with_base Herbivore.base].
  rewrite calculate_fitness_ident; cbn [Animal.with_weight Animal.ident].
  exact (herbivore_at_ident 2 40 10).
Qed.

Lemma example_fed_prey_fitness : Herbivore.fitness example_fed_prey = 1 / 4.
Proof.
  rewrite example_fed_prey_eq.
  unfold Herbivore.fitness at 1; cbn [Herbivore.with_base Herbivore.base].
  change (Herbivore.beta example_prey) with 0.9.
  unfold example_prey; rewrite herbivore_at_weight.
  replace (10 + 0.9 * 0) with 10 by lra.
  unfold herbivore_at, Herbivore.init; cbn.
  rewrite (calculate_fitness_pos
             {| Animal.ident := 2; Animal.age := 40; Animal.weight := 10;
                Animal.fitness := 0; Animal.a_half := 40; Animal.zeta := 3.5;
                Animal.phi_age := 0.6; Animal.phi_weight := 0.1;
                Animal.w_half := 10; Animal.mu := 0.25; Animal.omega := 0.4;
                Animal.eta := 0.05 |}) by (cbn; lra); cbn.
  rewrite calculate_fitness_pos by (cbn; lra); cbn.
  rewrite age_factor_at_half, weight_factor_at_half; lra.
Qed.

(** A lone prey that the predator is fitter than, under a uniform draw
    below the kill probability, is killed. *)
Lemma lone_prey_is_killed (h : Herbivore.t) (c : Carnivore.t) (env : Env) :
  0 < Carnivore.F c ->
  Herbivore.fitness h < Carnivore.fitness c ->
  Carnivore.fitness c - Herbivore.fitness h < Carnivore.DeltaPhiMax c ->
  fst (random_random env)
  < (Carnivore.fitness c - Herbivore.fitness h) / Carnivore.DeltaPhiMax c ->
  Carnivore.hunt [h] c env
  = ([h], Carnivore.eat (Rmin (Carnivore.F c - 0) (Herbivore.weight h)) c,
     snd (random_random env)).
Proof.
  intros HF Hfit Hd Hdraw.
  unfold Carnivore.hunt.
  rewrite hunt_loop_draw by assumption.
  apply Rltb_true in Hdraw; rewrite Hdraw.
  cbn [Carnivore.hunt_loop app]; reflexivity.
Qed.

Lemma example_predator_kills_fed_prey (i : nat) (env : Env) :
  fst (random_random env) = 0 ->
  Carnivore.hunt [example_fed_prey] (carnivore_at i 40 20) env
  = ([example_fed_prey],
     Carnivore.eat (Rmin (Carnivore.F (carnivore_at i 40 20) - 0)
                         (Herbivore.weight example_fed_prey))
                   (carnivore_at i 40 20),
     snd (random_random env)).
Proof.
  intros Hdraw.
  pose proof (example_predator_fitness i) as Hc.
  pose proof example_fed_prey_fitness as Hh.
  assert (HF : Carnivore.F (carnivore_at i 40 20) = 50) by reflexivity.
  assert (HD : Carnivore.DeltaPhiMax (carnivore_at i 40 20) = 10)
    by reflexivity.
  apply lone_prey_is_killed; rewrite ?HF, ?HD, ?Hh, ?Hdraw; lra.
Qed.

(** Two example predators hunt in a cell whose only prey is the fed
    example prey: the first one kills it. *)
Lemma fed_prey_is_hunted (i j : nat) (g : Geography) (env : Env) :
  herbivores g = Some [example_fed_prey] ->
  fst (random_random env) = 0 ->
  exists cs' env' calls,
    carnivores_hunt [carnivore_at i 40 20; carnivore_at j 40 20] g env
    = Ok (cs', with_herbivores (Some []) g, env', calls).
Proof.
  intros Hh Hdraw.
  cbn [carnivores_hunt]; rewrite Hh; cbn [attr bind].
  rewrite example_predator_kills_fed_prey by assumption.
  cbn [herbivores_eaten]; rewrite Hh; cbn [attr bind list_remove].
  rewrite same_herbivore_refl; cbn [bind].
  cbn [with_herbivores herbivores attr bind Carnivore.hunt
       Carnivore.hunt_loop herbivores_eaten].
  eexists _, _, _; reflexivity.
Qed.

Lemma shuffle_of_two {A : Type} (a b : A) (z : R) :
  random_shuffle [a; b] (constant_env z 0)
  = ([b; a], snd (randbelow 2 (constant_env z 0))).
Proof. reflexivity. Qed.

Lemma example_feeding :
  exists cs' f env' calls,
    feeding example_cell (constant_env 0 0)
    = Ok (land_cell Desert None f [] cs' [] [], env', calls).
Proof.
  rewrite example_cell_land.
  unfold feeding.
  cell_simpl. cbn [grow_fodder geography bind].
  unfold sort_herbivores_by_fitness; cell_simpl.
  cbn [sort_by_fitness fold_right insert_by_fitness herbivores_feed].
  cell_simpl.
  rewrite example_feed.
  unfold fodder_eaten; cell_simpl.
  assert (H0 : Rltb (0 - 0) 0 = false) by (apply Rltb_false; lra).
  rewrite H0; cbn [bind].
  unfold random_carnivore_order; cell_simpl.
  rewrite shuffle_of_two; cell_simpl.
  destruct (fed_prey_is_hunted
              1 0
              {| geography := Desert; movable := true; f_max := None;
                 fodder := Some (0 - 0);
                 herbivores := Some [example_fed_prey];
                 carnivores := Some [carnivore_at 1 40 20;
                                     carnivore_at 0 40 20];
                 migrated_herbivores := Some [];
                 migrated_carnivores := Some [] |}
              (snd (randbelow 2 (constant_env 0 0)))
              eq_refl eq_refl) as (cs' & env' & calls & E).
  rewrite E; cell_simpl.
  now exists cs', (0 - 0), env', calls.
Qed.

(** C5, the counterexample: the desert of the example island holds one
    herbivore and two carnivores when the year begins.  The loop body
    hands over a herbivore count of 1 for it, the count the year began
    with; after the feeding and the reproduction of that very cell no
    herbivore is left. *)
Lemma statistics_are_not_those_after_reproduction :
  exists g1 env1 calls g2 env2 cells' env' s,
    island_get example_island (2, 2)%Z = Ok example_cell
    /\ feeding example_cell (constant_env 0 0) = Ok (g1, env1, calls)
    /\ procreation g1 env1 = Ok (g2, env2)
    /\ first_pass_cell (2, 2)%Z example_island (constant_env 0 0) no_stats
       = Ok (cells', env', s)
    /\ herb_pop s = [1%nat]
    /\ List.length (residents_of (herbivores g2)) = 0%nat.
Proof.
  destruct example_feeding as (cs1 & f & env1 & calls & Ef).
  destruct (procreation_land Desert None f [] cs1 [] [] env1)
    as (hs2 & cs2 & env2 & Ep & _).
  destruct (first_pass_cell_runs (2, 2)%Z example_island (constant_env 0 0)
              no_stats example_cell example_island_well_formed eq_refl)
    as (cells' & env' & Es & _).
  eexists _, _, _, _, _, _, _, _.
  split; [reflexivity|].
  split; [exact Ef|].
  split; [exact Ep|].
  split; [exact Es|].
  split; [reflexivity|].
  apply procreation_result in Ep as (hs & cs & Hh & Hc & Eg & _).
  cell_simpl in Hh; inversion Hh; subst hs.
  cbn [filter List.length herbivores_breed fst snd app] in Eg.
  cell_simpl in Eg.
  inversion Eg; reflexivity.
Qed.


(** ** The example island with an animal in transit *)

Lemma example_transit_cell_land :
  example_transit_cell
  = land_cell Desert None 0 [example_prey]
              [carnivore_at 0 40 20; carnivore_at 1 40 20]
              [herbivore_at 3 5 20] [].
Proof. reflexivity. Qed.

Lemma example_transit_island_keys :
  NoDup (map fst example_transit_island).
Proof.
  unfold example_transit_island; rewrite island_set_keys.
  exact example_island_keys.
Qed.

Lemma example_transit_island_well_formed :
  well_formed example_transit_island.
Proof.
  apply well_formed_set; [exact example_island_well_formed|].
  unfold well_formed_cell; cbn [fst snd].
  change (movable example_transit_cell) with true; cbn iota.
  split.
  - rewrite example_transit_cell_land.
    exists Desert, None, 0, [example_prey],
           [carnivore_at 0 40 20; carnivore_at 1 40 20],
           [herbivore_at 3 5 20], [].
    split; [reflexivity|]; split; [discriminate | now left].
  - intros x Hx; cbn in Hx |- *.
    repeat (destruct Hx as [<-|Hx]; [tauto|]); contradiction.
Qed.

Lemma example_transit_island_water :
  Forall (fun cg => movable (snd cg) = false -> transit_count (snd cg) = O)
         example_transit_island.
Proof.
  apply forall_island_set.
  - unfold example_island.
    repeat (apply Forall_cons; [intros _; reflexivity|]).
    apply Forall_nil.
  - discriminate.
Qed.

(** C8 on the example island with one herbivore in transit. *)
Lemma migration_preserves_population_witness :
  (exists cells' env',
      animal_migration example_transit_island (2, 2)%Z (constant_env 0 0)
      = Ok (cells', env')
      /\ (total_residents cells' + total_transit cells'
          = total_residents example_transit_island
            + total_transit example_transit_island)%nat)
  /\ (exists g',
         migration_finished example_transit_cell = Ok g'
         /\ resident_count g'
            = (resident_count example_transit_cell
               + transit_count example_transit_cell)%nat
         /\ transit_count g' = O)
  /\ (exists cells' env',
         second_pass (map fst example_transit_island) example_transit_island
                     (constant_env 0 0)
         = Ok (cells', env')
         /\ exists merged,
             Forall2 (fun cg cg' => fst cg' = fst cg
                                    /\ merge_leaves (snd cg) (snd cg'))
                     example_transit_island merged
             /\ Forall2 (fun cg cg' =>
                           fst cg' = fst cg
                           /\ aging_and_death_leave (snd cg) (snd cg'))
                        merged cells'
             /\ total_residents merged
                = (total_residents example_transit_island
                   + total_transit example_transit_island)%nat
             /\ total_transit merged = O
             /\ total_transit cells' = O
             /\ (total_residents cells' <= total_residents merged)%nat).
Proof.
  split; [|split].
  - destruct (animal_migration_runs
                example_transit_island (2, 2)%Z (constant_env 0 0)
                example_transit_cell example_transit_island_well_formed
                eq_refl eq_refl) as (cells' & env' & E & _).
    exists cells', env'; split; [exact E|].
    exact (proj1 migration_preserves_population _ _ _ _ _ E).
  - eexists; split; [rewrite example_transit_cell_land;
                     apply migration_finished_land|].
    apply (proj1 (proj2 migration_preserves_population)).
    rewrite example_transit_cell_land; apply migration_finished_land.
  - destruct (second_pass_runs
                (map fst example_transit_island) example_transit_island
                (constant_env 0 0) example_transit_island_well_formed
                (incl_refl _)) as (cells' & env' & E & _).
    exists cells', env'; split; [exact E|].
    exact (proj2 (proj2 migration_preserves_population) _ _ _ _
                 example_transit_island_keys example_transit_island_water E).
Defined.


(** ** A quiet year of a lone herbivore *)

(** Alone among the candidates no animal gives birth, whatever is drawn. *)
Lemma lone_herbivore_gives_no_birth (h : Herbivore.t) (env : Env) :
  0 <= fst (random_random env) ->
  Herbivore.gives_birth 1 h env = (None, h, snd (random_random env)).
Proof.
  intros Hr; unfold Herbivore.gives_birth.
  destruct (random_random env) as [r env1]; cbn [fst snd] in *.
  assert (H : Rgtb (Rmin 1 (Herbivore.gamma h * Herbivore.fitness h
                            * (INR 1 - 1))) r = false).
  { apply Rgtb_false; cbn [INR].
    replace (Herbivore.gamma h * Herbivore.fitness h * (1 - 1)) with 0 by lra.
    rewrite Rmin_right; lra. }
  now rewrite H.
Qed.

(** An animal of positive weight survives a draw of 0.99 when its
    mortality [omega] is at most 0.99. *)
Lemma survives_quiet_draw (a : Animal.t) (env : Env) :
  0 < Animal.weight a -> 0 <= Animal.omega a <= 0.99 ->
  0 <= Animal.fitness a ->
  fst (random_random env) = 0.99 ->
  Animal.dies a env = (false, snd (random_random env)).
Proof.
  intros Hw Ho Hf Hr; unfold Animal.dies.
  assert (H0 : Reqb (Animal.weight a) 0 = false) by (apply Reqb_false; lra).
  rewrite H0.
  destruct (random_random env) as [r env1]; cbn [fst snd] in *; subst r.
  assert (H : Rgtb (Animal.omega a * (1 - Animal.fitness a)) 0.99 = false).
  { apply Rgtb_false; nra. }
  now rewrite H.
Qed.

Lemma lone_island_get : island_get lone_island (2, 2)%Z = Ok lone_cell.
Proof. reflexivity. Qed.

Lemma lone_cell_land :
  lone_cell = land_cell Desert None 0 [example_prey] [] [] [].
Proof. reflexivity. Qed.

Lemma lone_feeding (env : Env) :
  feeding lone_cell env
  = Ok (land_cell Desert None (0 - 0) [example_fed_prey] [] [] [], env, []).
Proof.
  rewrite lone_cell_land; unfold feeding.
  cell_simpl. cbn [grow_fodder geography bind].
  unfold sort_herbivores_by_fitness; cell_simpl.
  cbn [sort_by_fitness fold_right insert_by_fitness herbivores_feed].
  cell_simpl.
  rewrite example_feed.
  unfold fodder_eaten; cell_simpl.
  assert (H0 : Rltb (0 - 0) 0 = false) by (apply Rltb_false; lra).
  rewrite H0; cbn [bind].
  unfold random_carnivore_order; cell_simpl.
  reflexivity.
Qed.

Lemma example_fed_prey_age : Herbivore.age example_fed_prey = 40.
Proof.
  rewrite example_fed_prey_eq.
  unfold Herbivore.age at 1; cbn [Herbivore.with_base Herbivore.base].
  rewrite calculate_fitness_age; cbn [Animal.with_weight Animal.age].
  exact (herbivore_at_age 2 40 10).
Qed.

Lemma lone_procreation (k : terrain) (fm : option R) (f : R) (env : Env) :
  0 <= fst (random_random env) ->
  procreation (land_cell k fm f [example_fed_prey] [] [] []) env
  = Ok (land_cell k fm f [example_fed_prey] [] [] [],
        snd (random_random env)).
Proof.
  intros Hr; unfold procreation; cell_simpl.
  assert (H0 : Reqb (Herbivore.age example_fed_prey) 0 = false).
  { apply Reqb_false; rewrite example_fed_prey_age; lra. }
  cbn [filter]; rewrite H0; cbn [negb List.length herbivores_breed].
  rewrite H0, lone_herbivore_gives_no_birth by assumption.
  cbn [app]; cell_simpl. cbn [filter List.length carnivores_breed app].
  reflexivity.
Qed.

Lemma water_first_pass_cell (c : coordinate) (cells : Island) (env : Env)
      (s : YearStats) :
  island_get cells c = Ok (new_geography Water) ->
  first_pass_cell c cells env s
  = Ok (cells, env, count_population (new_geography Water) s).
Proof. intros H; unfold first_pass_cell; now rewrite H. Qed.

Lemma water_second_pass_cell (c : coordinate) (cells : Island) (env : Env) :
  island_get cells c = Ok (new_geography Water) ->
  second_pass_cell c cells env = Ok (cells, env).
Proof. intros H; unfold second_pass_cell; now rewrite H. Qed.

Lemma lone_cell_is_land : is_land lone_cell.
Proof.
  exists Desert, None, 0, [example_prey], [], [], [].
  split; [reflexivity|]; split; [discriminate | now left].
Qed.

Lemma lone_first_pass_cell (env : Env) (s : YearStats) :
  fst (random_random env) = 0.99 ->
  index_draws (snd (random_random env)) (index_pos (snd (random_random env))) = 0%nat ->
  first_pass_cell (2, 2)%Z lone_island env s
  = Ok (island_set lone_island (2,2)%Z
           (land_cell Desert None (0 - 0) [example_fed_prey] [] [] []),
        snd (randbelow 4 (snd (random_random env))),
        stats_app s (census [((2, 2)%Z, lone_cell)])).
Proof.
  intros Hr Hi.
  unfold first_pass_cell; rewrite lone_island_get; cbn [bind].
  change (movable lone_cell) with true; cbn iota.
  rewrite (proj2 (cell_statistics_land (2, 2)%Z lone_cell s lone_cell_is_land)).
  rewrite lone_feeding; cbn [bind].
  rewrite lone_procreation by (rewrite Hr; lra).
  cbn [bind].
  unfold animal_migration.
  set (g := land_cell Desert None (0 - 0) [example_fed_prey] [] [] []).
  change (island_get (island_set lone_island (2, 2)%Z g) (2, 2)%Z)
    with (Ok g).
  cbn [bind]; unfold g at 1 2; cell_simpl.
  cbn [map app migrate_all migrate_one].
  unfold random_choice, randbelow; rewrite Hi.
  cbn [List.length Nat.modulo Nat.divmod fst snd nth Nat.sub].
  change (2 + 1)%Z with 3%Z.
  change (island_get (island_set lone_island (2, 2)%Z g) (3, 2)%Z)
    with (Ok (new_geography Water)).
  reflexivity.
Qed.

Lemma lone_first_pass :
  exists env1 s,
  first_pass (map fst lone_island) lone_island quiet_env no_stats
  = Ok (island_set lone_island (2,2)%Z
           (land_cell Desert None (0 - 0) [example_fed_prey] [] [] []), env1, s)
  /\ uniform_draws env1 = (fun _ => 0.99).
Proof.
  change (map fst lone_island) with
    [(1, 1); (1, 2); (1, 3); (2, 1); (2, 2); (2, 3); (3, 1); (3, 2); (3, 3)]%Z.
  cbn [first_pass].
  repeat (rewrite water_first_pass_cell by reflexivity; cbn [bind]).
  rewrite lone_first_pass_cell by reflexivity; cbn [bind].
  repeat (rewrite water_first_pass_cell by reflexivity; cbn [bind]).
  eexists _, _; split; reflexivity.
Qed.

Lemma example_fed_prey_constants :
  Animal.eta (Herbivore.base example_fed_prey) = 0.05
  /\ Animal.omega (Herbivore.base example_fed_prey) = 0.4.
Proof.
  rewrite example_fed_prey_eq; cbn [Herbivore.with_base Herbivore.base].
  destruct (calculate_fitness_constants
              (Animal.with_weight
                 (Herbivore.weight example_prey
                  + Herbivore.beta example_prey * 0)
                 (Herbivore.base example_prey)))
    as (_ & _ & _ & _ & _ & _ & -> & ->).
  cbn [Animal.with_weight Animal.eta Animal.omega].
  pose proof (herbivore_at_constants 2 40 10) as Hc.
  split; [exact (f_equal k_eta Hc) | exact (f_equal k_omega Hc)].
Qed.

(** The example prey a year older: age 41, weight 9.5. *)
Lemma aged_prey_facts :
  let a := Herbivore.base (age_herbivore example_fed_prey) in
  Animal.weight a = 9.5 /\ Animal.age a = 41
  /\ Animal.omega a = 0.4 /\ 0 <= Animal.fitness a.
Proof.
  cbv zeta.
  unfold age_herbivore; cbn [Herbivore.with_base Herbivore.base].
  unfold Animal.update_age.
  pose proof example_fed_prey_weight as Hw.
  pose proof example_fed_prey_age as Ha.
  destruct example_fed_prey_constants as (He & Ho).
  unfold Herbivore.weight in Hw; unfold Herbivore.age in Ha.
  split; [|split; [|split]].
  - rewrite calculate_fitness_weight.
    cbn [Animal.with_weight Animal.with_age Animal.weight Animal.eta].
    rewrite Hw, He; lra.
  - rewrite calculate_fitness_age.
    cbn [Animal.with_weight Animal.with_age Animal.age].
    rewrite Ha; lra.
  - destruct (calculate_fitness_constants
                (Animal.with_weight
                   (Animal.weight
                      (Animal.with_age
                         (Animal.age (Herbivore.base example_fed_prey) + 1)
                         (Herbivore.base example_fed_prey))
                    - Animal.weight
                        (Animal.with_age
                           (Animal.age (Herbivore.base example_fed_prey) + 1)
                           (Herbivore.base example_fed_prey))
                      * Animal.eta
                          (Animal.with_age
                             (Animal.age (Herbivore.base example_fed_prey) + 1)
                             (Herbivore.base example_fed_prey)))
                   (Animal.with_age
                      (Animal.age (Herbivore.base example_fed_prey) + 1)
                      (Herbivore.base example_fed_prey))))
      as (_ & _ & _ & _ & _ & _ & -> & _).
    exact Ho.
  - apply fitness_range.
Qed.

Lemma lone_second_pass_cell (env : Env) :
  fst (random_random env) = 0.99 ->
  second_pass_cell (2, 2)%Z
    (island_set lone_island (2, 2)%Z
       (land_cell Desert None (0 - 0) [example_fed_prey] [] [] [])) env
  = Ok (island_set lone_island (2, 2)%Z
          (land_cell Desert None (0 - 0)
                     [age_herbivore example_fed_prey] [] [] []),
        snd (random_random env)).
Proof.
  intros Hr.
  unfold second_pass_cell.
  set (g := land_cell Desert None (0 - 0) [example_fed_prey] [] [] []).
  change (island_get (island_set lone_island (2, 2)%Z g) (2, 2)%Z)
    with (Ok g).
  cbn [bind]; change (movable g) with true; cbn iota.
  unfold g; rewrite migration_finished_land; cbn [bind app].
  rewrite animal_aging_land; cbn [bind map].
  unfold animal_death; cell_simpl.
  cbn [map app dead_among animal_base].
  destruct aged_prey_facts as (Hw & _ & Ho & Hf).
  rewrite survives_quiet_draw by (rewrite ?Hw, ?Ho; auto; lra).
  cbn [bury bind].
  reflexivity.
Qed.

Lemma lone_year :
  exists env' s,
    simulate 1 lone_sim quiet_env
    = Ok (mkBioSim
            (island_set lone_island (2, 2)%Z
               (land_cell Desert None (0 - 0)
                          [age_herbivore example_fed_prey] [] [] []))
            1, env', [s]).
Proof.
  destruct lone_first_pass as (env1 & s & E1 & Hu).
  cbn [simulate]; unfold simulate_year.
  change (island lone_sim) with lone_island.
  rewrite E1; cbn [bind].
  change (map fst lone_island) with
    [(1, 1); (1, 2); (1, 3); (2, 1); (2, 2); (2, 3); (3, 1); (3, 2); (3, 3)]%Z.
  cbn [second_pass].
  repeat (rewrite water_second_pass_cell by reflexivity; cbn [bind]).
  rewrite lone_second_pass_cell
    by (unfold random_random; cbn [fst]; now rewrite Hu).
  cbn [bind].
  repeat (rewrite water_second_pass_cell by reflexivity; cbn [bind]).
  eexists _, _; reflexivity.
Qed.

Lemma lone_island_keys : NoDup (map fst lone_island).
Proof. exact example_island_keys. Qed.

Lemma lone_island_well_formed : well_formed lone_island.
Proof.
  unfold well_formed, lone_island, example_island.
  cbn [island_set coordinate_eqb fst snd Z.eqb Pos.eqb andb].
  repeat (apply Forall_cons); try apply Forall_nil;
    unfold well_formed_cell; cbn [fst snd];
    try (change (movable (new_geography Water)) with false; cbn iota;
         exact water_is_water).
  change (movable lone_cell) with true; cbn iota.
  split; [exact lone_cell_is_land|].
  intros x Hx; cbn in Hx |- *.
  repeat (destruct Hx as [<-|Hx]; [tauto|]); contradiction.
Qed.

Lemma lone_island_healthy : healthy_island lone_island.
Proof.
  unfold healthy_island, lone_island, example_island.
  cbn [island_set coordinate_eqb fst snd Z.eqb Pos.eqb andb].
  repeat (apply Forall_cons); try apply Forall_nil; cbn [snd];
    try exact water_is_healthy.
  rewrite lone_cell_land; apply healthy_land_cell.
  split; [constructor; [apply herbivore_at_healthy; lra | constructor]|].
  repeat (split; [apply Forall_nil|]); split; [lra|discriminate].
Qed.

Lemma quiet_env_births : births_nonnegative quiet_env.
Proof. intros k; cbn; lra. Qed.

(** A year on the island whose desert holds one herbivore of age 40 and
    weight 10, under uniform draws of 0.99: the herbivore finds no fodder,
    gives no birth, stays, ages to a weight of 9.5 and survives. *)
Lemma weights_stay_nonnegative_witness :
  exists sim' env' stats h,
    simulate 1 lone_sim quiet_env = Ok (sim', env', stats)
    /\ island_get (island sim') (2, 2)%Z
       = Ok (land_cell Desert None (0 - 0) [h] [] [] [])
    /\ Herbivore.weight h = 9.5
    /\ healthy_island (island sim')
    /\ weights_nonnegative (island sim').
Proof.
  destruct lone_year as (env' & s & E).
  eexists _, env', [s], (age_herbivore example_fed_prey).
  split; [exact E|].
  split; [reflexivity|].
  split; [exact (proj1 aged_prey_facts)|].
  exact (proj2 (proj2 weights_stay_nonnegative) 1%nat lone_sim quiet_env
               _ _ _ lone_island_well_formed lone_island_keys
               lone_island_healthy quiet_env_births E).
Defined.

(** ** Births on concrete inputs *)


(** ** A hunt that reaches the maximal intake *)









(** ** [create_island]: what the two loops do *)

Lemma setitem_fresh (island : Island) (c : coordinate) (g : Geography) :
  ~ In c (map fst island) -> functions.setitem island c g = island ++ [(c, g)].
Proof.
  intros Hfresh; unfold functions.setitem.
  destruct (existsb (fun kg => coordinate_eqb (fst kg) c) island) eqn:E;
    [|reflexivity].
  apply existsb_exists in E as ([k g0] & Hin & Hk).
  apply coordinate_eqb_eq in Hk; cbn [fst] in Hk; subst k.
  exfalso; apply Hfresh, in_map_iff; now exists (c, g0).
Qed.

Lemma letter_in_spec (letter : ascii) (letters : list ascii) :
  functions.letter_in letter letters = true <-> In letter letters.
Proof.
  unfold functions.letter_in; rewrite existsb_exists; split.
  - intros (c & Hin & Hc); apply Ascii.eqb_eq in Hc; now subst.
  - intros Hin; exists letter; split; [assumption | apply Ascii.eqb_refl].
Qed.

Lemma valid_letter_cases (letter : ascii) :
  functions.letter_in letter functions.valid_letters = true ->
  letter = "L"%char \/ letter = "H"%char \/ letter = "D"%char
  \/ letter = "W"%char.
Proof.
  intros H; apply letter_in_spec in H; cbn in H.
  destruct H as [<-|[<-|[<-|[<-|[]]]]]; auto.
Qed.

Lemma invalid_border_water (letter : ascii) :
  functions.letter_in letter functions.valid_letters = true ->
  (functions.letter_in letter functions.invalid_border = false
   <-> letter = "W"%char).
Proof.
  intros H; destruct (valid_letter_cases letter H) as [->|[->|[->| ->]]];
    cbn; split; intros; congruence.
Qed.

Lemma getitem_valid (letter : ascii) :
  functions.letter_in letter functions.valid_letters = true ->
  functions.getitem functions.geography_types letter
  = functions.Returns (cell_of_letter letter).
Proof.
  intros H; destruct (valid_letter_cases letter H) as [->|[->|[->| ->]]];
    reflexivity.
Qed.

(** One turn of the inner loop. *)
Lemma create_line_letter (n_lines : nat) (x : Z) (len_line : nat) (y : Z)
      (letter : ascii) (rest : list ascii) (island : Island) :
  (letter_passes n_lines x len_line (y + 1) letter = true ->
   functions.create_line n_lines x len_line y (letter :: rest) island
   = functions.create_line n_lines x len_line (y + 1) rest
       (functions.setitem island (x, y + 1)%Z (cell_of_letter letter)))
  /\ (letter_passes n_lines x len_line (y + 1) letter = false ->
      exists m,
        functions.create_line n_lines x len_line y (letter :: rest) island
        = functions.Raises (functions.ValueError m)).
Proof.
  unfold letter_passes; cbn [functions.create_line].
  destruct (functions.letter_in letter functions.valid_letters) eqn:Hv;
    cbn [negb andb].
  2:{ split; [discriminate | intros _; eexists; reflexivity]. }
  rewrite (getitem_valid letter Hv).
  destruct (functions.letter_in letter functions.invalid_border);
    rewrite ?andb_true_r, ?andb_false_r; cbn [orb negb].
  - destruct (Z.eqb x 1); cbn [orb negb].
    { split; [discriminate | intros _; eexists; reflexivity]. }
    destruct (Z.eqb (y + 1) 1); cbn [orb negb].
    { split; [discriminate | intros _; eexists; reflexivity]. }
    destruct (Z.eqb x (Z.of_nat n_lines)); cbn [orb negb].
    { split; [discriminate | intros _; eexists; reflexivity]. }
    destruct (Z.eqb (y + 1) (Z.of_nat len_line)); cbn [orb negb].
    { split; [discriminate | intros _; eexists; reflexivity]. }
    split; [reflexivity | discriminate].
  - split; [reflexivity | discriminate].
Qed.

Lemma line_cells_keys (x y : Z) (letters : list ascii) (k : coordinate) :
  In k (map fst (line_cells x y letters)) ->
  fst k = x /\ (y < snd k <= y + Z.of_nat (List.length letters))%Z.
Proof.
  revert y; induction letters as [|l rest IH]; intros y H; [contradiction|].
  cbn [line_cells map List.length] in *; destruct H as [<-|H].
  - cbn [fst snd]; lia.
  - apply IH in H; lia.
Qed.

(** The inner loop on the rest of a line, when the keys of the island
    come before that rest in reading order. *)
Lemma create_line_spec (n_lines : nat) (x : Z) (len_line : nat)
      (letters : list ascii) :
  forall (y : Z) (island : Island),
    Forall (fun k => (fst k < x)%Z \/ (fst k = x /\ (snd k <= y)%Z))
           (map fst island) ->
    if line_passes n_lines x len_line y letters
    then functions.create_line n_lines x len_line y letters island
         = functions.Returns (island ++ line_cells x y letters)
    else exists m,
        functions.create_line n_lines x len_line y letters island
        = functions.Raises (functions.ValueError m).
Proof.
  induction letters as [|letter rest IH]; intros y island Hbefore.
  - cbn; now rewrite app_nil_r.
  - cbn [line_passes line_cells].
    destruct (create_line_letter n_lines x len_line y letter rest island)
      as [Hpass Hfail].
    destruct (letter_passes n_lines x len_line (y + 1) letter);
      cbn [andb]; [|now apply Hfail].
    rewrite (Hpass eq_refl), setitem_fresh.
    + specialize (IH (y + 1)%Z (island ++ [((x, y + 1)%Z,
                                             cell_of_letter letter)])).
      rewrite <- app_assoc in IH; cbn [app] in IH.
      apply IH.
      rewrite map_app; apply Forall_app; split.
      * eapply Forall_impl; [|exact Hbefore]; cbn; intros k Hk; lia.
      * repeat constructor; cbn; lia.
    + intros Hin; rewrite Forall_forall in Hbefore.
      apply Hbefore in Hin; cbn in Hin; lia.
Qed.

(** The outer loop on the rest of the lines, when the keys of the island
    are on the lines read so far. *)
Lemma create_lines_spec (n_lines exp_line_length : nat)
      (lines : list (list ascii)) :
  forall (x : Z) (island : Island),
    Forall (fun k => (fst k <= x)%Z) (map fst island) ->
    if lines_pass n_lines exp_line_length x lines
    then functions.create_lines n_lines exp_line_length x lines island
         = functions.Returns (island ++ lines_cells x lines)
    else exists m,
        functions.create_lines n_lines exp_line_length x lines island
        = functions.Raises (functions.ValueError m).
Proof.
  induction lines as [|line rest IH]; intros x island Hbefore.
  - cbn; now rewrite app_nil_r.
  - cbn [lines_pass lines_cells functions.create_lines].
    destruct (Nat.eqb (List.length line) exp_line_length); cbn [negb andb];
      [|eexists; reflexivity].
    assert (Hb : Forall (fun k => (fst k < x + 1)%Z
                                  \/ (fst k = (x + 1)%Z /\ (snd k <= 0)%Z))
                        (map fst island)).
    { eapply Forall_impl; [|exact Hbefore]; cbn; intros k Hk; lia. }
    pose proof (create_line_spec n_lines (x + 1) (List.length line) line
                                 0 island Hb) as Hline.
    destruct (line_passes n_lines (x + 1) (List.length line) 0 line);
      cbn [andb].
    + rewrite Hline.
      specialize (IH (x + 1)%Z (island ++ line_cells (x + 1) 0 line)).
      rewrite <- app_assoc in IH; apply IH.
      rewrite map_app; apply Forall_app; split.
      * eapply Forall_impl; [|exact Hbefore]; cbn; intros k Hk; lia.
      * apply Forall_forall; intros k Hk.
        apply line_cells_keys in Hk; lia.
    + destruct Hline as [m ->]; now exists m.
Qed.

(** [create_island] in one equation: it returns the cells of the lines
    in reading order, or raises. *)
Lemma create_island_spec (island_map : string) :
  match functions.split island_map with
  | [] => functions.create_island island_map
          = functions.Raises functions.IndexError
  | first :: rest =>
      if lines_pass (List.length (first :: rest)) (List.length first) 0
                    (first :: rest)
      then functions.create_island island_map
           = functions.Returns (lines_cells 0 (first :: rest))
      else exists m, functions.create_island island_map
                     = functions.Raises (functions.ValueError m)
  end.
Proof.
  unfold functions.create_island.
  destruct (functions.split island_map) as [|first rest]; [reflexivity|].
  exact (create_lines_spec (List.length (first :: rest)) (List.length first)
                           (first :: rest) 0 [] (Forall_nil _)).
Qed.


(** ** The maps [create_island] accepts *)

Lemma letter_passes_spec (n_lines : nat) (x : Z) (len_line : nat) (y : Z)
      (letter : ascii) :
  letter_passes n_lines x len_line y letter = true
  <-> In letter functions.valid_letters
      /\ ((x = 1 \/ y = 1 \/ x = Z.of_nat n_lines \/ y = Z.of_nat len_line)%Z
          -> letter = "W"%char).
Proof.
  unfold letter_passes; rewrite andb_true_iff, negb_true_iff.
  rewrite letter_in_spec; split; intros [Hv H]; (split; [assumption|]).
  - intros Hb; apply invalid_border_water; [now apply letter_in_spec|].
    apply andb_false_iff in H as [H|H]; [|assumption].
    exfalso; rewrite !orb_false_iff, !Z.eqb_neq in H; lia.
  - destruct (Z.eqb x 1 || Z.eqb y 1 || Z.eqb x (Z.of_nat n_lines)
              || Z.eqb y (Z.of_nat len_line)) eqn:E; [|reflexivity].
    cbn [andb]; apply invalid_border_water; [now apply letter_in_spec|].
    apply H; rewrite !orb_true_iff, !Z.eqb_eq in E; tauto.
Qed.

Lemma line_passes_spec (n_lines : nat) (x : Z) (len_line : nat)
      (letters : list ascii) :
  forall y0 : nat,
    len_line = (y0 + List.length letters)%nat ->
    (line_passes n_lines x len_line (Z.of_nat y0) letters = true
     <-> Forall (fun letter => In letter functions.valid_letters) letters
         /\ ((x = 1 \/ x = Z.of_nat n_lines)%Z -> all_water letters)
         /\ (y0 = O -> hd "W"%char letters = "W"%char)
         /\ last letters "W"%char = "W"%char).
Proof.
  induction letters as [|l rest IH]; intros y0 ->.
  - cbn; split; [|reflexivity]; intros _.
    repeat split; auto; intros _; constructor.
  - cbn [line_passes]; rewrite andb_true_iff, letter_passes_spec.
    replace (Z.of_nat y0 + 1)%Z with (Z.of_nat (S y0)) by lia.
    rewrite (IH (S y0)) by (cbn [List.length]; lia).
    cbn [hd]; split.
    + intros [[Hv Hb] (Hall & Hw & _ & Hlast)].
      split; [now constructor|].
      split; [intros Hx; constructor; [apply Hb; tauto | now apply Hw]|].
      split; [intros ->; apply Hb; lia|].
      destruct rest as [|l2 rest]; [|exact Hlast].
      cbn [last]; apply Hb; cbn [List.length]; lia.
    + intros (Hall & Hw & Hhd & Hlast).
      inversion Hall as [|? ? Hv Hrest]; subst.
      split; [split; [assumption|]|].
      * intros [Hx|[Hy|[Hx|Hy]]].
        -- specialize (Hw (or_introl Hx)); now inversion Hw.
        -- apply Hhd; lia.
        -- specialize (Hw (or_intror Hx)); now inversion Hw.
        -- destruct rest as [|l2 rest]; [exact Hlast|].
           cbn [List.length] in Hy; lia.
      * split; [assumption|].
        split; [intros Hx; specialize (Hw Hx); now inversion Hw|].
        split; [discriminate|].
        destruct rest as [|l2 rest]; [reflexivity | exact Hlast].
Qed.

Lemma lines_pass_spec (n_lines exp_line_length : nat)
      (lines : list (list ascii)) :
  forall x0 : nat,
    n_lines = (x0 + List.length lines)%nat ->
    (lines_pass n_lines exp_line_length (Z.of_nat x0) lines = true
     <-> Forall (fun line => List.length line = exp_line_length) lines
         /\ Forall (Forall (fun letter => In letter functions.valid_letters))
                   lines
         /\ (x0 = O -> all_water (hd [] lines))
         /\ all_water (last lines [])
         /\ Forall (fun line => hd "W"%char line = "W"%char
                                /\ last line "W"%char = "W"%char) lines).
Proof.
  induction lines as [|line rest IH]; intros x0 ->.
  - cbn; split; [|reflexivity]; intros _.
    repeat split; auto; try constructor; intros _; constructor.
  - cbn [lines_pass]; rewrite !andb_true_iff, Nat.eqb_eq.
    replace (Z.of_nat x0 + 1)%Z with (Z.of_nat (S x0)) by lia.
    rewrite (IH (S x0)) by (cbn [List.length]; lia).
    rewrite (line_passes_spec _ (Z.of_nat (S x0)) (List.length line)
                              line 0 eq_refl).
    cbn [hd]; split.
    + intros [[Hlen (Hv & Hw & Hhd & Hlast)] (Hlens & Hvs & _ & Hlw & Hb)].
      split; [now constructor|].
      split; [now constructor|].
      split; [intros ->; apply Hw; lia|].
      split; [|constructor; [split; [now apply Hhd | assumption]
                            | assumption]].
      destruct rest as [|l2 rest]; [|exact Hlw].
      cbn [last]; apply Hw; cbn [List.length]; lia.
    + intros (Hlens & Hvs & Hfirst & Hlw & Hb).
      inversion Hlens; inversion Hvs; inversion Hb as [|? ? [Hh Hl] Hb'];
        subst.
      split; [split; [reflexivity|]|].
      * split; [assumption|].
        split; [|split; [intros _; assumption | assumption]].
        intros [Hx|Hx]; [apply Hfirst; lia|].
        destruct rest as [|l2 rest]; [exact Hlw|].
        cbn [List.length] in Hx; lia.
      * split; [assumption|].
        split; [assumption|].
        split; [discriminate|].
        split; [|assumption].
        destruct rest as [|l2 rest]; [constructor | exact Hlw].
Qed.

Lemma lines_pass_accepted (lines : list (list ascii)) :
  lines <> [] ->
  (lines_pass (List.length lines) (List.length (hd [] lines)) 0 lines = true
   <-> accepted_map lines).
Proof.
  intros Hne; unfold accepted_map.
  rewrite (lines_pass_spec (List.length lines) (List.length (hd [] lines))
                           lines 0 eq_refl).
  split.
  - intros (A & B & C & D & E); repeat split; auto.
  - intros (_ & A & B & C & D & E); repeat split; auto.
Qed.


(** ** The grid [create_island] builds *)

Lemma line_cells_grid (x : Z) (letters : list ascii) :
  forall y0 : nat,
    map fst (line_cells x (Z.of_nat y0) letters)
    = map (fun y => (x, Z.of_nat y)) (seq (S y0) (List.length letters)).
Proof.
  induction letters as [|l rest IH]; intros y0; [reflexivity|].
  cbn [line_cells map List.length seq fst].
  replace (Z.of_nat y0 + 1)%Z with (Z.of_nat (S y0)) by lia.
  now rewrite IH.
Qed.

Lemma lines_cells_grid (cols : nat) (lines : list (list ascii)) :
  forall x0 : nat,
    Forall (fun line => List.length line = cols) lines ->
    map fst (lines_cells (Z.of_nat x0) lines)
    = flat_map (fun x => map (fun y => (Z.of_nat x, Z.of_nat y)) (seq 1 cols))
               (seq (S x0) (List.length lines)).
Proof.
  induction lines as [|line rest IH]; intros x0 Hlen; [reflexivity|].
  inversion Hlen as [|? ? Hl Hrest]; subst.
  cbn [lines_cells List.length seq flat_map]; rewrite map_app.
  replace (Z.of_nat x0 + 1)%Z with (Z.of_nat (S x0)) by lia.
  pose proof (line_cells_grid (Z.of_nat (S x0)) line 0) as E.
  change (Z.of_nat 0) with 0%Z in E.
  now rewrite E, (IH (S x0) Hrest).
Qed.

Lemma grid_keys_in (rows cols : nat) (x y : Z) :
  In (x, y) (grid_keys rows cols)
  <-> (1 <= x <= Z.of_nat rows /\ 1 <= y <= Z.of_nat cols)%Z.
Proof.
  unfold grid_keys; rewrite in_flat_map; split.
  - intros (i & Hi & Hin).
    apply in_map_iff in Hin as (j & E & Hj); inversion E; subst.
    apply in_seq in Hi, Hj; lia.
  - intros [Hx Hy]; exists (Z.to_nat x); split; [apply in_seq; lia|].
    apply in_map_iff; exists (Z.to_nat y); split; [|apply in_seq; lia].
    f_equal; lia.
Qed.

Lemma nodup_map_injective {A B : Type} (f : A -> B) (l : list A) :
  (forall a b, f a = f b -> a = b) -> NoDup l -> NoDup (map f l).
Proof.
  intros Hinj H; induction H as [|a l Hfresh Hnd IH]; cbn; constructor;
    [|assumption].
  intros Hin; apply in_map_iff in Hin as (b & E & Hb).
  apply Hinj in E; now subst.
Qed.

Lemma grid_keys_nodup (rows cols : nat) : NoDup (grid_keys rows cols).
Proof.
  unfold grid_keys.
  enough (H : forall x0,
             NoDup (flat_map
                      (fun x => map (fun y => (Z.of_nat x, Z.of_nat y))
                                    (seq 1 cols))
                      (seq x0 rows))) by apply H.
  induction rows as [|rows IH]; intros x0; [constructor|].
  cbn [seq flat_map]; apply NoDup_app.
  - apply nodup_map_injective; [|apply seq_NoDup].
    intros a b E; inversion E; lia.
  - apply IH.
  - intros k Hk Hk'.
    apply in_map_iff in Hk as (j & <- & _).
    apply in_flat_map in Hk' as (i & Hi & Hin).
    apply in_map_iff in Hin as (j' & E & _); inversion E.
    apply in_seq in Hi; lia.
Qed.

Lemma line_cells_nth (x : Z) (letters : list ascii) (j : nat)
      (letter : ascii) :
  forall y0 : nat,
    nth_error letters j = Some letter ->
    In ((x, Z.of_nat (y0 + j) + 1)%Z, cell_of_letter letter)
       (line_cells x (Z.of_nat y0) letters).
Proof.
  revert j; induction letters as [|l rest IH]; intros j y0 H.
  - destruct j; discriminate.
  - destruct j as [|j]; cbn [nth_error line_cells] in *.
    + inversion H; subst; left; repeat f_equal; lia.
    + right.
      replace (Z.of_nat y0 + 1)%Z with (Z.of_nat (S y0)) by lia.
      replace (y0 + S j)%nat with (S y0 + j)%nat by lia.
      now apply IH.
Qed.

Lemma lines_cells_nth (lines : list (list ascii)) (i j : nat)
      (line : list ascii) (letter : ascii) :
  forall x0 : nat,
    nth_error lines i = Some line -> nth_error line j = Some letter ->
    In ((Z.of_nat (x0 + i) + 1, Z.of_nat j + 1)%Z, cell_of_letter letter)
       (lines_cells (Z.of_nat x0) lines).
Proof.
  revert i; induction lines as [|l rest IH]; intros i x0 Hi Hj.
  - destruct i; discriminate.
  - destruct i as [|i]; cbn [nth_error lines_cells] in *; apply in_or_app.
    + inversion Hi; subst; left.
      replace (x0 + 0)%nat with x0 by lia.
      exact (line_cells_nth (Z.of_nat x0 + 1) line j letter 0 Hj).
    + right.
      replace (Z.of_nat x0 + 1)%Z with (Z.of_nat (S x0)) by lia.
      replace (x0 + S i)%nat with (S x0 + i)%nat by lia.
      now apply IH.
Qed.

(** Every cell of the grid is the cell of a letter of the map. *)
Lemma lines_cells_letter (lines : list (list ascii)) (k : coordinate)
      (g : Geography) :
  forall x : Z,
    In (k, g) (lines_cells x lines) ->
    exists line letter,
      In line lines /\ In letter line /\ g = cell_of_letter letter.
Proof.
  induction lines as [|l rest IH]; intros x H; [contradiction|].
  cbn [lines_cells] in H; apply in_app_or in H as [H|H].
  - exists l.
    assert (Hl : exists letter, In letter l /\ g = cell_of_letter letter).
    { clear IH; generalize dependent 0%Z.
      induction l as [|c l IHl]; intros y H; [contradiction|].
      cbn [line_cells] in H; destruct H as [H|H].
      - inversion H; exists c; split; [now left | reflexivity].
      - destruct (IHl _ H) as (letter & Hin & E).
        exists letter; split; [now right | assumption]. }
    destruct Hl as (letter & Hin & E).
    exists letter; repeat split; [now left | assumption | assumption].
  - destruct (IH _ H) as (line & letter & Hl & Hin & E).
    exists line, letter; repeat split; [now right | assumption | assumption].
Qed.


(** ** The island [create_island] returns is well formed *)

Lemma cell_of_valid_letter (letter : ascii) :
  In letter functions.valid_letters ->
  (letter = "W"%char /\ cell_of_letter letter = new_geography Water)
  \/ (letter <> "W"%char /\ is_land (cell_of_letter letter)
      /\ exists k, k <> Water /\ cell_of_letter letter = new_geography k).
Proof.
  intros H; cbn in H; destruct H as [<-|[<-|[<-|[<-|[]]]]].
  - right; split; [discriminate|]; split.
    + exists Lowland, (Some 800), 0, [], [], [], [].
      split; [reflexivity|]; split; [discriminate | right; discriminate].
    + exists Lowland; split; [discriminate | reflexivity].
  - right; split; [discriminate|]; split.
    + exists Highland, (Some 500), 0, [], [], [], [].
      split; [reflexivity|]; split; [discriminate | right; discriminate].
    + exists Highland; split; [discriminate | reflexivity].
  - right; split; [discriminate|]; split.
    + exists Desert, None, 0, [], [], [], [].
      split; [reflexivity|]; split; [discriminate | now left].
    + exists Desert; split; [discriminate | reflexivity].
  - left; split; reflexivity.
Qed.

(** A cell of an accepted line is water, or land away from the border. *)
Lemma line_passes_cells (n_lines : nat) (x : Z) (len_line : nat)
      (letters : list ascii) :
  forall y0 : nat,
    len_line = (y0 + List.length letters)%nat ->
    line_passes n_lines x len_line (Z.of_nat y0) letters = true ->
    Forall (fun kg : coordinate * Geography =>
              fst (fst kg) = x
              /\ (is_water (snd kg) /\ movable (snd kg) = false
                  \/ is_land (snd kg)
                     /\ (x <> 1 /\ x <> Z.of_nat n_lines
                         /\ 1 < snd (fst kg) < Z.of_nat len_line)%Z))
           (line_cells x (Z.of_nat y0) letters).
Proof.
  induction letters as [|l rest IH]; intros y0 -> H; [constructor|].
  cbn [line_passes line_cells] in *.
  apply andb_true_iff in H as [Hl Hrest].
  replace (Z.of_nat y0 + 1)%Z with (Z.of_nat (S y0)) in * by lia.
  constructor.
  - cbn [fst snd]; split; [reflexivity|].
    apply letter_passes_spec in Hl as [Hv Hb].
    destruct (cell_of_valid_letter l Hv) as [[-> ->]|(Hw & Hland & _)].
    + left; split; [exact water_is_water | reflexivity].
    + right; split; [assumption|].
      assert (H1 : x <> 1%Z) by (intros E; apply Hw, Hb; lia).
      assert (H2 : x <> Z.of_nat n_lines) by (intros E; apply Hw, Hb; lia).
      assert (H3 : Z.of_nat (S y0) <> 1%Z) by (intros E; apply Hw, Hb; lia).
      assert (H4 : Z.of_nat (S y0)
                   <> Z.of_nat (y0 + List.length (l :: rest)))
        by (intros E; apply Hw, Hb; lia).
      cbn [List.length] in *; lia.
  - apply IH; [cbn [List.length]; lia | assumption].
Qed.

Lemma lines_pass_cells (n_lines exp_line_length : nat)
      (lines : list (list ascii)) :
  forall x0 : nat,
    n_lines = (x0 + List.length lines)%nat ->
    lines_pass n_lines exp_line_length (Z.of_nat x0) lines = true ->
    Forall (fun kg : coordinate * Geography =>
              is_water (snd kg) /\ movable (snd kg) = false
              \/ is_land (snd kg)
                 /\ (1 < fst (fst kg) < Z.of_nat n_lines
                     /\ 1 < snd (fst kg) < Z.of_nat exp_line_length)%Z)
           (lines_cells (Z.of_nat x0) lines).
Proof.
  induction lines as [|line rest IH]; intros x0 -> H; [constructor|].
  cbn [lines_pass lines_cells] in *.
  apply andb_true_iff in H as [H Hrest].
  apply andb_true_iff in H as [Hlen Hline]; apply Nat.eqb_eq in Hlen.
  replace (Z.of_nat x0 + 1)%Z with (Z.of_nat (S x0)) in * by lia.
  apply Forall_app; split.
  - pose proof (line_passes_cells _ _ _ line 0 eq_refl Hline) as Hc.
    change (Z.of_nat 0) with 0%Z in Hc.
    eapply Forall_impl; [|exact Hc].
    intros [[x y] g]; cbn [fst snd]; intros [-> [Hw|[Hl Hb]]];
      [now left | right].
    split; [assumption|]; cbn [List.length] in *; lia.
  - apply IH; [cbn [List.length]; lia | assumption].
Qed.

Lemma created_island_facts (island_map : string) (island : Island) :
  functions.create_island island_map = functions.Returns island ->
  let lines := functions.split island_map in
  accepted_map lines
  /\ island = lines_cells 0 lines
  /\ map fst island
     = grid_keys (List.length lines) (List.length (hd [] lines))
  /\ well_formed island.
Proof.
  intros H lines; subst lines.
  pose proof (create_island_spec island_map) as Hspec.
  destruct (functions.split island_map) as [|first rest] eqn:Hsplit;
    [rewrite Hspec in H; discriminate|].
  destruct (lines_pass (List.length (first :: rest)) (List.length first) 0
                       (first :: rest)) eqn:Hpass;
    [|destruct Hspec as [m Hm]; rewrite Hm in H; discriminate].
  rewrite Hspec in H; inversion H; subst island; clear H.
  pose proof (proj1 (lines_pass_accepted (first :: rest) ltac:(discriminate))
                    Hpass) as Hacc.
  assert (Hkeys : map fst (lines_cells 0 (first :: rest))
                  = grid_keys (List.length (first :: rest))
                              (List.length first)).
  { destruct Hacc as (_ & Hlen & _).
    exact (lines_cells_grid (List.length first) (first :: rest) 0 Hlen). }
  split; [assumption|]; split; [reflexivity|]; split; [assumption|].
  change (Forall (well_formed_cell
                    (map fst (lines_cells 0 (first :: rest))))
                 (lines_cells 0 (first :: rest))).
  rewrite Hkeys.
  pose proof (lines_pass_cells _ _ (first :: rest) 0 eq_refl Hpass) as Hc.
  change (Z.of_nat 0) with 0%Z in Hc.
  eapply Forall_impl; [|exact Hc].
  intros [[x y] g]; unfold well_formed_cell; cbn [fst snd].
  intros [[Hw ->]|[Hl Hb]]; [assumption|].
  rewrite (is_land_movable g Hl); split; [assumption|].
  intros k Hk; cbn in Hk.
  destruct Hk as [<-|[<-|[<-|[<-|[]]]]]; apply grid_keys_in; lia.
Qed.


(** ** Insertion of a population on land *)

Lemma herbivore_init_age (a : R) (w : option R) (env : Env) :
  Herbivore.age (fst (Herbivore.init a w env)) = a.
Proof.
  unfold Herbivore.init, new_object, Herbivore.age.
  destruct w; unfold random_gauss; cbn; now rewrite calculate_fitness_age.
Qed.

Lemma carnivore_init_age (a : R) (w : option R) (env : Env) :
  Carnivore.age (fst (Carnivore.init a w env)) = a.
Proof.
  unfold Carnivore.init, new_object, Carnivore.age.
  destruct w; unfold random_gauss; cbn; now rewrite calculate_fitness_age.
Qed.

Lemma herbivore_init_weight (a w : R) (env : Env) :
  Herbivore.weight (fst (Herbivore.init a (Some w) env)) = w.
Proof.
  unfold Herbivore.init, new_object, Herbivore.weight; cbn.
  now rewrite calculate_fitness_weight.
Qed.

Lemma carnivore_init_weight (a w : R) (env : Env) :
  Carnivore.weight (fst (Carnivore.init a (Some w) env)) = w.
Proof.
  unfold Carnivore.init, new_object, Carnivore.weight; cbn.
  now rewrite calculate_fitness_weight.
Qed.

Lemma herbivore_init_no_draw (a w : R) (env : Env) :
  no_draw env (snd (Herbivore.init a (Some w) env)).
Proof. unfold no_draw; cbn; tauto. Qed.

Lemma carnivore_init_no_draw (a w : R) (env : Env) :
  no_draw env (snd (Carnivore.init a (Some w) env)).
Proof. unfold no_draw; cbn; tauto. Qed.

Lemma no_draw_refl (env : Env) : no_draw env env.
Proof. unfold no_draw; tauto. Qed.

Lemma no_draw_trans (e1 e2 e3 : Env) :
  no_draw e1 e2 -> no_draw e2 e3 -> no_draw e1 e3.
Proof.
  unfold no_draw; intros (A & B & C & D & E & F) (A' & B' & C' & D' & E' & F').
  repeat split; congruence.
Qed.

(** On land [insert_population] returns; it appends one animal for every
    description of a herbivore or carnivore, in the order of the list. *)
Lemma insert_population_land (animals : list description) :
  forall (k : terrain) (fm : option R) (f : R)
         (hs : list Herbivore.t) (cs : list Carnivore.t)
         (mhs : list Herbivore.t) (mcs : list Carnivore.t) (env : Env),
  exists new_hs new_cs env',
    insert_population animals (land_cell k fm f hs cs mhs mcs) env
    = (land_cell k fm f (hs ++ new_hs) (cs ++ new_cs) mhs mcs, env', Ok tt)
    /\ map Herbivore.age new_hs = map d_age (described "Herbivore" animals)
    /\ map Carnivore.age new_cs = map d_age (described "Carnivore" animals)
    /\ Forall (fun h => Herbivore.constants h = Herbivore.default_constants)
              new_hs
    /\ Forall (fun c => Carnivore.constants c = Carnivore.default_constants)
              new_cs
    /\ (weights_given animals ->
        map (fun h => Some (Herbivore.weight h)) new_hs
        = map d_weight (described "Herbivore" animals)
        /\ map (fun c => Some (Carnivore.weight c)) new_cs
           = map d_weight (described "Carnivore" animals)
        /\ no_draw env env').
Proof.
  induction animals as [|d rest IH]; intros k fm f hs cs mhs mcs env.
  - exists [], [], env; rewrite !app_nil_r.
    repeat split; auto using no_draw_refl.
  - cbn [insert_population]; unfold described; cbn [filter].
    destruct (String.eqb (d_species d) "Herbivore") eqn:Eh.
    + assert (Ec : String.eqb (d_species d) "Carnivore" = false).
      { apply String.eqb_eq in Eh; now rewrite Eh. }
      rewrite Ec; cell_simpl.
      pose proof (herbivore_init_age (d_age d) (d_weight d) env) as Hage.
      pose proof (herbivore_init_constants (d_age d) (d_weight d) env) as Hcon.
      assert (Hwt : forall w, d_weight d = Some w ->
                Herbivore.weight
                  (fst (Herbivore.init (d_age d) (d_weight d) env)) = w
                /\ no_draw env
                     (snd (Herbivore.init (d_age d) (d_weight d) env))).
      { intros w ->; split;
          [apply herbivore_init_weight | apply herbivore_init_no_draw]. }
      destruct (Herbivore.init (d_age d) (d_weight d) env) as [h env1].
      cbn [fst snd] in Hage, Hcon, Hwt.
      destruct (IH k fm f (hs ++ [h]) cs mhs mcs env1)
        as (new_hs & new_cs & env' & E & Ha & Hca & Hk & Hck & Hw).
      cell_simpl in E; rewrite E.
      exists (h :: new_hs), new_cs, env'.
      rewrite <- app_assoc; split; [reflexivity|].
      split; [cbn [map]; now rewrite Hage, Ha|].
      split; [exact Hca|].
      split; [now constructor|].
      split; [exact Hck|].
      intros Hgiven; inversion Hgiven as [|? ? Hd Hrest]; subst.
      destruct (Hw Hrest) as (Hhw & Hcw & Hnd).
      destruct (d_weight d) as [w|] eqn:Edw; [|contradiction].
      destruct (Hwt w eq_refl) as [Hwh Hnd1].
      split; [cbn [map]; now rewrite Hwh, Hhw, Edw|].
      split; [exact Hcw|].
      eapply no_draw_trans; eassumption.
    + destruct (String.eqb (d_species d) "Carnivore") eqn:Ec.
      * cell_simpl.
        pose proof (carnivore_init_age (d_age d) (d_weight d) env) as Hage.
        pose proof (carnivore_init_constants (d_age d) (d_weight d) env)
          as Hcon.
        assert (Hwt : forall w, d_weight d = Some w ->
                  Carnivore.weight
                    (fst (Carnivore.init (d_age d) (d_weight d) env)) = w
                  /\ no_draw env
                       (snd (Carnivore.init (d_age d) (d_weight d) env))).
        { intros w ->; split;
            [apply carnivore_init_weight | apply carnivore_init_no_draw]. }
        destruct (Carnivore.init (d_age d) (d_weight d) env) as [c env1].
        cbn [fst snd] in Hage, Hcon, Hwt.
        destruct (IH k fm f hs (cs ++ [c]) mhs mcs env1)
          as (new_hs & new_cs & env' & E & Ha & Hca & Hk & Hck & Hw).
        cell_simpl in E; rewrite E.
        exists new_hs, (c :: new_cs), env'.
        rewrite <- app_assoc; split; [reflexivity|].
        split; [exact Ha|].
        split; [cbn [map]; now rewrite Hage, Hca|].
        split; [exact Hk|].
        split; [now constructor|].
        intros Hgiven; inversion Hgiven as [|? ? Hd Hrest]; subst.
        destruct (Hw Hrest) as (Hhw & Hcw & Hnd).
        destruct (d_weight d) as [w|] eqn:Edw; [|contradiction].
        destruct (Hwt w eq_refl) as [Hwc Hnd1].
        split; [exact Hhw|].
        split; [cbn [map]; now rewrite Hwc, Hcw, Edw|].
        eapply no_draw_trans; eassumption.
      * destruct (IH k fm f hs cs mhs mcs env)
          as (new_hs & new_cs & env' & E & Ha & Hca & Hk & Hck & Hw).
        exists new_hs, new_cs, env'; split; [exact E|].
        split; [exact Ha|]; split; [exact Hca|]; split; [exact Hk|].
        split; [exact Hck|].
        intros Hgiven; inversion Hgiven; subst; now apply Hw.
Qed.

(** On water nothing is inserted and nothing is drawn; the call returns
    normally only if no description names one of the two species. *)
Lemma insert_population_water (animals : list description) (g : Geography)
      (env : Env) :
  is_water g ->
  insert_population animals g env
  = (g, env,
     match described "Herbivore" animals ++ described "Carnivore" animals with
     | [] => Ok tt
     | _ :: _ => Raise AttributeError
     end).
Proof.
  intros (Hh & Hc & _); unfold described.
  induction animals as [|d rest IH]; [reflexivity|].
  cbn [insert_population filter].
  destruct (String.eqb (d_species d) "Herbivore") eqn:Eh.
  - now rewrite Hh.
  - destruct (String.eqb (d_species d) "Carnivore") eqn:Ec.
    + rewrite Hc.
      destruct (filter _ rest); reflexivity.
    + exact IH.
Qed.


(** ** [add_population] on a well-formed island *)

Lemma insert_population_well_formed (keys : list coordinate)
      (loc : coordinate) (g : Geography) (pop : list description)
      (env : Env) :
  well_formed_cell keys (loc, g) ->
  exists g' env' r,
    insert_population pop g env = (g', env', r)
    /\ well_formed_cell keys (loc, g')
    /\ movable g' = movable g
    /\ (r = Ok tt
        <-> (movable g = false ->
             described "Herbivore" pop ++ described "Carnivore" pop = []))
    /\ (r = Ok tt ->
        resident_count g'
        = (resident_count g
           + (List.length (described "Herbivore" pop)
              + List.length (described "Carnivore" pop)))%nat).
Proof.
  unfold well_formed_cell; cbn [fst snd].
  destruct (movable g) eqn:Hm.
  - intros [(k & fm & f & hs & cs & mhs & mcs & -> & Hk & Hfm) Hn].
    destruct (insert_population_land pop k fm f hs cs mhs mcs env)
      as (new_hs & new_cs & env' & E & Ha & Hca & _).
    eexists _, env', (Ok tt); split; [exact E|].
    cbn [movable land_cell].
    split; [split; [|assumption]|].
    { exists k, fm, f, (hs ++ new_hs), (cs ++ new_cs), mhs, mcs; auto. }
    split; [reflexivity|].
    split; [split; [discriminate | reflexivity]|].
    intros _; unfold resident_count; cbn.
    rewrite !length_app.
    rewrite <- (length_map Herbivore.age new_hs), Ha, length_map.
    rewrite <- (length_map Carnivore.age new_cs), Hca, length_map.
    lia.
  - intros Hw.
    rewrite (insert_population_water pop g env Hw).
    eexists g, env, _; split; [reflexivity|].
    rewrite Hm; split; [assumption|]; split; [reflexivity|].
    destruct (described "Herbivore" pop ++ described "Carnivore" pop)
      as [|d l] eqn:Ed.
    + split; [tauto|].
      apply app_eq_nil in Ed as [-> ->]; intros _; cbn; lia.
    + split; [split; [discriminate | intros H; now specialize (H eq_refl)]|].
      discriminate.
Qed.

(** What [add_population] keeps and what it adds. *)
Lemma add_population_spec
      (population : list (coordinate * list description)) :
  forall (island0 : Island) (env : Env),
    well_formed island0 ->
    exists island1 env1 r,
      add_population population island0 env = (island1, env1, r)
      /\ well_formed island1
      /\ map fst island1 = map fst island0
      /\ (forall c g, island_get island0 c = Ok g ->
                      exists g', island_get island1 c = Ok g'
                                 /\ movable g' = movable g)
      /\ (r = Ok tt <-> Forall (placeable island0) population)
      /\ (r = Ok tt ->
          total_residents island1
          = (total_residents island0 + population_size population)%nat).
Proof.
  induction population as [|[loc pop] rest IH]; intros island0 env Hwf.
  - exists island0, env, (Ok tt); split; [reflexivity|].
    split; [assumption|]; split; [reflexivity|].
    split; [intros c g Hg; now exists g|].
    split; [split; [constructor | reflexivity]|].
    intros _; unfold population_size; cbn; lia.
  - cbn [add_population].
    destruct (island_get island0 loc) as [g|e] eqn:Hg.
    2:{ exists island0, env, (Raise e); split; [reflexivity|].
        split; [assumption|]; split; [reflexivity|].
        split; [intros c g Hc; now exists g|].
        split; [|discriminate].
        split; [discriminate|].
        intros H; inversion H as [|? ? (g & Hg' & _) _]; subst.
        cbn [fst] in Hg'; congruence. }
    destruct (insert_population_well_formed
                (map fst island0) loc g pop env (well_formed_get _ _ _ Hwf Hg))
      as (g' & env1 & r & E & Hcell & Hmov & Hok & Hcount).
    rewrite E.
    assert (Hwf1 : well_formed (island_set island0 loc g'))
      by now apply well_formed_set.
    assert (Hsame : forall c g0,
               island_get island0 c = Ok g0 ->
               exists g1, island_get (island_set island0 loc g') c = Ok g1
                          /\ movable g1 = movable g0).
    { intros c g0 Hc.
      destruct (coordinate_eqb loc c) eqn:Ec.
      - apply coordinate_eqb_eq in Ec; subst c.
        rewrite (island_get_set_same _ _ _ _ Hg).
        exists g'; split; [reflexivity | congruence].
      - apply coordinate_eqb_neq in Ec.
        rewrite island_get_set_other by assumption; now exists g0. }
    destruct r as [[]|e].
    + destruct (IH (island_set island0 loc g') env1 Hwf1)
        as (island1 & env2 & r & E1 & Hwf2 & Hk & Hs & Hr & Hc).
      exists island1, env2, r; split; [exact E1|].
      split; [assumption|].
      split; [now rewrite Hk, island_set_keys|].
      split.
      { intros c g0 Hc0.
        destruct (Hsame c g0 Hc0) as (g1 & Hg1 & Hm1).
        destruct (Hs c g1 Hg1) as (g2 & Hg2 & Hm2).
        exists g2; split; [assumption | congruence]. }
      assert (Hplace : forall lp,
                 placeable (island_set island0 loc g') lp
                 <-> placeable island0 lp).
      { intros lp; unfold placeable; split.
        - intros (g1 & Hg1 & Hp).
          destruct (island_get_key island0 (fst lp)) as [g0 Hg0].
          { rewrite <- (island_set_keys island0 loc g').
            eapply island_get_some_key; eassumption. }
          exists g0; split; [assumption|].
          destruct (Hsame _ _ Hg0) as (g2 & Hg2 & Hm2).
          rewrite Hg1 in Hg2; inversion Hg2; subst g2.
          now rewrite <- Hm2.
        - intros (g0 & Hg0 & Hp).
          destruct (Hsame _ _ Hg0) as (g1 & Hg1 & Hm1).
          exists g1; split; [assumption | now rewrite Hm1]. }
      split.
      { rewrite Hr; split.
        - intros Hall; constructor.
          + exists g; split; [assumption | now apply Hok].
          + eapply Forall_impl; [|exact Hall]; intros lp; apply Hplace.
        - intros Hall; inversion Hall; subst.
          eapply Forall_impl; [|eassumption]; intros lp; apply Hplace. }
      intros Hr1; rewrite (Hc Hr1).
      pose proof (island_set_sum resident_count island0 loc g g' Hg) as Hsum.
      specialize (Hcount eq_refl).
      unfold total_residents, population_size in *; cbn [map list_sum snd].
      unfold list_sum in *; cbn [fold_right]; lia.
    + exists (island_set island0 loc g'), env1, (Raise e).
      split; [reflexivity|].
      split; [assumption|].
      split; [apply island_set_keys|].
      split; [assumption|].
      split; [|discriminate].
      split; [discriminate|].
      intros Hall; inversion Hall as [|? ? (g0 & Hg0 & Hp) _]; subst.
      cbn [fst snd] in *; rewrite Hg in Hg0; inversion Hg0; subst g0.
      apply Hok in Hp; discriminate.
Qed.


(** ** The counts of a simulation *)

Lemma well_formed_cell_lists (keys : list coordinate)
      (cg : coordinate * Geography) :
  well_formed_cell keys cg ->
  if movable (snd cg)
  then exists hs cs, herbivores (snd cg) = Some hs
                     /\ carnivores (snd cg) = Some cs
  else resident_count (snd cg) = O /\ transit_count (snd cg) = O.
Proof.
  unfold well_formed_cell; destruct (movable (snd cg)).
  - intros [(k & fm & f & hs & cs & mhs & mcs & -> & _) _].
    now exists hs, cs.
  - intros (Hh & Hc & Hmh & Hmc); unfold resident_count, transit_count.
    now rewrite Hh, Hc, Hmh, Hmc.
Qed.

Lemma num_animals_from_spec (keys : list coordinate) (cells : Island) :
  forall n : nat,
    Forall (well_formed_cell keys) cells ->
    num_animals_from cells n = Ok (n + total_residents cells)%nat.
Proof.
  unfold total_residents.
  induction cells as [|[c g] rest IH]; intros n Hwf.
  - cbn; f_equal; lia.
  - inversion Hwf as [|? ? Hcell Hrest]; subst.
    apply well_formed_cell_lists in Hcell; cbn [snd] in Hcell.
    cbn [num_animals_from map list_sum snd].
    destruct (movable g).
    + destruct Hcell as (hs & cs & Hh & Hc).
      rewrite Hh, Hc; cbn [attr bind]; rewrite (IH _ Hrest).
      unfold resident_count, list_sum; rewrite Hh, Hc; cbn [residents_of fold_right].
      f_equal; lia.
    + destruct Hcell as [Hr _]; rewrite (IH _ Hrest), Hr.
      unfold list_sum; cbn [fold_right]; f_equal; lia.
Qed.

Lemma num_animals_per_species_from_spec (keys : list coordinate)
      (cells : Island) :
  forall a b : nat,
    Forall (well_formed_cell keys) cells ->
    num_animals_per_species_from cells (a, b)
    = Ok (a + list_sum (map (fun cg => List.length
                                         (residents_of (herbivores (snd cg))))
                            cells),
          b + list_sum (map (fun cg => List.length
                                         (residents_of (carnivores (snd cg))))
                            cells))%nat.
Proof.
  induction cells as [|[c g] rest IH]; intros a b Hwf.
  - cbn; apply f_equal; apply f_equal2; lia.
  - inversion Hwf as [|? ? Hcell Hrest]; subst.
    pose proof Hcell as Hw.
    apply well_formed_cell_lists in Hcell; cbn [snd] in Hcell.
    cbn [num_animals_per_species_from map list_sum snd fst].
    destruct (movable g) eqn:Hm.
    + destruct Hcell as (hs & cs & Hh & Hc).
      rewrite Hh, Hc; cbn [attr bind fst snd residents_of].
      rewrite (IH _ _ Hrest); unfold list_sum; cbn [fold_right].
      apply f_equal; apply f_equal2; lia.
    + unfold well_formed_cell in Hw; cbn [snd] in Hw; rewrite Hm in Hw.
      destruct Hw as (Hh & Hc & _); rewrite Hh, Hc.
      rewrite (IH _ _ Hrest); unfold list_sum; cbn [fold_right residents_of
                                                     List.length].
      apply f_equal; apply f_equal2; lia.
Qed.

Lemma total_residents_by_species (cells : Island) :
  total_residents cells
  = (list_sum (map (fun cg => List.length
                                (residents_of (herbivores (snd cg)))) cells)
     + list_sum (map (fun cg => List.length
                                  (residents_of (carnivores (snd cg)))) cells))%nat.
Proof.
  unfold total_residents, resident_count, list_sum.
  induction cells as [|[c g] rest IH]; cbn [map fold_right snd]; lia.
Qed.

(** [simulate] counts the years. *)
Lemma simulate_counts_years (num_years : nat) :
  forall (sim sim' : BioSim) (env env' : Env) (stats : list YearStats),
    simulate num_years sim env = Ok (sim', env', stats) ->
    current_year sim' = (current_year sim + num_years)%nat
    /\ List.length stats = num_years.
Proof.
  induction num_years as [|n IH]; intros sim sim' env env' stats H.
  - cbn in H; inversion H; subst; cbn; split; [lia | reflexivity].
  - cbn [simulate] in H.
    destruct (simulate_year sim env) as [[[sim1 env1] s]|] eqn:E1;
      [|discriminate]; cbn [bind] in H.
    destruct (simulate n sim1 env1) as [[[sim2 env2] ss]|] eqn:E2;
      [|discriminate]; cbn [bind] in H.
    inversion H; subst; clear H.
    destruct (IH _ _ _ _ _ E2) as [Hy Hl].
    assert (Hy1 : current_year sim1 = S (current_year sim)).
    { unfold simulate_year in E1.
      destruct (first_pass _ _ _ _) as [[[i1 e1] s1]|]; [|discriminate].
      cbn [bind] in E1.
      destruct (second_pass _ _ _) as [[i2 e2]|]; [|discriminate].
      cbn [bind] in E1; now inversion E1. }
    split; [lia | cbn; now rewrite Hl].
Qed.


(** ** Sorting by fitness *)

Lemma insert_by_fitness_perm (x : Herbivore.t) (l : list Herbivore.t) :
  Permutation (insert_by_fitness x l) (x :: l).
Proof.
  induction l as [|y ys IH]; cbn [insert_by_fitness]; [reflexivity|].
  destruct (Rltb _ _); [|reflexivity].
  rewrite IH; apply perm_swap.
Qed.

Lemma sort_by_fitness_perm (l : list Herbivore.t) :
  Permutation (sort_by_fitness l) l.
Proof.
  unfold sort_by_fitness; induction l as [|x l IH]; cbn [fold_right];
    [reflexivity|].
  rewrite insert_by_fitness_perm; now constructor.
Qed.

Lemma insert_by_fitness_sorted (x : Herbivore.t) (l : list Herbivore.t) :
  StronglySorted not_fitter l ->
  StronglySorted not_fitter (insert_by_fitness x l).
Proof.
  intros H; induction H as [|y ys Hs IH Hall]; cbn [insert_by_fitness].
  - repeat constructor.
  - destruct (Rltb (Herbivore.fitness x) (Herbivore.fitness y)) eqn:E.
    + apply Rltb_true in E; constructor; [assumption|].
      eapply Permutation_Forall;
        [symmetry; apply insert_by_fitness_perm|].
      constructor; [unfold not_fitter; lra | assumption].
    + apply Rltb_false in E; constructor; [now constructor|].
      constructor; [exact E|].
      eapply Forall_impl; [|exact Hall].
      unfold not_fitter; intros z Hz; lra.
Qed.

Lemma sort_by_fitness_sorted (l : list Herbivore.t) :
  StronglySorted not_fitter (sort_by_fitness l).
Proof.
  unfold sort_by_fitness; induction l as [|x l IH]; cbn [fold_right];
    [constructor | now apply insert_by_fitness_sorted].
Qed.

(** The sort is stable: animals of one fitness keep their order. *)
Lemma insert_by_fitness_stable (v : R) (x : Herbivore.t)
      (l : list Herbivore.t) :
  filter (fun h => Reqb (Herbivore.fitness h) v) (insert_by_fitness x l)
  = filter (fun h => Reqb (Herbivore.fitness h) v) (x :: l).
Proof.
  induction l as [|y ys IH]; cbn [insert_by_fitness]; [reflexivity|].
  destruct (Rltb (Herbivore.fitness x) (Herbivore.fitness y)) eqn:E;
    [|reflexivity].
  apply Rltb_true in E.
  cbn [filter] in *; rewrite IH.
  destruct (Reqb (Herbivore.fitness x) v) eqn:Ex; [|reflexivity].
  apply Reqb_true in Ex.
  assert (Ey : Reqb (Herbivore.fitness y) v = false)
    by (apply Reqb_false; lra).
  now rewrite Ey.
Qed.

Lemma sort_by_fitness_stable (v : R) (l : list Herbivore.t) :
  filter (fun h => Reqb (Herbivore.fitness h) v) (sort_by_fitness l)
  = filter (fun h => Reqb (Herbivore.fitness h) v) l.
Proof.
  unfold sort_by_fitness; induction l as [|x l IH]; cbn [fold_right];
    [reflexivity|].
  rewrite insert_by_fitness_stable; cbn [filter]; now rewrite IH.
Qed.

(** ** Shuffling *)

Lemma set_nth_at {A : Type} (l1 : list A) (a v : A) (r : list A) :
  set_nth (List.length l1) v (l1 ++ a :: r) = l1 ++ v :: r.
Proof. induction l1 as [|x l1 IH]; cbn; [reflexivity | now rewrite IH]. Qed.

Lemma set_nth_after {A : Type} (l1 : list A) (a v : A) (r : list A)
      (k : nat) :
  set_nth (List.length l1 + S k) v (l1 ++ a :: r) = l1 ++ a :: set_nth k v r.
Proof. induction l1 as [|x l1 IH]; cbn; [reflexivity | now rewrite IH]. Qed.

Lemma nth_error_after {A : Type} (l1 : list A) (a : A) (r : list A)
      (k : nat) :
  nth_error (l1 ++ a :: r) (List.length l1 + S k) = nth_error r k.
Proof. induction l1 as [|x l1 IH]; cbn; [reflexivity | exact IH]. Qed.

Lemma swap_perm {A : Type} (i j : nat) (x : list A) :
  Permutation (swap i j x) x.
Proof.
  unfold swap.
  destruct (nth_error x i) as [xi|] eqn:Ei; [|reflexivity].
  destruct (nth_error x j) as [xj|] eqn:Ej; [|reflexivity].
  destruct (Nat.lt_trichotomy i j) as [Hlt|[->|Hlt]].
  - apply nth_error_split in Ei as (l1 & r & -> & <-).
    replace j with (List.length l1 + S (j - List.length l1 - 1))%nat in *
      by lia.
    rewrite nth_error_after in Ej.
    apply nth_error_split in Ej as (l2 & l3 & -> & Hl2).
    rewrite set_nth_at, set_nth_after, <- Hl2, set_nth_at.
    apply Permutation_app_head.
    change (xj :: l2 ++ xi :: l3) with ((xj :: l2) ++ xi :: l3).
    rewrite <- Permutation_middle; constructor.
    now rewrite <- Permutation_middle.
  - rewrite Ei in Ej; inversion Ej; subst xj.
    apply nth_error_split in Ei as (l1 & r & -> & <-).
    now rewrite !set_nth_at.
  - apply nth_error_split in Ej as (l1 & r & -> & <-).
    replace i with (List.length l1 + S (i - List.length l1 - 1))%nat in *
      by lia.
    rewrite nth_error_after in Ei.
    apply nth_error_split in Ei as (l2 & l3 & -> & Hl2).
    rewrite set_nth_after, <- Hl2, set_nth_at, set_nth_at.
    apply Permutation_app_head.
    change (xi :: l2 ++ xj :: l3) with ((xi :: l2) ++ xj :: l3).
    rewrite <- Permutation_middle; constructor.
    now rewrite <- Permutation_middle.
Qed.

Lemma shuffle_from_perm {A : Type} (i : nat) :
  forall (x : list A) (env : Env),
    Permutation (fst (shuffle_from i x env)) x.
Proof.
  induction i as [|i IH]; intros x env; [reflexivity|].
  cbn [shuffle_from].
  destruct (randbelow (S (S i)) env) as [j env1].
  rewrite IH; apply swap_perm.
Qed.

Lemma random_shuffle_perm {A : Type} (x : list A) (env : Env) :
  Permutation (fst (random_shuffle x env)) x.
Proof. apply shuffle_from_perm. Qed.


(** ** A hunt without a kill *)

Lemma hunt_loop_no_kill (herbivores : list Herbivore.t) :
  forall (dead : list Herbivore.t) (e : R) (c : Carnivore.t) (env : Env),
    Forall (fun h => Carnivore.fitness c <= Herbivore.fitness h) herbivores ->
    Carnivore.hunt_loop herbivores dead e c env = (dead, e, c, env).
Proof.
  induction herbivores as [|h rest IH]; intros dead e c env Hall;
    [reflexivity|].
  inversion Hall as [|? ? Hh Hrest]; subst.
  cbn [Carnivore.hunt_loop].
  destruct (Rgeb e (Carnivore.F c)); [reflexivity|].
  apply Rleb_true in Hh; rewrite Hh; now apply IH.
Qed.

(** ** Reproduction *)

(** With one candidate in the cell the probability of a birth is zero. *)
Lemma herbivore_alone_gives_no_birth (h : Herbivore.t) (env : Env) :
  0 <= fst (random_random env) ->
  Herbivore.gives_birth 1 h env = (None, h, snd (random_random env)).
Proof.
  intros Hr; unfold Herbivore.gives_birth.
  destruct (random_random env) as [r env1]; cbn [fst snd] in *.
  assert (H : Rgtb (Rmin 1 (Herbivore.gamma h * Herbivore.fitness h
                            * (INR 1 - 1))) r = false).
  { apply Rltb_false; cbn [INR].
    replace (Herbivore.gamma h * Herbivore.fitness h * (1 - 1)) with 0 by lra.
    rewrite Rmin_right; lra. }
  now rewrite H.
Qed.

Lemma carnivore_alone_gives_no_birth (c : Carnivore.t) (env : Env) :
  0 <= fst (random_random env) ->
  Carnivore.gives_birth 1 c env = (None, c, snd (random_random env)).
Proof.
  intros Hr; unfold Carnivore.gives_birth.
  destruct (random_random env) as [r env1]; cbn [fst snd] in *.
  assert (H : Rgtb (Rmin 1 (Carnivore.gamma c * Carnivore.fitness c
                            * (INR 1 - 1))) r = false).
  { apply Rltb_false; cbn [INR].
    replace (Carnivore.gamma c * Carnivore.fitness c * (1 - 1)) with 0 by lra.
    rewrite Rmin_right; lra. }
  now rewrite H.
Qed.

Lemma random_random_draws (env : Env) :
  uniform_draws (snd (random_random env)) = uniform_draws env.
Proof. reflexivity. Qed.

Lemma herbivores_breed_alone (residents : list Herbivore.t) :
  forall env : Env,
    (forall k, 0 <= uniform_draws env k) ->
    exists env',
      herbivores_breed 1 residents env = (residents, [], env')
      /\ uniform_draws env' = uniform_draws env.
Proof.
  induction residents as [|h rest IH]; intros env Hd.
  - now exists env.
  - cbn [herbivores_breed].
    destruct (Reqb (Herbivore.age h) 0).
    + destruct (IH env Hd) as (env' & E & Hu); rewrite E; now exists env'.
    + rewrite herbivore_alone_gives_no_birth by apply Hd.
      destruct (IH (snd (random_random env)) Hd) as (env' & E & Hu).
      rewrite E; now exists env'.
Qed.

Lemma carnivores_breed_alone (residents : list Carnivore.t) :
  forall env : Env,
    (forall k, 0 <= uniform_draws env k) ->
    exists env',
      carnivores_breed 1 residents env = (residents, [], env')
      /\ uniform_draws env' = uniform_draws env.
Proof.
  induction residents as [|c rest IH]; intros env Hd.
  - now exists env.
  - cbn [carnivores_breed].
    destruct (Reqb (Carnivore.age c) 0).
    + destruct (IH env Hd) as (env' & E & Hu); rewrite E; now exists env'.
    + rewrite carnivore_alone_gives_no_birth by apply Hd.
      destruct (IH (snd (random_random env)) Hd) as (env' & E & Hu).
      rewrite E; now exists env'.
Qed.

(** Without a candidate nobody is asked. *)
Lemma herbivores_breed_none (N : nat) (residents : list Herbivore.t)
      (env : Env) :
  filter (fun h => negb (Reqb (Herbivore.age h) 0)) residents = [] ->
  herbivores_breed N residents env = (residents, [], env).
Proof.
  induction residents as [|h rest IH]; intros H; [reflexivity|].
  cbn [herbivores_breed filter] in *.
  destruct (Reqb (Herbivore.age h) 0); cbn [negb] in H; [|discriminate].
  now rewrite (IH H).
Qed.

Lemma carnivores_breed_none (N : nat) (residents : list Carnivore.t)
      (env : Env) :
  filter (fun c => negb (Reqb (Carnivore.age c) 0)) residents = [] ->
  carnivores_breed N residents env = (residents, [], env).
Proof.
  induction residents as [|c rest IH]; intros H; [reflexivity|].
  cbn [carnivores_breed filter] in *.
  destruct (Reqb (Carnivore.age c) 0); cbn [negb] in H; [|discriminate].
  now rewrite (IH H).
Qed.

(** The parents keep their places, and there is at most one newborn for
    every candidate; a newborn has age 0. *)
Lemma herbivore_birth_shape (N : nat) (h : Herbivore.t) (env : Env) :
  let r := Herbivore.gives_birth N h env in
  Herbivore.ident (snd (fst r)) = Herbivore.ident h
  /\ Herbivore.age (snd (fst r)) = Herbivore.age h
  /\ (forall b, fst (fst r) = Some b -> Herbivore.age b = 0).
Proof.
  unfold Herbivore.gives_birth.
  destruct (random_random env) as [r env1].
  destruct (_ && _); [|cbn; repeat split; discriminate].
  pose proof (herbivore_init_age 0 None env1) as Hage.
  destruct (Herbivore.init 0 None env1) as [baby env2]; cbn [fst] in Hage.
  destruct (Rleb _ _); cbn [fst snd]; [|repeat split; discriminate].
  unfold Herbivore.ident, Herbivore.age at 1, Animal.weight_reduction.
  cbn [Herbivore.with_base Herbivore.base].
  rewrite calculate_fitness_ident, calculate_fitness_age.
  repeat split; intros b Hb; inversion Hb; now subst.
Qed.

Lemma carnivore_birth_shape (N : nat) (c : Carnivore.t) (env : Env) :
  let r := Carnivore.gives_birth N c env in
  Carnivore.ident (snd (fst r)) = Carnivore.ident c
  /\ Carnivore.age (snd (fst r)) = Carnivore.age c
  /\ (forall b, fst (fst r) = Some b -> Carnivore.age b = 0).
Proof.
  unfold Carnivore.gives_birth.
  destruct (random_random env) as [r env1].
  destruct (_ && _); [|cbn; repeat split; discriminate].
  pose proof (carnivore_init_age 0 None env1) as Hage.
  destruct (Carnivore.init 0 None env1) as [baby env2]; cbn [fst] in Hage.
  destruct (Rleb _ _); cbn [fst snd]; [|repeat split; discriminate].
  unfold Carnivore.ident, Carnivore.age at 1, Animal.weight_reduction.
  cbn [Carnivore.with_base Carnivore.base].
  rewrite calculate_fitness_ident, calculate_fitness_age.
  repeat split; intros b Hb; inversion Hb; now subst.
Qed.

Lemma herbivores_breed_shape (N : nat) (residents : list Herbivore.t) :
  forall env : Env,
    let r := herbivores_breed N residents env in
    map Herbivore.ident (fst (fst r)) = map Herbivore.ident residents
    /\ map Herbivore.age (fst (fst r)) = map Herbivore.age residents
    /\ (List.length (snd (fst r))
        <= List.length
             (filter (fun h => negb (Reqb (Herbivore.age h) 0)) residents))%nat
    /\ Forall (fun b => Herbivore.age b = 0) (snd (fst r)).
Proof.
  induction residents as [|h rest IH]; intros env.
  - cbn; repeat split; auto.
  - cbn [herbivores_breed filter].
    destruct (Reqb (Herbivore.age h) 0); cbn [negb].
    + specialize (IH env).
      destruct (herbivores_breed N rest env) as [[rest' babies] env'].
      cbn [fst snd map] in *.
      destruct IH as (A & B & C & D); repeat split; auto; congruence.
    + pose proof (herbivore_birth_shape N h env) as Hb.
      destruct (Herbivore.gives_birth N h env) as [[baby parent] env1].
      cbn [fst snd] in Hb; destruct Hb as (Hi & Ha & Hbaby).
      specialize (IH env1).
      destruct (herbivores_breed N rest env1) as [[rest' babies] env'].
      cbn [fst snd map List.length] in *.
      destruct IH as (A & B & C & D).
      split; [congruence|]; split; [congruence|].
      destruct baby as [b|]; cbn [List.length]; split; try lia; auto.
Qed.

Lemma carnivores_breed_shape (N : nat) (residents : list Carnivore.t) :
  forall env : Env,
    let r := carnivores_breed N residents env in
    map Carnivore.ident (fst (fst r)) = map Carnivore.ident residents
    /\ map Carnivore.age (fst (fst r)) = map Carnivore.age residents
    /\ (List.length (snd (fst r))
        <= List.length
             (filter (fun c => negb (Reqb (Carnivore.age c) 0)) residents))%nat
    /\ Forall (fun b => Carnivore.age b = 0) (snd (fst r)).
Proof.
  induction residents as [|c rest IH]; intros env.
  - cbn; repeat split; auto.
  - cbn [carnivores_breed filter].
    destruct (Reqb (Carnivore.age c) 0); cbn [negb].
    + specialize (IH env).
      destruct (carnivores_breed N rest env) as [[rest' babies] env'].
      cbn [fst snd map] in *.
      destruct IH as (A & B & C & D); repeat split; auto; congruence.
    + pose proof (carnivore_birth_shape N c env) as Hb.
      destruct (Carnivore.gives_birth N c env) as [[baby parent] env1].
      cbn [fst snd] in Hb; destruct Hb as (Hi & Ha & Hbaby).
      specialize (IH env1).
      destruct (carnivores_breed N rest env1) as [[rest' babies] env'].
      cbn [fst snd map List.length] in *.
      destruct IH as (A & B & C & D).
      split; [congruence|]; split; [congruence|].
      destruct baby as [b|]; cbn [List.length]; split; try lia; auto.
Qed.


(** ** Death *)

Lemma dies_of_no_weight (a : Animal.t) (env : Env) :
  Animal.weight a = 0 -> Animal.dies a env = (true, env).
Proof.
  intros H; unfold Animal.dies.
  apply Reqb_true in H; now rewrite H.
Qed.

Lemma dead_among_no_weight (animals : list animal) :
  forall (env : Env) (a : animal),
    In a animals -> Animal.weight (animal_base a) = 0 ->
    In a (fst (dead_among animals env)).
Proof.
  induction animals as [|x rest IH]; intros env a Hin Hw; [contradiction|].
  cbn [dead_among].
  destruct Hin as [->|Hin].
  - rewrite (dies_of_no_weight _ env Hw).
    destruct (dead_among rest env) as [dead env2]; now left.
  - destruct (Animal.dies (animal_base x) env) as [d env1].
    specialize (IH env1 a Hin Hw).
    destruct (dead_among rest env1) as [dead env2]; cbn [fst] in *.
    destruct d; [now right | assumption].
Qed.

Lemma list_remove_carnivore_gone (c : Carnivore.t) (l l' : list Carnivore.t) :
  NoDup (carnivore_ids l) ->
  list_remove (same_carnivore c) l = Ok l' ->
  ~ In (Carnivore.ident c) (carnivore_ids l')
  /\ NoDup (carnivore_ids l') /\ incl l' l.
Proof.
  revert l'; induction l as [|y ys IH]; intros l' Hnd H; cbn in H;
    [discriminate|].
  unfold carnivore_ids in *; cbn [map] in Hnd.
  inversion Hnd as [|? ? Hfresh Hnd']; subst.
  destruct (same_carnivore c y) eqn:E.
  - inversion H; subst.
    unfold same_carnivore in E; apply Nat.eqb_eq in E; rewrite E.
    split; [assumption|]; split; [assumption | now apply incl_tl, incl_refl].
  - destruct (list_remove (same_carnivore c) ys) as [ys'|] eqn:R;
      [|discriminate].
    cbn in H; inversion H; subst.
    destruct (IH ys' Hnd' eq_refl) as (Hgone & Hnd1 & Hincl).
    unfold same_carnivore in E; apply Nat.eqb_neq in E.
    split; [cbn; intros [Hy|Hy]; [congruence | contradiction]|].
    split.
    + cbn [map]; constructor; [|assumption].
      intros Hin; apply Hfresh.
      apply in_map_iff in Hin as (z & Hz & Hin).
      apply in_map_iff; exists z; split; [assumption | now apply Hincl].
    + intros z [->|Hz]; [now left | right; now apply Hincl].
Qed.

Lemma existsb_same_herbivore (h : Herbivore.t) (hs : list Herbivore.t) :
  existsb (same_herbivore h) hs = false ->
  ~ In (Herbivore.ident h) (herbivore_ids hs).
Proof.
  intros E Hin; unfold herbivore_ids in Hin.
  apply in_map_iff in Hin as (x & Hx & Hin).
  assert (Ht : existsb (same_herbivore h) hs = true).
  { apply existsb_exists; exists x; split; [assumption|].
    unfold same_herbivore; apply Nat.eqb_eq; congruence. }
  congruence.
Qed.

Lemma existsb_same_carnivore (c : Carnivore.t) (cs : list Carnivore.t) :
  existsb (same_carnivore c) cs = false ->
  ~ In (Carnivore.ident c) (carnivore_ids cs).
Proof.
  intros E Hin; unfold carnivore_ids in Hin.
  apply in_map_iff in Hin as (x & Hx & Hin).
  assert (Ht : existsb (same_carnivore c) cs = true).
  { apply existsb_exists; exists x; split; [assumption|].
    unfold same_carnivore; apply Nat.eqb_eq; congruence. }
  congruence.
Qed.

Lemma ids_incl_herbivores (l l' : list Herbivore.t) :
  incl l' l -> incl (herbivore_ids l') (herbivore_ids l).
Proof.
  intros H i Hi; unfold herbivore_ids in *.
  apply in_map_iff in Hi as (x & <- & Hx); apply in_map; now apply H.
Qed.

Lemma ids_incl_carnivores (l l' : list Carnivore.t) :
  incl l' l -> incl (carnivore_ids l') (carnivore_ids l).
Proof.
  intros H i Hi; unfold carnivore_ids in *.
  apply in_map_iff in Hi as (x & <- & Hx); apply in_map; now apply H.
Qed.

(** The animals on the list of the dead are gone when the loop of
    [animal_death] is over. *)
Lemma bury_removes (dead : list animal) :
  forall (k : terrain) (fm : option R) (f : R)
         (hs : list Herbivore.t) (cs : list Carnivore.t)
         (mhs : list Herbivore.t) (mcs : list Carnivore.t),
    NoDup (herbivore_ids hs) -> NoDup (carnivore_ids cs) ->
    exists hs' cs',
      bury dead (land_cell k fm f hs cs mhs mcs)
      = Ok (land_cell k fm f hs' cs' mhs mcs)
      /\ incl hs' hs /\ incl cs' cs
      /\ NoDup (herbivore_ids hs') /\ NoDup (carnivore_ids cs')
      /\ (forall h, In (AHerbivore h) dead ->
                    ~ In (Herbivore.ident h) (herbivore_ids hs'))
      /\ (forall c, In (ACarnivore c) dead ->
                    ~ In (Carnivore.ident c) (carnivore_ids cs')).
Proof.
  induction dead as [|a rest IH]; intros k fm f hs cs mhs mcs Hh Hc.
  - exists hs, cs; split; [reflexivity|].
    repeat (split; [first [apply incl_refl | assumption]|]).
    split; intros x [].
  - cbn [bury]; cell_simpl.
    destruct a as [h|c].
    + destruct (existsb (same_herbivore h) hs) eqn:Ex.
      * destruct (list_remove_found _ _ Ex) as (hs1 & Hr).
        rewrite Hr; cell_simpl.
        destruct (list_remove_herbivore_gone h hs hs1 Hh Hr)
          as (Hgone & Hnd1 & Hincl1).
        destruct (IH k fm f hs1 cs mhs mcs Hnd1 Hc)
          as (hs' & cs' & E & Hi & Hic & Hn & Hnc & Hdh & Hdc).
        cell_simpl in E; rewrite E.
        exists hs', cs'; split; [reflexivity|].
        split; [eapply incl_tran; eassumption|].
        split; [assumption|]; split; [assumption|]; split; [assumption|].
        split; [|intros c0 [Hc0|Hc0]; [discriminate | now apply Hdc]].
        intros h0 [Hh0|Hh0]; [|now apply Hdh].
        inversion Hh0; subst h0.
        intros Hin; apply Hgone.
        now apply (ids_incl_herbivores hs1 hs' Hi).
      * destruct (IH k fm f hs cs mhs mcs Hh Hc)
          as (hs' & cs' & E & Hi & Hic & Hn & Hnc & Hdh & Hdc).
        cell_simpl in E; rewrite E.
        exists hs', cs'; split; [reflexivity|].
        split; [assumption|].
        split; [assumption|]; split; [assumption|]; split; [assumption|].
        split; [|intros c0 [Hc0|Hc0]; [discriminate | now apply Hdc]].
        intros h0 [Hh0|Hh0]; [|now apply Hdh].
        inversion Hh0; subst h0.
        intros Hin; apply (existsb_same_herbivore h hs Ex).
        now apply (ids_incl_herbivores hs hs' Hi).
    + destruct (existsb (same_carnivore c) cs) eqn:Ex.
      * destruct (list_remove_found _ _ Ex) as (cs1 & Hr).
        rewrite Hr; cell_simpl.
        destruct (list_remove_carnivore_gone c cs cs1 Hc Hr)
          as (Hgone & Hnd1 & Hincl1).
        destruct (IH k fm f hs cs1 mhs mcs Hh Hnd1)
          as (hs' & cs' & E & Hi & Hic & Hn & Hnc & Hdh & Hdc).
        cell_simpl in E; rewrite E.
        exists hs', cs'; split; [reflexivity|].
        split; [assumption|].
        split; [eapply incl_tran; eassumption|].
        split; [assumption|]; split; [assumption|].
        split; [intros h0 [Hh0|Hh0]; [discriminate | now apply Hdh]|].
        intros c0 [Hc0|Hc0]; [|now apply Hdc].
        inversion Hc0; subst c0.
        intros Hin; apply Hgone.
        now apply (ids_incl_carnivores cs1 cs' Hic).
      * destruct (IH k fm f hs cs mhs mcs Hh Hc)
          as (hs' & cs' & E & Hi & Hic & Hn & Hnc & Hdh & Hdc).
        cell_simpl in E; rewrite E.
        exists hs', cs'; split; [reflexivity|].
        split; [assumption|].
        split; [assumption|]; split; [assumption|]; split; [assumption|].
        split; [intros h0 [Hh0|Hh0]; [discriminate | now apply Hdh]|].
        intros c0 [Hc0|Hc0]; [|now apply Hdc].
        inversion Hc0; subst c0.
        intros Hin; apply (existsb_same_carnivore c cs Ex).
        now apply (ids_incl_carnivores cs cs' Hic).
Qed.

Lemma animal_death_no_weight (k : terrain) (fm : option R) (f : R)
      (hs : list Herbivore.t) (cs : list Carnivore.t)
      (mhs : list Herbivore.t) (mcs : list Carnivore.t) (env : Env) :
  NoDup (herbivore_ids hs) -> NoDup (carnivore_ids cs) ->
  exists hs' cs' env',
    animal_death (land_cell k fm f hs cs mhs mcs) env
    = Ok (land_cell k fm f hs' cs' mhs mcs, env')
    /\ incl hs' hs /\ incl cs' cs
    /\ Forall (fun h => Herbivore.weight h <> 0) hs'
    /\ Forall (fun c => Carnivore.weight c <> 0) cs'.
Proof.
  intros Hh Hc; unfold animal_death; cell_simpl.
  pose proof (dead_among_no_weight
                (map AHerbivore hs ++ map ACarnivore cs) env) as Hdead.
  destruct (dead_among _ env) as [dead env1]; cbn [fst] in Hdead.
  destruct (bury_removes dead k fm f hs cs mhs mcs Hh Hc)
    as (hs' & cs' & E & Hi & Hic & _ & _ & Hdh & Hdc).
  cell_simpl in E; rewrite E; cell_simpl.
  exists hs', cs', env1; split; [reflexivity|].
  split; [assumption|]; split; [assumption|].
  split; apply Forall_forall.
  - intros h Hin Hw.
    apply (Hdh h); [|unfold herbivore_ids; now apply in_map].
    apply Hdead; [|exact Hw].
    apply in_or_app; left; apply in_map; now apply Hi.
  - intros c Hin Hw.
    apply (Hdc c); [|unfold carnivore_ids; now apply in_map].
    apply Hdead; [|exact Hw].
    apply in_or_app; right; apply in_map; now apply Hic.
Qed.


(** ** Years in a row *)

Lemma simulate_app (m : nat) :
  forall (n : nat) (sim : BioSim) (env : Env),
    simulate (m + n) sim env
    = ('(sim1, env1, s1) <- simulate m sim env ;;
       '(sim2, env2, s2) <- simulate n sim1 env1 ;;
       Ok (sim2, env2, s1 ++ s2)).
Proof.
  induction m as [|m IH]; intros n sim env.
  - cbn [Nat.add simulate bind app].
    destruct (simulate n sim env) as [[[sim2 env2] s2]|]; reflexivity.
  - cbn [Nat.add simulate].
    destruct (simulate_year sim env) as [[[sim1 env1] s]|]; cbn [bind];
      [|reflexivity].
    rewrite IH.
    destruct (simulate m sim1 env1) as [[[sim2 env2] ss]|]; cbn [bind];
      [|reflexivity].
    destruct (simulate n sim2 env2) as [[[sim3 env3] s3]|]; reflexivity.
Qed.


(** ** Parameters of the animals *)

Lemma animal_setattr_state (key : string) (value : R) (a : Animal.t) :
  ~ In key state_attributes ->
  Animal.age (Animal.setattr key value a) = Animal.age a
  /\ Animal.weight (Animal.setattr key value a) = Animal.weight a
  /\ Animal.fitness (Animal.setattr key value a) = Animal.fitness a
  /\ Animal.ident (Animal.setattr key value a) = Animal.ident a.
Proof.
  intros H; unfold Animal.setattr.
  destruct (String.eqb key "age") eqn:E1;
    [apply String.eqb_eq in E1; subst; exfalso; apply H; cbn; tauto|].
  destruct (String.eqb key "weight") eqn:E2;
    [apply String.eqb_eq in E2; subst; exfalso; apply H; cbn; tauto|].
  destruct (String.eqb key "fitness") eqn:E3;
    [apply String.eqb_eq in E3; subst; exfalso; apply H; cbn; tauto|].
  repeat match goal with
         | |- context [if String.eqb key ?s then _ else _] =>
             destruct (String.eqb key s)
         end; cbn; repeat split; reflexivity.
Qed.

Lemma herbivore_setattr_state (key : string) (value : R) (h : Herbivore.t) :
  ~ In key state_attributes ->
  Herbivore.age (Herbivore.setattr key value h) = Herbivore.age h
  /\ Herbivore.weight (Herbivore.setattr key value h) = Herbivore.weight h
  /\ Herbivore.fitness (Herbivore.setattr key value h) = Herbivore.fitness h
  /\ Herbivore.ident (Herbivore.setattr key value h) = Herbivore.ident h.
Proof.
  intros H; unfold Herbivore.setattr.
  repeat match goal with
         | |- context [if String.eqb key ?s then _ else _] =>
             destruct (String.eqb key s);
             [cbn; repeat split; reflexivity|]
         end.
  unfold Herbivore.age, Herbivore.weight, Herbivore.fitness, Herbivore.ident.
  cbn [Herbivore.with_base Herbivore.base].
  now apply animal_setattr_state.
Qed.

Lemma carnivore_setattr_state (key : string) (value : R) (c : Carnivore.t) :
  ~ In key state_attributes ->
  Carnivore.age (Carnivore.setattr key value c) = Carnivore.age c
  /\ Carnivore.weight (Carnivore.setattr key value c) = Carnivore.weight c
  /\ Carnivore.fitness (Carnivore.setattr key value c) = Carnivore.fitness c
  /\ Carnivore.ident (Carnivore.setattr key value c) = Carnivore.ident c.
Proof.
  intros H; unfold Carnivore.setattr.
  repeat match goal with
         | |- context [if String.eqb key ?s then _ else _] =>
             destruct (String.eqb key s);
             [cbn; repeat split; reflexivity|]
         end.
  unfold Carnivore.age, Carnivore.weight, Carnivore.fitness, Carnivore.ident.
  cbn [Carnivore.with_base Carnivore.base].
  now apply animal_setattr_state.
Qed.

Lemma herbivore_params_state (params : list (string * R)) :
  forall h : Herbivore.t,
    constants_only params ->
    Herbivore.age (Herbivore.set_animal_params params h) = Herbivore.age h
    /\ Herbivore.weight (Herbivore.set_animal_params params h)
       = Herbivore.weight h
    /\ Herbivore.fitness (Herbivore.set_animal_params params h)
       = Herbivore.fitness h
    /\ Herbivore.ident (Herbivore.set_animal_params params h)
       = Herbivore.ident h.
Proof.
  unfold Herbivore.set_animal_params.
  induction params as [|[key v] rest IH]; intros h H; [cbn; tauto|].
  inversion H as [|? ? Hk Hrest]; subst; cbn [fold_left fst snd].
  destruct (IH (Herbivore.setattr key v h) Hrest) as (A & B & C & D).
  destruct (herbivore_setattr_state key v h Hk) as (A' & B' & C' & D').
  repeat split; congruence.
Qed.

Lemma carnivore_params_state (params : list (string * R)) :
  forall c : Carnivore.t,
    constants_only params ->
    Carnivore.age (Carnivore.set_animal_params params c) = Carnivore.age c
    /\ Carnivore.weight (Carnivore.set_animal_params params c)
       = Carnivore.weight c
    /\ Carnivore.fitness (Carnivore.set_animal_params params c)
       = Carnivore.fitness c
    /\ Carnivore.ident (Carnivore.set_animal_params params c)
       = Carnivore.ident c.
Proof.
  unfold Carnivore.set_animal_params.
  induction params as [|[key v] rest IH]; intros c H; [cbn; tauto|].
  inversion H as [|? ? Hk Hrest]; subst; cbn [fold_left fst snd].
  destruct (IH (Carnivore.setattr key v c) Hrest) as (A & B & C & D).
  destruct (carnivore_setattr_state key v c Hk) as (A' & B' & C' & D').
  repeat split; congruence.
Qed.

Lemma set_animal_parameters_unknown (species : string)
      (params : list (string * R)) (cells : Island) :
  String.eqb species "Herbivore" = false ->
  String.eqb species "Carnivore" = false ->
  set_animal_parameters_cells species params cells = Ok cells.
Proof.
  intros Hh Hc; induction cells as [|[c g] rest IH]; [reflexivity|].
  cbn [set_animal_parameters_cells].
  rewrite Hh, Hc, !andb_false_r; cbn [bind]; now rewrite IH.
Qed.

(** On a well-formed island the call returns, and the cells hold the
    same animals with the same age, weight and fitness. *)
Lemma set_animal_parameters_census (species : string)
      (params : list (string * R)) (keys : list coordinate)
      (cells : Island) :
  constants_only params ->
  Forall (well_formed_cell keys) cells ->
  exists cells',
    set_animal_parameters_cells species params cells = Ok cells'
    /\ map fst cells' = map fst cells
    /\ Forall (well_formed_cell keys) cells'
    /\ census cells' = census cells
    /\ Forall2 (fun cg cg' =>
                  map Herbivore.ident (residents_of (herbivores (snd cg')))
                  = map Herbivore.ident (residents_of (herbivores (snd cg)))
                  /\ map Carnivore.ident (residents_of (carnivores (snd cg')))
                     = map Carnivore.ident
                         (residents_of (carnivores (snd cg))))
               cells cells'.
Proof.
  intros Hp Hwf; induction Hwf as [|[c g] rest Hcell Hrest IH].
  - exists []; repeat split; constructor.
  - destruct IH as (rest' & E & Hk & Hwf' & Hcensus & Hids).
    cbn [set_animal_parameters_cells]; rewrite E.
    unfold well_formed_cell in Hcell; cbn [fst snd] in Hcell.
    assert (Hmap_h : forall hs,
               map Herbivore.weight
                   (map (Herbivore.set_animal_params params) hs)
               = map Herbivore.weight hs
               /\ map Herbivore.fitness
                      (map (Herbivore.set_animal_params params) hs)
                  = map Herbivore.fitness hs
               /\ map Herbivore.age
                      (map (Herbivore.set_animal_params params) hs)
                  = map Herbivore.age hs
               /\ map Herbivore.ident
                      (map (Herbivore.set_animal_params params) hs)
                  = map Herbivore.ident hs).
    { intros hs; rewrite !map_map; repeat split; apply map_ext; intros h;
        apply (herbivore_params_state params h Hp). }
    assert (Hmap_c : forall cs,
               map Carnivore.weight
                   (map (Carnivore.set_animal_params params) cs)
               = map Carnivore.weight cs
               /\ map Carnivore.fitness
                      (map (Carnivore.set_animal_params params) cs)
                  = map Carnivore.fitness cs
               /\ map Carnivore.age
                      (map (Carnivore.set_animal_params params) cs)
                  = map Carnivore.age cs
               /\ map Carnivore.ident
                      (map (Carnivore.set_animal_params params) cs)
                  = map Carnivore.ident cs).
    { intros cs; rewrite !map_map; repeat split; apply map_ext; intros x;
        apply (carnivore_params_state params x Hp). }
    destruct (movable g) eqn:Hm.
    + destruct Hcell as [(k & fm & f & hs & cs & mhs & mcs & -> & Hk1 & Hfm)
                           Hn].
      destruct (Hmap_h hs) as (Hw & Hf & Ha & Hi).
      destruct (Hmap_c cs) as (Hcw & Hcf & Hca & Hci).
      cbn [andb].
      destruct (String.eqb species "Herbivore"); cell_simpl.
      * eexists; split; [reflexivity|].
        split; [cbn [map fst]; now rewrite Hk|].
        split.
        { constructor; [|assumption].
          unfold well_formed_cell; cbn [fst snd movable]; split; [|assumption].
          eexists k, fm, f, _, cs, mhs, mcs; split; [reflexivity | auto]. }
        split.
        { rewrite (census_cons _ rest'), (census_cons _ rest), Hcensus; f_equal.
          unfold census; cbn [map flat_map fst snd herbivores carnivores
                              residents_of land_cell].
          rewrite !app_nil_r, Hw, Hf, Ha, !length_map; reflexivity. }
        constructor; [cbn; now rewrite Hi | assumption].
      * destruct (String.eqb species "Carnivore"); cell_simpl.
        -- eexists; split; [reflexivity|].
           split; [cbn [map fst]; now rewrite Hk|].
           split.
           { constructor; [|assumption].
             unfold well_formed_cell; cbn [fst snd movable]; split;
               [|assumption].
             eexists k, fm, f, hs, _, mhs, mcs; split; [reflexivity | auto]. }
           split.
           { rewrite (census_cons _ rest'), (census_cons _ rest), Hcensus; f_equal.
             unfold census; cbn [map flat_map fst snd herbivores carnivores
                                 residents_of land_cell].
             rewrite !app_nil_r, Hcw, Hcf, Hca, !length_map; reflexivity. }
           constructor; [cbn; now rewrite Hci | assumption].
        -- eexists; split; [reflexivity|].
           split; [cbn [map fst]; now rewrite Hk|].
           split.
           { constructor; [|assumption].
             unfold well_formed_cell; cbn [fst snd movable]; split;
               [|assumption].
             eexists k, fm, f, hs, cs, mhs, mcs; split; [reflexivity | auto]. }
           split; [now rewrite (census_cons _ rest'), (census_cons _ rest), Hcensus|].
           constructor; [now split | assumption].
    + cbn [andb bind].
      exists ((c, g) :: rest'); split; [reflexivity|].
      split; [cbn [map fst]; now rewrite Hk|].
      split.
      { constructor; [|assumption].
        unfold well_formed_cell; cbn [fst snd]; now rewrite Hm. }
      split; [now rewrite (census_cons _ rest'), (census_cons _ rest), Hcensus|].
      constructor; [now split | assumption].
Qed.


(** * Further properties of the code *)

(** ** The map of the island *)

(** X1: [create_island] raises [IndexError] on a map without a line,
    builds the island cell by cell, line by line, from a map whose lines
    are equally long, use the letters L, H, D and W only and have water
    all around, and raises [ValueError] on every other map. *)
Theorem create_island_accepts_bordered_maps (island_map : string) :
  let lines := functions.split island_map in
  (lines = [] ->
   functions.create_island island_map = functions.Raises functions.IndexError)
  /\ (accepted_map lines ->
      functions.create_island island_map
      = functions.Returns (lines_cells 0 lines))
  /\ (lines <> [] -> ~ accepted_map lines ->
      exists m, functions.create_island island_map
                = functions.Raises (functions.ValueError m)).
Proof.
  intros lines; subst lines.
  pose proof (create_island_spec island_map) as H.
  destruct (functions.split island_map) as [|first rest] eqn:E.
  - split; [auto|]; split; [intros (Hne & _); now contradict Hne|].
    intros Hne; now contradict Hne.
  - pose proof (lines_pass_accepted (first :: rest) ltac:(discriminate)) as Ha.
    cbn [hd] in Ha.
    destruct (lines_pass _ _ 0 (first :: rest)).
    + split; [discriminate|]; split; [auto|].
      intros _ Hn; contradict Hn; now apply Ha.
    + split; [discriminate|]; split; [|auto].
      intros Hacc; apply Ha in Hacc; discriminate.
Qed.

Lemma create_island_accepts_bordered_maps_witness :
  functions.create_island "WWW WDW WWW"
  = functions.Returns
      (lines_cells 0 [["W"; "W"; "W"]; ["W"; "D"; "W"]; ["W"; "W"; "W"]]%char)
  /\ (exists m, functions.create_island "WWW WDL WWW"
                = functions.Raises (functions.ValueError m)).
Proof.
  split.
  - apply (proj1 (proj2 (create_island_accepts_bordered_maps "WWW WDW WWW"))).
    apply (lines_pass_accepted
             [["W"; "W"; "W"]; ["W"; "D"; "W"]; ["W"; "W"; "W"]]%char);
      [discriminate | reflexivity].
  - apply (proj2 (proj2 (create_island_accepts_bordered_maps "WWW WDL WWW")));
      [discriminate|].
    intros Hacc.
    apply (lines_pass_accepted
             [["W"; "W"; "W"]; ["W"; "D"; "L"]; ["W"; "W"; "W"]]%char) in Hacc;
      [discriminate | discriminate].
Defined.

(** X2: the island [create_island] returns holds one cell for every
    coordinate of the grid, from (1, 1) to (number of lines, length of a
    line), in reading order and each coordinate once; its passable cells
    are land whose four neighbours are on the map, all other cells are
    water. *)
Theorem created_island_is_a_well_formed_grid (island_map : string)
        (island : Island)
        (Hcreated : functions.create_island island_map
                    = functions.Returns island) :
  let lines := functions.split island_map in
  accepted_map lines
  /\ island = lines_cells 0 lines
  /\ map fst island = grid_keys (List.length lines) (List.length (hd [] lines))
  /\ NoDup (map fst island)
  /\ well_formed island.
Proof.
  destruct (created_island_facts island_map island Hcreated)
    as (Ha & Hi & Hk & Hw).
  cbv zeta; repeat split; auto; try apply Ha.
  rewrite Hk; apply grid_keys_nodup.
Qed.

Lemma created_island_is_a_well_formed_grid_witness :
  exists island,
    functions.create_island "WWW WDW WWW" = functions.Returns island
    /\ map fst island
       = [(1, 1); (1, 2); (1, 3); (2, 1); (2, 2); (2, 3);
          (3, 1); (3, 2); (3, 3)]%Z
    /\ NoDup (map fst island)
    /\ well_formed island.
Proof.
  assert (E : functions.create_island "WWW WDW WWW"
              = functions.Returns
                  (lines_cells 0 [["W"; "W"; "W"]; ["W"; "D"; "W"];
                                  ["W"; "W"; "W"]]%char)).
  { pose proof (create_island_spec "WWW WDW WWW") as H; exact H. }
  eexists; split; [exact E|].
  destruct (created_island_is_a_well_formed_grid _ _ E)
    as (_ & _ & Hk & Hn & Hw).
  split; [exact Hk|]; split; [exact Hn | exact Hw].
Defined.

(** ** Populations *)

(** X3: on a cell of water [insert_population] places nothing: it returns
    normally when no description names one of the two species, and
    raises [AttributeError] otherwise; either way the cell and the
    generator are as they were. *)
Theorem insertion_on_water_places_nothing (animals : list description)
        (g : Geography) (env : Env) (Hwater : is_water g) :
  insert_population animals g env
  = (g, env,
     match described "Herbivore" animals ++ described "Carnivore" animals with
     | [] => Ok tt
     | _ :: _ => Raise AttributeError
     end).
Proof. now apply insert_population_water. Qed.

Lemma insertion_on_water_places_nothing_witness :
  insert_population [mkDescription "Wolf" 5 (Some 20);
                     mkDescription "Carnivore" 5 (Some 20)]
                    (new_geography Water) (constant_env 0 0)
  = (new_geography Water, constant_env 0 0, Raise AttributeError).
Proof.
  exact (insertion_on_water_places_nothing
           [mkDescription "Wolf" 5 (Some 20);
            mkDescription "Carnivore" 5 (Some 20)]
           (new_geography Water) (constant_env 0 0) water_is_water).
Defined.

(** X4: on a passable cell [insert_population] appends one animal for
    every description of a herbivore or a carnivore, in the order of the
    descriptions, to the list of its species; the animals have the ages
    given and the constants of their species; where every description
    gives a weight they have the weights given and no random number is
    drawn.  The ages are at most 1000, so that the fitness formula does
    not overflow. *)
Theorem insertion_on_land_appends (animals : list description)
        (k : terrain) (fm : option R) (f : R)
        (hs : list Herbivore.t) (cs : list Carnivore.t)
        (mhs : list Herbivore.t) (mcs : list Carnivore.t) (env : Env)
        (Hages : Forall (fun d => d_age d <= 1000) animals) :
  exists new_hs new_cs env',
    insert_population animals (land_cell k fm f hs cs mhs mcs) env
    = (land_cell k fm f (hs ++ new_hs) (cs ++ new_cs) mhs mcs, env', Ok tt)
    /\ map Herbivore.age new_hs = map d_age (described "Herbivore" animals)
    /\ map Carnivore.age new_cs = map d_age (described "Carnivore" animals)
    /\ Forall (fun h => Herbivore.constants h = Herbivore.default_constants)
              new_hs
    /\ Forall (fun c => Carnivore.constants c = Carnivore.default_constants)
              new_cs
    /\ (weights_given animals ->
        map (fun h => Some (Herbivore.weight h)) new_hs
        = map d_weight (described "Herbivore" animals)
        /\ map (fun c => Some (Carnivore.weight c)) new_cs
           = map d_weight (described "Carnivore" animals)
        /\ no_draw env env').
Proof. apply insert_population_land. Qed.

Lemma insertion_on_land_appends_witness :
  exists new_hs new_cs env',
    insert_population [mkDescription "Carnivore" 5 (Some 20);
                       mkDescription "Wolf" 5 (Some 20);
                       mkDescription "Herbivore" 3 (Some 10)]
                      example_cell (constant_env 0 0)
    = (land_cell Desert None 0 ([example_prey] ++ new_hs)
                 ([carnivore_at 0 40 20; carnivore_at 1 40 20] ++ new_cs)
                 [] [],
       env', Ok tt)
    /\ map Herbivore.age new_hs = [3]
    /\ map Carnivore.age new_cs = [5]
    /\ map (fun h => Some (Herbivore.weight h)) new_hs = [Some 10]
    /\ map (fun c => Some (Carnivore.weight c)) new_cs = [Some 20]
    /\ no_draw (constant_env 0 0) env'.
Proof.
  destruct (insertion_on_land_appends
              [mkDescription "Carnivore" 5 (Some 20);
               mkDescription "Wolf" 5 (Some 20);
               mkDescription "Herbivore" 3 (Some 10)]
              Desert None 0 [example_prey]
              [carnivore_at 0 40 20; carnivore_at 1 40 20] [] []
              (constant_env 0 0))
    as (new_hs & new_cs & env' & E & Ha & Hc & _ & _ & Hw).
  { repeat (apply Forall_cons; [cbn; lra|]); apply Forall_nil. }
  destruct Hw as (Hwh & Hwc & Hn).
  { repeat (apply Forall_cons; [discriminate|]); apply Forall_nil. }
  exists new_hs, new_cs, env'.
  rewrite example_cell_land.
  split; [exact E|].
  split; [exact Ha|]; split; [exact Hc|].
  split; [exact Hwh|]; split; [exact Hwc | exact Hn].
Defined.

(** X5: on a well-formed island [add_population] returns normally exactly
    when every element of the population can be placed (its location is
    on the map, and is passable unless none of its descriptions names a
    herbivore or a carnivore); then the number of residents of the island
    has grown by the number of animals described.  Whether it returns or
    raises, the island keeps its coordinates, stays well formed, and every
    cell stays passable or impassable as it was.  The ages are at most
    1000, so that the fitness formula does not overflow. *)
Theorem add_population_places_every_animal
        (population : list (coordinate * list description))
        (island0 : Island) (env : Env)
        (Hwf : well_formed island0)
        (Hages : Forall (fun lp => Forall (fun d => d_age d <= 1000) (snd lp))
                        population) :
  exists island1 env1 r,
    add_population population island0 env = (island1, env1, r)
    /\ well_formed island1
    /\ map fst island1 = map fst island0
    /\ (forall c g, island_get island0 c = Ok g ->
                    exists g', island_get island1 c = Ok g'
                               /\ movable g' = movable g)
    /\ (r = Ok tt <-> Forall (placeable island0) population)
    /\ (r = Ok tt ->
        total_residents island1
        = (total_residents island0 + population_size population)%nat).
Proof. now apply add_population_spec. Qed.

Lemma add_population_places_every_animal_witness :
  exists island1 env1,
    add_population [((2, 2)%Z, [mkDescription "Herbivore" 5 (Some 20);
                                mkDescription "Carnivore" 5 (Some 20)])]
                   example_island (constant_env 0 0)
    = (island1, env1, Ok tt)
    /\ well_formed island1
    /\ total_residents island1 = 5%nat.
Proof.
  destruct (add_population_places_every_animal
              [((2, 2)%Z, [mkDescription "Herbivore" 5 (Some 20);
                           mkDescription "Carnivore" 5 (Some 20)])]
              example_island (constant_env 0 0) example_island_well_formed)
    as (island1 & env1 & r & E & Hwf & _ & _ & Hr & Hn).
  { apply Forall_cons; [cbn [snd]|apply Forall_nil].
    repeat (apply Forall_cons; [cbn; lra|]); apply Forall_nil. }
  assert (Hok : r = Ok tt).
  { apply Hr; apply Forall_cons; [|apply Forall_nil].
    exists example_cell; split; [reflexivity | discriminate]. }
  subst r; exists island1, env1.
  split; [exact E|]; split; [exact Hwf|].
  rewrite (Hn eq_refl); reflexivity.
Defined.

(** ** Counts and years *)

(** X6: on a well-formed island the property [num_animals] is the number
    of residents of the island, and [num_animals_per_species] gives the
    number of resident herbivores and of resident carnivores, which add up
    to it. *)
Theorem animal_counts_are_the_residents (sim : BioSim)
        (Hwf : well_formed (island sim)) :
  num_animals sim = Ok (total_residents (island sim))
  /\ num_animals_per_species sim
     = Ok (list_sum (map (fun cg => List.length
                                      (residents_of (herbivores (snd cg))))
                         (island sim)),
           list_sum (map (fun cg => List.length
                                      (residents_of (carnivores (snd cg))))
                         (island sim)))
  /\ total_residents (island sim)
     = (list_sum (map (fun cg => List.length
                                   (residents_of (herbivores (snd cg))))
                      (island sim))
        + list_sum (map (fun cg => List.length
                                     (residents_of (carnivores (snd cg))))
                        (island sim)))%nat.
Proof.
  split; [|split].
  - unfold num_animals.
    now rewrite (num_animals_from_spec (map fst (island sim)) (island sim) 0).
  - unfold num_animals_per_species.
    now rewrite (num_animals_per_species_from_spec
                   (map fst (island sim)) (island sim) 0 0).
  - apply total_residents_by_species.
Qed.

Lemma animal_counts_are_the_residents_witness :
  num_animals example_sim = Ok 3%nat
  /\ num_animals_per_species example_sim = Ok (1%nat, 2%nat).
Proof.
  destruct (animal_counts_are_the_residents example_sim
              example_island_well_formed) as (Hn & Hs & _).
  split; [exact Hn | exact Hs].
Defined.

(** X7: whenever [simulate(num_years)] returns, the year counter has
    advanced by [num_years] and one record of statistics has been handed
    over for each of the years. *)
Theorem simulate_advances_the_year (num_years : nat) (sim sim' : BioSim)
        (env env' : Env) (stats : list YearStats)
        (Hrun : simulate num_years sim env = Ok (sim', env', stats)) :
  year sim' = (year sim + num_years)%nat
  /\ List.length stats = num_years.
Proof. exact (simulate_counts_years num_years sim sim' env env' stats Hrun). Qed.

Lemma simulate_advances_the_year_witness :
  exists sim' env' stats,
    simulate 1 lone_sim quiet_env = Ok (sim', env', stats)
    /\ year sim' = 1%nat /\ List.length stats = 1%nat.
Proof.
  destruct lone_year as (env' & s & E).
  eexists _, env', [s]; split; [exact E|].
  exact (simulate_advances_the_year 1 lone_sim _ quiet_env env' [s] E).
Defined.

(** X8: simulating [m + n] years is simulating [m] years and then [n]
    more, on the island and with the generator the first run left; the
    statistics are those of the first run followed by those of the
    second, and an exception of either run is the exception of the
    whole. *)
Theorem simulate_composes (m n : nat) (sim : BioSim) (env : Env) :
  simulate (m + n) sim env
  = ('(sim1, env1, s1) <- simulate m sim env ;;
     '(sim2, env2, s2) <- simulate n sim1 env1 ;;
     Ok (sim2, env2, s1 ++ s2)).
Proof. apply simulate_app. Qed.

(** ** The order of feeding *)

(** X9: [sort_herbivores_by_fitness] rearranges the herbivores of a cell
    and nothing else: the new list is a permutation of the old one, no
    herbivore in it is fitter than one before it, and herbivores of equal
    fitness keep their order. *)
Theorem herbivores_are_sorted_by_fitness (g : Geography)
        (hs : list Herbivore.t) (Hlist : herbivores g = Some hs) :
  exists hs',
    sort_herbivores_by_fitness g = Ok (with_herbivores (Some hs') g)
    /\ Permutation hs' hs
    /\ StronglySorted not_fitter hs'
    /\ (forall v,
           filter (fun h => Reqb (Herbivore.fitness h) v) hs'
           = filter (fun h => Reqb (Herbivore.fitness h) v) hs).
Proof.
  exists (sort_by_fitness hs).
  unfold sort_herbivores_by_fitness; rewrite Hlist; cbn [attr bind].
  split; [reflexivity|].
  split; [apply sort_by_fitness_perm|].
  split; [apply sort_by_fitness_sorted|].
  intros v; apply sort_by_fitness_stable.
Qed.

Lemma herbivores_are_sorted_by_fitness_witness :
  exists hs',
    sort_herbivores_by_fitness example_breeding_cell
    = Ok (with_herbivores (Some hs') example_breeding_cell)
    /\ Permutation hs' [herbivore_at 0 5 50; herbivore_at 1 5 50]
    /\ StronglySorted not_fitter hs'
    /\ (forall v,
           filter (fun h => Reqb (Herbivore.fitness h) v) hs'
           = filter (fun h => Reqb (Herbivore.fitness h) v)
                    [herbivore_at 0 5 50; herbivore_at 1 5 50]).
Proof.
  exact (herbivores_are_sorted_by_fitness
           example_breeding_cell
           [herbivore_at 0 5 50; herbivore_at 1 5 50] eq_refl).
Defined.

(** X10: [random_carnivore_order] rearranges the carnivores of a cell and
    nothing else: the new list is a permutation of the old one. *)
Theorem carnivores_are_shuffled (g : Geography) (cs : list Carnivore.t)
        (env : Env) (Hlist : carnivores g = Some cs) :
  exists cs' env',
    random_carnivore_order g env = Ok (with_carnivores (Some cs') g, env')
    /\ Permutation cs' cs.
Proof.
  unfold random_carnivore_order; rewrite Hlist; cbn [attr bind].
  pose proof (random_shuffle_perm cs env) as Hp.
  destruct (random_shuffle cs env) as [cs' env']; cbn [fst] in Hp.
  now exists cs', env'.
Qed.

Lemma carnivores_are_shuffled_witness :
  exists cs' env',
    random_carnivore_order example_cell (constant_env 0 0)
    = Ok (with_carnivores (Some cs') example_cell, env')
    /\ Permutation cs' [carnivore_at 0 40 20; carnivore_at 1 40 20].
Proof.
  exact (carnivores_are_shuffled
           example_cell [carnivore_at 0 40 20; carnivore_at 1 40 20]
           (constant_env 0 0) eq_refl).
Defined.

(** ** Death, birth and the hunt *)

(** X11: in a passable cell whose animals are distinct, [animal_death]
    returns, every animal it leaves was a resident before, and it leaves
    no animal of weight zero: such an animal dies whatever is drawn. *)
Theorem weightless_animals_die (k : terrain) (fm : option R) (f : R)
        (hs : list Herbivore.t) (cs : list Carnivore.t)
        (mhs : list Herbivore.t) (mcs : list Carnivore.t) (env : Env)
        (Hherbivores : NoDup (herbivore_ids hs))
        (Hcarnivores : NoDup (carnivore_ids cs)) :
  exists hs' cs' env',
    animal_death (land_cell k fm f hs cs mhs mcs) env
    = Ok (land_cell k fm f hs' cs' mhs mcs, env')
    /\ incl hs' hs /\ incl cs' cs
    /\ Forall (fun h => Herbivore.weight h <> 0) hs'
    /\ Forall (fun c => Carnivore.weight c <> 0) cs'.
Proof. now apply animal_death_no_weight. Qed.

Lemma weightless_animals_die_witness :
  exists hs' cs' env',
    animal_death
      (land_cell Desert None 0 [herbivore_at 0 5 0] [carnivore_at 1 5 0] [] [])
      (constant_env 0 0)
    = Ok (land_cell Desert None 0 hs' cs' [] [], env')
    /\ incl hs' [herbivore_at 0 5 0] /\ incl cs' [carnivore_at 1 5 0]
    /\ Forall (fun h => Herbivore.weight h <> 0) hs'
    /\ Forall (fun c => Carnivore.weight c <> 0) cs'.
Proof.
  apply (weightless_animals_die Desert None 0 [herbivore_at 0 5 0]
                                [carnivore_at 1 5 0] [] [] (constant_env 0 0)).
  - unfold herbivore_ids; cbn [map]; rewrite herbivore_at_ident.
    repeat constructor; intros [].
  - unfold carnivore_ids; cbn [map]; rewrite carnivore_at_ident.
    repeat constructor; intros [].
Defined.

Lemma lone_candidates_breed (N : nat) (l : list Herbivore.t) (env : Env) :
  N = List.length (filter (fun h => negb (Reqb (Herbivore.age h) 0)) l) ->
  (N <= 1)%nat -> (forall k, 0 <= uniform_draws env k) ->
  exists env', herbivores_breed N l env = (l, [], env')
               /\ uniform_draws env' = uniform_draws env.
Proof.
  intros HN Hle Hd.
  destruct N as [|[|N]]; [| |lia].
  - exists env; split; [|reflexivity].
    apply herbivores_breed_none.
    now destruct (filter _ l); [|discriminate].
  - now apply herbivores_breed_alone.
Qed.

Lemma lone_predators_breed (N : nat) (l : list Carnivore.t) (env : Env) :
  N = List.length (filter (fun c => negb (Reqb (Carnivore.age c) 0)) l) ->
  (N <= 1)%nat -> (forall k, 0 <= uniform_draws env k) ->
  exists env', carnivores_breed N l env = (l, [], env')
               /\ uniform_draws env' = uniform_draws env.
Proof.
  intros HN Hle Hd.
  destruct N as [|[|N]]; [| |lia].
  - exists env; split; [|reflexivity].
    apply carnivores_breed_none.
    now destruct (filter _ l); [|discriminate].
  - now apply carnivores_breed_alone.
Qed.

(** X12: reproduction needs company.  In a passable cell with at most
    one herbivore and at most one carnivore of an age other than zero,
    [procreation] changes nothing: with [N = 1] the probability of a birth
    is [min(1, gamma * fitness * 0) = 0], which no uniform draw is
    below. *)
Theorem a_lone_animal_gives_no_birth (k : terrain) (fm : option R) (f : R)
        (hs : list Herbivore.t) (cs : list Carnivore.t)
        (mhs : list Herbivore.t) (mcs : list Carnivore.t) (env : Env)
        (Hherbivores :
           (List.length (filter (fun h => negb (Reqb (Herbivore.age h) 0)) hs)
            <= 1)%nat)
        (Hcarnivores :
           (List.length (filter (fun c => negb (Reqb (Carnivore.age c) 0)) cs)
            <= 1)%nat)
        (Hdraws : forall i, 0 <= uniform_draws env i) :
  exists env',
    procreation (land_cell k fm f hs cs mhs mcs) env
    = Ok (land_cell k fm f hs cs mhs mcs, env').
Proof.
  unfold procreation; cell_simpl.
  destruct (lone_candidates_breed _ hs env eq_refl Hherbivores Hdraws)
    as (env1 & -> & Hu).
  cell_simpl.
  destruct (lone_predators_breed _ cs env1 eq_refl Hcarnivores)
    as (env2 & -> & _).
  { intros i; rewrite Hu; apply Hdraws. }
  exists env2; now rewrite !app_nil_r.
Qed.

Lemma a_lone_animal_gives_no_birth_witness :
  exists env',
    procreation (land_cell Lowland (Some 800) 0 [herbivore_at 0 5 50] [] [] [])
                (constant_env 0 0)
    = Ok (land_cell Lowland (Some 800) 0 [herbivore_at 0 5 50] [] [] [], env').
Proof.
  apply (a_lone_animal_gives_no_birth
           Lowland (Some 800) 0 [herbivore_at 0 5 50] [] [] []
           (constant_env 0 0)).
  - cbn [filter]; destruct (negb _); cbn; lia.
  - cbn; lia.
  - intros i; cbn; lra.
Defined.

Lemma carnivore_at_fitness_zero (i : nat) (a w : R) :
  w <= 0 -> Carnivore.fitness (carnivore_at i a w) = 0.
Proof.
  intros Hw.
  unfold carnivore_at, Carnivore.init, Carnivore.fitness; simpl.
  now rewrite calculate_fitness_nonpos.
Qed.

(** X13: a predator that is not fitter than any of the prey kills none:
    [hunt] returns no prey, leaves the predator as it was and draws no
    random number. *)
Theorem no_kill_without_a_fitness_advantage (herbivores : list Herbivore.t)
        (c : Carnivore.t) (env : Env)
        (Hfit : Forall (fun h => Carnivore.fitness c <= Herbivore.fitness h)
                       herbivores) :
  Carnivore.hunt herbivores c env = ([], c, env).
Proof.
  unfold Carnivore.hunt.
  now rewrite (hunt_loop_no_kill herbivores [] 0 c env Hfit).
Qed.

Lemma no_kill_without_a_fitness_advantage_witness :
  Carnivore.hunt [herbivore_at 1 5 20; herbivore_at 2 5 0]
                 (carnivore_at 0 5 0) (constant_env 0 0)
  = ([], carnivore_at 0 5 0, constant_env 0 0).
Proof.
  apply (no_kill_without_a_fitness_advantage
           [herbivore_at 1 5 20; herbivore_at 2 5 0] (carnivore_at 0 5 0)
           (constant_env 0 0)).
  rewrite (carnivore_at_fitness_zero 0 5 0) by lra.
  apply Forall_cons;
    [left; apply (herbivore_at_fitness_pos 1 5 20); lra|].
  apply Forall_cons; [|apply Forall_nil].
  rewrite (herbivore_at_fitness_zero 2 5 0) by lra; lra.
Defined.

(** ** Parameters *)

(** X14: [set_animal_parameters] for a species other than the two known
    ones returns normally and changes nothing. *)
Theorem parameters_of_an_unknown_species_are_ignored (species : string)
        (params : list (string * R)) (sim : BioSim)
        (Hherbivore : String.eqb species "Herbivore" = false)
        (Hcarnivore : String.eqb species "Carnivore" = false) :
  set_animal_parameters species params sim = Ok sim.
Proof.
  unfold set_animal_parameters.
  rewrite set_animal_parameters_unknown by assumption.
  now destruct sim.
Qed.

Lemma parameters_of_an_unknown_species_are_ignored_witness :
  set_animal_parameters "Wolf" [("eta"%string, 1)] example_sim
  = Ok example_sim.
Proof.
  exact (parameters_of_an_unknown_species_are_ignored
           "Wolf" [("eta"%string, 1)] example_sim eq_refl eq_refl).
Defined.

(** X15: parameters whose names are none of ['age'], ['weight'] and
    ['fitness'] leave the animals what they are: on a well-formed island
    [set_animal_parameters] returns, the island keeps its coordinates and
    stays well formed, every cell holds the same animals in the same
    order, and the census of the island (counts, weights, fitness, ages)
    is unchanged; in particular no fitness is recomputed. *)
Theorem constants_do_not_touch_the_census (species : string)
        (params : list (string * R)) (keys : list coordinate)
        (cells : Island)
        (Hparams : constants_only params)
        (Hwf : Forall (well_formed_cell keys) cells) :
  exists cells',
    set_animal_parameters_cells species params cells = Ok cells'
    /\ map fst cells' = map fst cells
    /\ Forall (well_formed_cell keys) cells'
    /\ census cells' = census cells
    /\ Forall2 (fun cg cg' =>
                  map Herbivore.ident (residents_of (herbivores (snd cg')))
                  = map Herbivore.ident (residents_of (herbivores (snd cg)))
                  /\ map Carnivore.ident (residents_of (carnivores (snd cg')))
                     = map Carnivore.ident
                         (residents_of (carnivores (snd cg))))
               cells cells'.
Proof. now apply set_animal_parameters_census. Qed.

Lemma constants_do_not_touch_the_census_witness :
  exists cells',
    set_animal_parameters_cells "Carnivore" [("eta"%string, 1)]
                                example_island
    = Ok cells'
    /\ map fst cells' = map fst example_island
    /\ census cells' = census example_island.
Proof.
  destruct (constants_do_not_touch_the_census
              "Carnivore" [("eta"%string, 1)] (map fst example_island)
              example_island)
    as (cells' & E & Hk & _ & Hc & _).
  - apply Forall_cons; [|apply Forall_nil].
    cbn; intros [H|[H|[H|[]]]]; discriminate.
  - exact example_island_well_formed.
  - exists cells'; split; [exact E|]; split; [exact Hk | exact Hc].
Defined.

Lemma set_landscape_parameters_cells_known (landscape : string)
      (params : list (string * R)) (v : R) (cells : Island) :
  landscape = "L"%string \/ landscape = "H"%string ->
  params_get params "f_max" = Ok v ->
  set_landscape_parameters_cells landscape params cells
  = (map (fun cg => (fst cg, with_f_max (Some v) (snd cg))) cells, Ok tt).
Proof.
  intros Hl Hv; induction cells as [|[coord g] rest IH]; [reflexivity|].
  cbn [set_landscape_parameters_cells map fst snd].
  rewrite Hv, IH.
  destruct Hl as [-> | ->]; reflexivity.
Qed.

(** X16: [set_landscape_parameters] with the letter L or H sets the
    fodder maximum of every cell of the island, whatever its terrain, to
    [params['f_max']]; without that key it raises [KeyError], and with any
    other letter [ValueError], at the first cell and with the island as it
    was; on an island without a cell it does nothing at all. *)
Theorem landscape_parameters_reach_every_cell (landscape : string)
        (params : list (string * R)) (sim : BioSim) :
  (forall v,
      landscape = "L"%string \/ landscape = "H"%string ->
      params_get params "f_max" = Ok v ->
      set_landscape_parameters landscape params sim
      = (mkBioSim (map (fun cg => (fst cg, with_f_max (Some v) (snd cg)))
                       (island sim))
                  (current_year sim),
         Ok tt))
  /\ (forall e,
         landscape = "L"%string \/ landscape = "H"%string ->
         params_get params "f_max" = Raise e -> island sim <> [] ->
         set_landscape_parameters landscape params sim = (sim, Raise e))
  /\ (landscape <> "L"%string -> landscape <> "H"%string ->
      island sim <> [] ->
      set_landscape_parameters landscape params sim = (sim, Raise ValueError))
  /\ (island sim = [] ->
      set_landscape_parameters landscape params sim = (sim, Ok tt)).
Proof.
  unfold set_landscape_parameters.
  destruct sim as [cells y]; cbn [island current_year].
  split; [|split; [|split]].
  - intros v Hl Hv.
    now rewrite (set_landscape_parameters_cells_known _ _ v cells Hl Hv).
  - intros e Hl Hv Hne.
    destruct cells as [|[coord g] rest]; [now contradict Hne|].
    cbn [set_landscape_parameters_cells]; rewrite Hv.
    destruct Hl as [-> | ->]; reflexivity.
  - intros HL HH Hne.
    destruct cells as [|[coord g] rest]; [now contradict Hne|].
    cbn [set_landscape_parameters_cells].
    apply String.eqb_neq in HL, HH; now rewrite HL, HH.
  - intros ->; reflexivity.
Qed.

Lemma landscape_parameters_reach_every_cell_witness :
  set_landscape_parameters "L" [("f_max"%string, 700)] example_sim
  = (mkBioSim (map (fun cg => (fst cg, with_f_max (Some 700) (snd cg)))
                   example_island)
              0,
     Ok tt)
  /\ set_landscape_parameters "D" [("f_max"%string, 700)] example_sim
     = (example_sim, Raise ValueError).
Proof.
  split.
  - apply (proj1 (landscape_parameters_reach_every_cell
                    "L" [("f_max"%string, 700)] example_sim));
      [now left | reflexivity].
  - apply (proj1 (proj2 (proj2 (landscape_parameters_reach_every_cell
                                  "D" [("f_max"%string, 700)] example_sim))));
      discriminate.
Defined.

(** ** Construction *)

Lemma cell_of_letter_empty (letter : ascii) :
  resident_count (cell_of_letter letter) = 0%nat.
Proof.
  unfold cell_of_letter.
  destruct (functions.getitem functions.geography_types letter) as [g|e] eqn:E;
    [|reflexivity].
  unfold functions.getitem, functions.geography_types in E.
  repeat match type of E with
         | (if ?b then _ else _) = _ => destruct b
         end; inversion E; reflexivity.
Qed.

Lemma line_cells_empty (x y : Z) (letters : list ascii) :
  total_residents (line_cells x y letters) = 0%nat.
Proof.
  revert y; induction letters as [|letter rest IH]; intros y; [reflexivity|].
  cbn [line_cells].
  change (total_residents (((x, (y + 1)%Z), cell_of_letter letter)
                           :: line_cells x (y + 1) rest))
    with (resident_count (cell_of_letter letter)
          + total_residents (line_cells x (y + 1) rest))%nat.
  now rewrite cell_of_letter_empty, IH.
Qed.

Lemma lines_cells_empty (x : Z) (lines : list (list ascii)) :
  total_residents (lines_cells x lines) = 0%nat.
Proof.
  revert x; induction lines as [|line rest IH]; intros x; [reflexivity|].
  cbn [lines_cells]; unfold total_residents in *.
  rewrite map_app, list_sum_app.
  pose proof (line_cells_empty (x + 1) 0 line) as H.
  unfold total_residents in H; now rewrite H, IH.
Qed.

(** X17: whenever the constructor [BioSim(island_map, ini_pop, seed)]
    returns, the simulation is in year 0, its island is the well-formed
    grid of the map, and the number of animals on it is the number of
    animals the initial population describes.  The ages are at most 1000,
    so that the fitness formula does not overflow. *)
Theorem constructed_simulation_is_populated (island_map : string)
        (ini_pop : list (coordinate * list description)) (env env' : Env)
        (sim : BioSim)
        (Hages : Forall (fun lp => Forall (fun d => d_age d <= 1000) (snd lp))
                        ini_pop)
        (Hinit : BioSim_init island_map ini_pop env = Constructed sim env') :
  year sim = 0%nat
  /\ well_formed (island sim)
  /\ map fst (island sim)
     = grid_keys (List.length (functions.split island_map))
                 (List.length (hd [] (functions.split island_map)))
  /\ NoDup (map fst (island sim))
  /\ num_animals sim = Ok (population_size ini_pop).
Proof.
  unfold BioSim_init in Hinit.
  destruct (functions.create_island island_map) as [island0|e] eqn:Ec;
    [|discriminate].
  destruct (created_island_facts island_map island0 Ec)
    as (_ & Hcells & Hkeys & Hwf0).
  destruct (add_population_spec ini_pop island0 env Hwf0)
    as (island1 & env1 & r & Ea & Hwf1 & Hk1 & _ & _ & Hcount).
  rewrite Ea in Hinit.
  destruct r as [[]|e]; [|discriminate].
  inversion Hinit; subst sim env'; clear Hinit.
  cbn [island current_year year].
  assert (Hk : map fst island1
               = grid_keys (List.length (functions.split island_map))
                           (List.length (hd [] (functions.split island_map))))
    by congruence.
  split; [reflexivity|]; split; [assumption|]; split; [assumption|].
  split; [rewrite Hk; apply grid_keys_nodup|].
  unfold num_animals; cbn [island].
  rewrite (num_animals_from_spec (map fst island1) island1 0 Hwf1).
  rewrite (Hcount eq_refl), Hcells, lines_cells_empty; reflexivity.
Qed.

Lemma constructed_simulation_is_populated_witness :
  exists sim env',
    BioSim_init "WWW WDW WWW"
                [((2, 2)%Z, [mkDescription "Herbivore" 5 (Some 20);
                             mkDescription "Carnivore" 5 (Some 20)])]
                (constant_env 0 0)
    = Constructed sim env'
    /\ year sim = 0%nat
    /\ well_formed (island sim)
    /\ num_animals sim = Ok 2%nat.
Proof.
  assert (Ec : functions.create_island "WWW WDW WWW"
               = functions.Returns
                   (lines_cells 0 [["W"; "W"; "W"]; ["W"; "D"; "W"];
                                   ["W"; "W"; "W"]]%char)).
  { pose proof (create_island_spec "WWW WDW WWW") as H; exact H. }
  destruct (created_island_facts _ _ Ec) as (_ & _ & _ & Hwf0).
  destruct (add_population_spec
              [((2, 2)%Z, [mkDescription "Herbivore" 5 (Some 20);
                           mkDescription "Carnivore" 5 (Some 20)])]
              _ (constant_env 0 0) Hwf0)
    as (island1 & env1 & r & Ea & _ & _ & _ & Hr & _).
  assert (Hok : r = Ok tt).
  { apply Hr; apply Forall_cons; [|apply Forall_nil].
    exists (new_geography Desert); split; [reflexivity | discriminate]. }
  subst r.
  assert (Ei : BioSim_init "WWW WDW WWW"
                 [((2, 2)%Z, [mkDescription "Herbivore" 5 (Some 20);
                              mkDescription "Carnivore" 5 (Some 20)])]
                 (constant_env 0 0)
               = Constructed (mkBioSim island1 0) env1).
  { unfold BioSim_init; rewrite Ec, Ea; reflexivity. }
  exists (mkBioSim island1 0), env1.
  split; [exact Ei|].
  assert (Hages : Forall (fun lp : coordinate * list description =>
                            Forall (fun d => d_age d <= 1000) (snd lp))
                         [((2, 2)%Z, [mkDescription "Herbivore" 5 (Some 20);
                                      mkDescription "Carnivore" 5 (Some 20)])]).
  { apply Forall_cons; [cbn [snd]|apply Forall_nil].
    repeat (apply Forall_cons; [cbn; lra|]); apply Forall_nil. }
  destruct (constructed_simulation_is_populated _ _ _ _ _ Hages Ei)
    as (Hy & Hwf & _ & _ & Hn).
  split; [exact Hy|]; split; [exact Hwf | exact Hn].
Defined.
